(** * yt-search-proxy: the fallback/aggregation engine of [server.js]

    A shallow embedding of the Express handlers [/suggest], [/channels] and
    [/search], of the response cache they share, of the normalizers and of
    the HTML scraper, followed by the properties the specification states
    about them.

    The repository holds several revisions of the server.  [Server] embeds
    the current one, the second program of [src/server.js] (candidate
    races, Google and HTML fallbacks); [Part000] and [Part001] embed the
    revisions under [src/unnamed/], and [Server0] the first program of
    [src/server.js], an intermediate revision: these three call their
    mirrors one after the other.  [Startup] embeds the parsing of the
    mirror pools.

    Conventions of the model:
    - a JavaScript string is a [string] of UTF-8 bytes;
    - a JavaScript number is an exact decimal [m * 10^e], or [NaN], or an
      infinity; rounding to binary64 and the sign of zero are not modelled;
    - a parsed JSON document is a [value]; an object lists its properties in
      enumeration order, each key once;
    - [JSON.stringify], [JSON.parse], [encodeURIComponent], the routing and
      the query parsing of Express are parameters ([Builtins], [Express]);
    - a handler runs as one atomic step at the time [now] of its world; the
      raw-cache writes of race losers, which land after the response, are
      separate steps of the transition system ([late_write]). *)

From Stdlib Require Import String Ascii List ZArith Bool Lia DecimalString.
Import ListNotations.

#[local] Set Warnings "-register-all".

Local Open Scope string_scope.
Local Open Scope list_scope.

Notation "s +++ t" := (String.append s t) (at level 60, right associativity).

(* ===================================================================== *)
(** * JavaScript strings *)
(* ===================================================================== *)

Module Str.

Fixpoint of_codes (l : list nat) : string :=
  match l with
  | [] => EmptyString
  | n :: r => String (ascii_of_nat n) (of_codes r)
  end.

(** The double quote, which a string literal of this file cannot hold. *)
Definition dq : string := of_codes [34].

(** [WhiteSpace] and [LineTerminator] of ECMAScript, in UTF-8: the
    characters that [String.prototype.trim] removes and that [\s]
    matches. *)
Definition WhiteSpace : list string :=
  map of_codes
    [ [9]; [10]; [11]; [12]; [13]; [32];
      [194; 160];                         (* U+00A0 *)
      [225; 154; 128];                    (* U+1680 *)
      [226; 128; 128]; [226; 128; 129]; [226; 128; 130]; [226; 128; 131];
      [226; 128; 132]; [226; 128; 133]; [226; 128; 134]; [226; 128; 135];
      [226; 128; 136]; [226; 128; 137]; [226; 128; 138];  (* U+2000..200A *)
      [226; 128; 168]; [226; 128; 169];   (* U+2028, U+2029 *)
      [226; 128; 175];                    (* U+202F *)
      [226; 129; 159];                    (* U+205F *)
      [227; 128; 128];                    (* U+3000 *)
      [239; 187; 191] ].                  (* U+FEFF *)

(** [s] without its prefix [p], when it starts with [p]. *)
Fixpoint strip_prefix (p s : string) : option string :=
  match p, s with
  | EmptyString, _ => Some s
  | String a p', String b s' =>
      if Ascii.eqb a b then strip_prefix p' s' else None
  | String _ _, EmptyString => None
  end.

(** [s.startsWith(p)]. *)
Definition starts_with (p s : string) : bool :=
  match strip_prefix p s with
  | Some _ => true
  | None => false
  end.

Fixpoint first_prefix (table : list string) (s : string) : nat :=
  match table with
  | [] => 0
  | w :: r => if starts_with w s then String.length w else first_prefix r s
  end.

(** Number of bytes of the white-space character at the head of [s];
    [0] when [s] does not start with one. *)
Definition ws_len (s : string) : nat := first_prefix WhiteSpace s.

(** [skip_ws pending s]: drop [pending] bytes, then every leading
    white-space character. *)
Fixpoint skip_ws (pending : nat) (s : string) : string :=
  match pending with
  | S p =>
      match s with
      | String _ r => skip_ws p r
      | EmptyString => EmptyString
      end
  | O =>
      match ws_len s with
      | O => s
      | S p =>
          match s with
          | String _ r => skip_ws p r
          | EmptyString => EmptyString
          end
      end
  end.

Definition trimStart (s : string) : string := skip_ws 0 s.

(** [s] is a (possibly empty) run of white-space characters. *)
Definition all_ws (s : string) : bool :=
  match trimStart s with
  | EmptyString => true
  | _ => false
  end.

Fixpoint trimEnd (s : string) : string :=
  match s with
  | EmptyString => EmptyString
  | String a r => if all_ws s then EmptyString else String a (trimEnd r)
  end.

(** [String.prototype.trim]. *)
Definition trim (s : string) : string := trimEnd (trimStart s).

Definition is_empty (s : string) : bool :=
  match s with
  | EmptyString => true
  | _ => false
  end.

(** [s.includes(t)]. *)
Fixpoint includes (t s : string) : bool :=
  if starts_with t s then true
  else match s with
       | EmptyString => false
       | String _ r => includes t r
       end.

Fixpoint join (sep : string) (l : list string) : string :=
  match l with
  | [] => EmptyString
  | [x] => x
  | x :: r => x +++ sep +++ join sep r
  end.

End Str.

(* ===================================================================== *)
(** * The regular expressions of [extractJSONFromHTML] *)
(* ===================================================================== *)

Module Regex.

(** The constructs that the three patterns use, all under the [s] flag. *)
Inductive atom : Type :=
| Lit (s : string)     (* literal text *)
| LazyAny              (* .*?  *)
| Spaces               (* \s*  *)
| GroupOpen            (* (    *)
| GroupClose.          (* )    *)

Definition regex : Type := list atom.

(** Backtracking match of [p] at offset [i], where [s] is the rest of the
    subject; [gs] and [ge] are the offsets of group 1 seen so far. *)
Fixpoint run (p : regex) : string -> nat -> nat -> nat -> option (nat * nat) :=
  match p with
  | [] => fun _ _ gs ge => Some (gs, ge)
  | Lit l :: p' =>
      fun s i gs ge =>
        match Str.strip_prefix l s with
        | Some r => run p' r (i + String.length l) gs ge
        | None => None
        end
  | LazyAny :: p' =>
      fix lazy (s : string) (i gs ge : nat) {struct s} : option (nat * nat) :=
        match run p' s i gs ge with
        | Some m => Some m
        | None =>
            match s with
            | String _ r => lazy r (S i) gs ge
            | EmptyString => None
            end
        end
  | Spaces :: p' =>
      (fix greedy (pending : nat) (s : string) (i gs ge : nat) {struct s}
         : option (nat * nat) :=
         match pending with
         | S n =>
             match s with
             | String _ r => greedy n r (S i) gs ge
             | EmptyString => None
             end
         | O =>
             match Str.ws_len s, s with
             | S n, String _ r =>
                 match greedy n r (S i) gs ge with
                 | Some m => Some m
                 | None => run p' s i gs ge
                 end
             | _, _ => run p' s i gs ge
             end
         end) 0
  | GroupOpen :: p' => fun s i _ ge => run p' s i i ge
  | GroupClose :: p' => fun s i gs _ => run p' s i gs i
  end.

(** Leftmost match: the first offset at which [p] matches. *)
Fixpoint search (p : regex) (s : string) (i : nat) : option (nat * nat) :=
  match run p s i 0 0 with
  | Some m => Some m
  | None =>
      match s with
      | String _ r => search p r (S i)
      | EmptyString => None
      end
  end.

(** [html.match(re)], reduced to what the caller reads: [None] when
    there is no match, otherwise the text of group 1 ([m[1]]). *)
Definition match_group1 (p : regex) (html : string) : option string :=
  match search p html 0 with
  | Some (gs, ge) => Some (substring gs (ge - gs) html)
  | None => None
  end.

End Regex.

(* ===================================================================== *)
(** * JavaScript numbers *)
(* ===================================================================== *)

Module Num.

Local Open Scope Z_scope.

(** [Finite m e] is [m * 10^e], with [m] not divisible by ten unless it is
    zero, and then [e = 0]. *)
Inductive number : Type :=
| NaN
| Infinity (negative : bool)
| Finite (m e : Z).

Fixpoint strip10 (fuel : nat) (m e : Z) : Z * Z :=
  match fuel with
  | O => (m, e)
  | S f => if m mod 10 =? 0 then strip10 f (m / 10) (e + 1) else (m, e)
  end.

Definition make (m e : Z) : number :=
  if m =? 0 then Finite 0 0
  else let (m', e') := strip10 (S (Z.to_nat (Z.log2 (Z.abs m)))) m e in
       Finite m' e'.

Definition of_Z (z : Z) : number := make z 0.

(** [a + b] on numbers. *)
Definition add (a b : number) : number :=
  match a, b with
  | NaN, _ | _, NaN => NaN
  | Infinity s, Infinity t => if Bool.eqb s t then Infinity s else NaN
  | Infinity s, Finite _ _ | Finite _ _, Infinity s => Infinity s
  | Finite m1 e1, Finite m2 e2 =>
      let e := Z.min e1 e2 in
      make (m1 * 10 ^ (e1 - e) + m2 * 10 ^ (e2 - e)) e
  end.

(** [a > b] on numbers. *)
Definition gtb (a b : number) : bool :=
  match a, b with
  | NaN, _ | _, NaN => false
  | Infinity false, Infinity false => false
  | Infinity false, _ => true
  | _, Infinity false => false
  | Infinity true, _ => false
  | Finite _ _, Infinity true => true
  | Finite m1 e1, Finite m2 e2 =>
      let e := Z.min e1 e2 in
      m2 * 10 ^ (e2 - e) <? m1 * 10 ^ (e1 - e)
  end.

(** [0] and [NaN] are the falsy numbers. *)
Definition truthy (a : number) : bool :=
  match a with
  | NaN => false
  | Finite 0 _ => false
  | _ => true
  end.

Definition digits (p : positive) : string :=
  NilEmpty.string_of_uint (Pos.to_uint p).

Fixpoint zeros (n : nat) : string :=
  match n with
  | O => EmptyString
  | S k => String "0" (zeros k)
  end.

(** [Number::toString] for a positive [p * 10^e]: [k] digits, decimal
    point after the [n]-th. *)
Definition unsigned_toString (p : positive) (e : Z) : string :=
  let ds := digits p in
  let k := Z.of_nat (String.length ds) in
  let n := k + e in
  if (k <=? n) && (n <=? 21) then ds +++ zeros (Z.to_nat (n - k))
  else if (0 <? n) && (n <=? 21) then
    substring 0 (Z.to_nat n) ds +++ "." +++
    substring (Z.to_nat n) (Z.to_nat (k - n)) ds
  else if (-6 <? n) && (n <=? 0) then "0." +++ zeros (Z.to_nat (- n)) +++ ds
  else
    let mant :=
      if k =? 1 then ds
      else substring 0 1 ds +++ "." +++ substring 1 (String.length ds - 1) ds in
    let ex := n - 1 in
    mant +++ "e" +++ (if ex <? 0 then "-" else "+") +++
    NilZero.string_of_uint (N.to_uint (Z.to_N (Z.abs ex))).

(** [String(x)] for a number. *)
Definition toString (x : number) : string :=
  match x with
  | NaN => "NaN"
  | Infinity false => "Infinity"
  | Infinity true => "-Infinity"
  | Finite 0 _ => "0"
  | Finite (Zpos p) e => unsigned_toString p e
  | Finite (Zneg p) e => "-" +++ unsigned_toString p e
  end.

Definition digit_val (a : ascii) : option Z :=
  let n := nat_of_ascii a in
  if ((48 <=? n) && (n <=? 57))%nat then Some (Z.of_nat (n - 48))
  else if ((97 <=? n) && (n <=? 102))%nat then Some (Z.of_nat (n - 87))
  else if ((65 <=? n) && (n <=? 70))%nat then Some (Z.of_nat (n - 55))
  else None.

(** The longest prefix of decimal digits: its value on top of [acc], its
    length on top of [count], and the rest. *)
Fixpoint take_digits (s : string) (acc : Z) (count : nat) : Z * nat * string :=
  match s with
  | String a r =>
      match digit_val a with
      | Some d => if d <? 10 then take_digits r (acc * 10 + d) (S count)
                  else (acc, count, s)
      | None => (acc, count, s)
      end
  | EmptyString => (acc, count, s)
  end.

Fixpoint radix_digits (radix : Z) (s : string) (acc : Z) : option Z :=
  match s with
  | EmptyString => Some acc
  | String a r =>
      match digit_val a with
      | Some d => if d <? radix then radix_digits radix r (acc * radix + d)
                  else None
      | None => None
      end
  end.

Definition sign_of (s : string) : bool * string :=
  match s with
  | String "-"%char r => (true, r)
  | String "+"%char r => (false, r)
  | _ => (false, s)
  end.

(** An optional [ExponentPart] that ends the literal. *)
Definition exponent (s : string) : option Z :=
  match s with
  | EmptyString => Some 0
  | String c r =>
      if Ascii.eqb c "e"%char || Ascii.eqb c "E"%char then
        let (neg, r') := sign_of r in
        let '(v, n, rest) := take_digits r' 0 0 in
        if (n =? 0)%nat || negb (Str.is_empty rest) then None
        else Some (if neg then - v else v)
      else None
  end.

(** [StrDecimalLiteral]. *)
Definition decimal (s : string) : number :=
  let (neg, t) := sign_of s in
  if String.eqb t "Infinity" then Infinity neg
  else
    let '(ip, ni, t2) := take_digits t 0 0 in
    let '(m, nf, t3) :=
      match t2 with
      | String "."%char r => take_digits r ip 0
      | _ => (ip, O, t2)
      end in
    if (ni + nf =? 0)%nat then NaN
    else match exponent t3 with
         | None => NaN
         | Some ex => make (if neg then - m else m) (ex - Z.of_nat nf)
         end.

(** [NonDecimalIntegerLiteral]: [0x], [0o] and [0b] forms. *)
Definition nondecimal (t : string) : option number :=
  match t with
  | String "0"%char (String c (String a r)) =>
      let radix :=
        if Ascii.eqb c "x"%char || Ascii.eqb c "X"%char then 16
        else if Ascii.eqb c "o"%char || Ascii.eqb c "O"%char then 8
        else if Ascii.eqb c "b"%char || Ascii.eqb c "B"%char then 2
        else 0 in
      match radix_digits radix (String a r) 0 with
      | Some v => Some (of_Z v)
      | None => None
      end
  | _ => None
  end.

(** [Number(s)] for a string ([StringToNumber]). *)
Definition ofString (s : string) : number :=
  let t := Str.trim s in
  if Str.is_empty t then Finite 0 0
  else match nondecimal t with
       | Some n => n
       | None => decimal t
       end.

End Num.

(* ===================================================================== *)
(** * JavaScript values, exceptions and coercions *)
(* ===================================================================== *)

Module Js.

Import Num.

Inductive value : Type :=
| VUndefined
| VNull
| VBool (b : bool)
| VNum (n : number)
| VStr (s : string)
| VArr (elts : list value)
| VObj (props : list (string * value)).

(** A thrown error, by its [name] and [message]. *)
Record exn : Type := { exn_name : string; exn_message : string }.

Definition Error (msg : string) : exn :=
  {| exn_name := "Error"; exn_message := msg |}.
Definition TypeError (msg : string) : exn :=
  {| exn_name := "TypeError"; exn_message := msg |}.
Definition SyntaxError (msg : string) : exn :=
  {| exn_name := "SyntaxError"; exn_message := msg |}.
Definition AbortError : exn :=
  {| exn_name := "AbortError"; exn_message := "This operation was aborted" |}.
Definition AggregateError : exn :=
  {| exn_name := "AggregateError";
     exn_message := "All promises were rejected" |}.

(** [String(e)] for an error. *)
Definition exn_toString (e : exn) : string :=
  if Str.is_empty (exn_message e) then exn_name e
  else if Str.is_empty (exn_name e) then exn_message e
  else exn_name e +++ ": " +++ exn_message e.

(** What an expression evaluates to: a value, or a thrown error. *)
Inductive result (A : Type) : Type :=
| Ok (a : A)
| Throw (e : exn).
Arguments Ok {A} a.
Arguments Throw {A} e.

Definition nullish (v : value) : bool :=
  match v with
  | VUndefined | VNull => true
  | _ => false
  end.

(** [a ?? b]. *)
Definition coalesce (a b : value) : value := if nullish a then b else a.

Definition truthy (v : value) : bool :=
  match v with
  | VUndefined | VNull => false
  | VBool b => b
  | VNum n => Num.truthy n
  | VStr s => negb (Str.is_empty s)
  | VArr _ | VObj _ => true
  end.

(** [a || b]. *)
Definition or (a b : value) : value := if truthy a then a else b.

Fixpoint lookup (k : string) (ps : list (string * value)) : value :=
  match ps with
  | [] => VUndefined
  | (k', v) :: r => if String.eqb k k' then v else lookup k r
  end.

(** [v.k], for the property names that the server reads: none of them is
    a built-in property of a string, a number, a boolean or an array. *)
Definition get (v : value) (k : string) : result value :=
  match v with
  | VUndefined =>
      Throw (TypeError "Cannot read properties of undefined")
  | VNull => Throw (TypeError "Cannot read properties of null")
  | VObj ps => Ok (lookup k ps)
  | _ => Ok VUndefined
  end.

(** [v?.k]. *)
Definition getq (v : value) (k : string) : value :=
  match v with
  | VObj ps => lookup k ps
  | _ => VUndefined
  end.

(** [v?.[0]]. *)
Definition first (v : value) : value :=
  match v with
  | VArr (x :: _) => x
  | VStr (String a _) => VStr (String a EmptyString)
  | VObj ps => lookup "0" ps
  | _ => VUndefined
  end.

Definition isArray (v : value) : bool :=
  match v with
  | VArr _ => true
  | _ => false
  end.

(** The receiver of an array method: calling [.map] or [.filter] on
    anything else that JSON can hold is a [TypeError]. *)
Definition array_of (v : value) : result (list value) :=
  match v with
  | VArr l => Ok l
  | VUndefined => Throw (TypeError "Cannot read properties of undefined")
  | VNull => Throw (TypeError "Cannot read properties of null")
  | _ => Throw (TypeError "is not a function")
  end.

(** [String(v)]. *)
Fixpoint toString (v : value) : string :=
  match v with
  | VUndefined => "undefined"
  | VNull => "null"
  | VBool true => "true"
  | VBool false => "false"
  | VNum n => Num.toString n
  | VStr s => s
  | VArr l =>
      Str.join ","
        (map (fun x => match x with
                       | VUndefined | VNull => EmptyString
                       | _ => toString x
                       end) l)
  | VObj _ => "[object Object]"
  end.

(** [Number(v)]. *)
Definition toNumber (v : value) : number :=
  match v with
  | VUndefined => NaN
  | VNull => Finite 0 0
  | VBool true => of_Z 1
  | VBool false => Finite 0 0
  | VNum n => n
  | VStr s => Num.ofString s
  | VArr _ => Num.ofString (toString v)
  | VObj _ => NaN
  end.

(** [v === s] for a string literal [s]. *)
Definition is_str (v : value) (s : string) : bool :=
  match v with
  | VStr t => String.eqb t s
  | _ => false
  end.

(** [l.map(f)] for an [f] that may throw. *)
Fixpoint map_result {A B : Type} (f : A -> result B) (l : list A)
  : result (list B) :=
  match l with
  | [] => Ok []
  | x :: r =>
      match f x with
      | Throw e => Throw e
      | Ok y =>
          match map_result f r with
          | Throw e => Throw e
          | Ok ys => Ok (y :: ys)
          end
      end
  end.

Definition num (z : Z) : value := VNum (of_Z z).

End Js.

(* ===================================================================== *)
(** * The response cache *)
(* ===================================================================== *)

Module Lru.

Import Js.
Local Open Scope Z_scope.

(** What the server stores: [{ status, body }] under an inbound request
    key, [{ value }] (or [{ json }] in the earlier revisions) under an
    outbound URL key. *)
Inductive cached : Type :=
| Rendered (status : Z) (body : string)
| Raw (v : value).

Record slot : Type :=
  { skey : string; sval : cached; sstart : Z; sttl : Z }.

(** Modelled from the spec: the [LRUCache] class of the lru-cache package
    is a dependency and not under src/.  Section 4.3: [get] and [set],
    capacity-bounded with least-recently-used eviction, every entry
    expiring [ttl] milliseconds after insertion regardless of access.
    Slots are listed most recently used first; [max = 0] means no
    capacity bound and [ttl = 0] no expiry, as in the package. *)
Definition lru : Type := list slot.

(** An entry has expired once more than [ttl] has elapsed. *)
Definition stale (now : Z) (s : slot) : bool :=
  negb (sttl s =? 0) && (sttl s <? now - sstart s).

Fixpoint find (k : string) (c : lru) : option slot :=
  match c with
  | [] => None
  | s :: r => if String.eqb k (skey s) then Some s else find k r
  end.

Definition remove (k : string) (c : lru) : lru :=
  filter (fun s => negb (String.eqb k (skey s))) c.

(** [cache.has(k)]: present and not expired; the cache is unchanged. *)
Definition has (now : Z) (k : string) (c : lru) : bool :=
  match find k c with
  | Some s => negb (stale now s)
  | None => false
  end.

(** [cache.get(k)]: a miss leaves the cache as it is, an expired entry is
    deleted, a live one becomes the most recently used. *)
Definition get (now : Z) (k : string) (c : lru) : option cached * lru :=
  match find k c with
  | None => (None, c)
  | Some s =>
      if stale now s then (None, remove k c)
      else (Some (sval s), s :: remove k c)
  end.

(** [cache.set(k, v, { ttl })]: the entry becomes the most recently used
    and its age restarts; a new key evicts the least recently used entry
    of a full cache. *)
Definition set (max : nat) (now : Z) (k : string) (v : cached) (ttl : Z)
    (c : lru) : lru :=
  let s := {| skey := k; sval := v; sstart := now; sttl := ttl |} in
  match find k c with
  | Some _ => s :: remove k c
  | None =>
      if negb (Nat.eqb max 0) && Nat.leb max (List.length c)
      then s :: removelast c
      else s :: c
  end.

End Lru.

(* ===================================================================== *)
(** * The platform: built-ins, Express, the network, the handler monad *)
(* ===================================================================== *)

Module Rt.

Import Js Lru.
Local Open Scope Z_scope.

(** Built-ins of the JavaScript runtime that the model does not define. *)
Class Builtins : Type :=
  { JSON_stringify : value -> string;
    JSON_parse : string -> result value;
    encodeURIComponent : string -> string }.

Inductive endpoint : Type := Suggest | Channels | Search.

(** Express: the route that serves an inbound URL ([None]: none of the
    three handlers) and [req.query[name]] for that URL. *)
Class Express : Type :=
  { route : string -> option endpoint;
    req_query : string -> string -> value }.

(** The module-level constants, as evaluated at start-up. *)
Class Config : Type :=
  { INVIDIOUS_BASE : string;
    PIPED_BASE : string;
    INVIDIOUS_POOL : list string;
    PIPED_POOL : list string;
    SUGGEST_HL : string;
    SUGGEST_GL : string;
    UPSTREAM_TIMEOUT_MS : Z;
    CACHE_TTL_S : Z;
    CACHE_MAX : nat }.

(** What [fetch(url)] meets: a network failure, or a response with its
    [ok] flag, its [`${status} ${statusText}`] line and its body. *)
Inductive reply : Type :=
| NetError (e : exn)
| Response (ok : bool) (status_line : string) (text : string).

(** The world of one request: the clock, and for every URL the time its
    fetch takes and what it meets. *)
Record world : Type :=
  { now : Z; latency : string -> Z; net : string -> reply }.

(** What the caller of an endpoint receives.  [NoResponse]: the handler
    read [hit.status] and [hit.body] from an entry that has neither. *)
Inductive response : Type :=
| Sent (status : Z) (body : string)
| NoResponse.

(** The mutable state of the process: the cache, and the URLs for which an
    outbound fetch was issued, in order. *)
Record state : Type := { cache : lru; fetched : list string }.

Definition M (A : Type) : Type := state -> result A * state.

Definition ret {A : Type} (a : A) : M A := fun s => (Ok a, s).
Definition throw {A : Type} (e : exn) : M A := fun s => (Throw e, s).
Definition lift {A : Type} (r : result A) : M A := fun s => (r, s).

Definition bind {A B : Type} (m : M A) (k : A -> M B) : M B :=
  fun s =>
    match m s with
    | (Ok a, s') => k a s'
    | (Throw e, s') => (Throw e, s')
    end.

(** [try { m } catch (e) { h e }]. *)
Definition try_catch {A : Type} (m : M A) (h : exn -> M A) : M A :=
  fun s =>
    match m s with
    | (Ok a, s') => (Ok a, s')
    | (Throw e, s') => h e s'
    end.

Definition rbind {A B : Type} (r : result A) (k : A -> result B) : result B :=
  match r with
  | Ok a => k a
  | Throw e => Throw e
  end.

Declare Scope js_scope.
Delimit Scope js_scope with js.
Notation "x <- m ;; k" := (bind m (fun x => k))
  (at level 61, m at next level, right associativity) : js_scope.
Notation "m ;; k" := (bind m (fun _ => k))
  (at level 61, right associativity) : js_scope.
Notation "x <-- r ;; k" := (rbind r (fun x => k))
  (at level 61, r at next level, right associativity) : js_scope.
Notation "a ?? b" := (coalesce a b) (at level 55, right associativity) : js_scope.
Local Open Scope js_scope.

Section Platform.

Context {B : Builtins} {C : Config}.

Definition cache_get (w : world) (k : string) : M (option cached) :=
  fun s =>
    let (hit, c) := Lru.get (now w) k (cache s) in
    (Ok hit, {| cache := c; fetched := fetched s |}).

Definition cache_has (w : world) (k : string) : M bool :=
  fun s => (Ok (Lru.has (now w) k (cache s)), s).

(** [cache.set(k, v)], and [cache.set(k, v, { ttl: CACHE_TTL_S * 1000 })],
    which names the default again. *)
Definition cache_set (w : world) (k : string) (v : cached) : M unit :=
  fun s =>
    (Ok tt,
     {| cache := Lru.set CACHE_MAX (now w) k v (CACHE_TTL_S * 1000) (cache s);
        fetched := fetched s |}).

(** [if (!r.ok) throw new Error(...); return await r.text();] on what the
    fetch met. *)
Definition respond (r : reply) : result string :=
  match r with
  | NetError e => Throw e
  | Response false line _ => Throw (Error line)
  | Response true _ text => Ok text
  end.

(** The fetch of [url], aborted once [timeoutMs] have passed. *)
Definition fetch_outcome (w : world) (url : string) (timeoutMs : Z)
  : result string :=
  if timeoutMs <=? latency w url then Throw AbortError
  else respond (net w url).

(** A fetch of [url] goes out. *)
Definition issue (url : string) : M unit :=
  fun s => (Ok tt, {| cache := cache s; fetched := fetched s ++ [url] |}).

(** [sendJson(res, key, payload, status)]. *)
Definition sendJson (w : world) (key : string) (payload : value) (status : Z)
  : M response :=
  let body := JSON_stringify payload in
  cache_set w key (Rendered status body) ;;
  ret (Sent status body).

(** [res.status(hit.status).type("application/json").send(hit.body)]. *)
Definition replay (hit : cached) : M response :=
  match hit with
  | Rendered status body => ret (Sent status body)
  | Raw _ => ret NoResponse
  end.

(** A handler as a step of the process: an error that escapes it is an
    unhandled rejection, and nothing is sent. *)
Definition run (m : M response) (s : state) : response * state :=
  match m s with
  | (Ok r, s') => (r, s')
  | (Throw _, s') => (NoResponse, s')
  end.

(** [String(req.query.q || empty).trim()]. *)
Definition query_q {E : Express} (originalUrl : string) : string :=
  Str.trim (toString (or (req_query originalUrl "q") (VStr EmptyString))).

(** [Number(req.query.page || 1)]. *)
Definition query_page {E : Express} (originalUrl : string) : Num.number :=
  toNumber (or (req_query originalUrl "page") (num 1)).

Definition obj_items (items : list value) (nextPage : value) : value :=
  VObj [("items", VArr items); ("nextPage", nextPage)].

Definition obj_items_error (items : list value) (nextPage : value)
    (error : string) : value :=
  VObj [("items", VArr items); ("nextPage", nextPage); ("error", VStr error)].

Definition obj_suggestions (l : list value) : value :=
  VObj [("suggestions", VArr l)].

Definition obj_suggestions_error (l : list value) (error : string) : value :=
  VObj [("suggestions", VArr l); ("error", VStr error)].

(** [{ kind, data }]. *)
Definition item (kind : string) (data : value) : value :=
  VObj [("kind", VStr kind); ("data", data)].

(** [v.a ?? v.b ?? ... ?? dflt]: the first alias that is neither [null]
    nor [undefined]. *)
Fixpoint alias (v : value) (names : list string) (dflt : value)
  : result value :=
  match names with
  | [] => Ok dflt
  | k :: r =>
      x <-- Js.get v k ;;
      if nullish x then alias v r dflt else Ok x
  end.

(** [list.map((t) => t.url).slice(0, 3)]. *)
Definition thumbnail_urls (thumbs : value) : result value :=
  l <-- array_of thumbs ;;
  urls <-- map_result (fun t => Js.get t "url") l ;;
  Ok (VArr (firstn 3 urls)).

Definition normalizeVideo (v : value) : result value :=
  id <-- alias v ["videoId"; "id"] VNull ;;
  title <-- alias v ["title"] (VStr EmptyString) ;;
  channelName <-- alias v ["author"; "uploader"; "channelName"] VNull ;;
  channelId <-- alias v ["authorId"; "uploaderId"; "channelId"] VNull ;;
  durationSeconds <-- alias v ["lengthSeconds"; "duration"] VNull ;;
  views <-- alias v ["viewCount"; "views"] (num 0) ;;
  publishedText <-- alias v ["publishedText"; "uploadedDate"] VNull ;;
  thumbs <-- alias v ["videoThumbnails"; "thumbnails"] (VArr []) ;;
  thumbnails <-- thumbnail_urls thumbs ;;
  Ok (VObj [("id", id);
            ("title", title);
            ("channelName", channelName);
            ("channelId", channelId);
            ("durationSeconds", durationSeconds);
            ("viewCount", VNum (toNumber views));
            ("publishedText", publishedText);
            ("thumbnails", thumbnails)]).

Definition normalizeChannel (c : value) : result value :=
  id <-- alias c ["authorId"; "id"; "ucid"] VNull ;;
  title <-- alias c ["author"; "name"; "title"] (VStr EmptyString) ;;
  thumbs <-- alias c ["authorThumbnails"; "thumbnails"] (VArr []) ;;
  Ok (VObj [("id", id);
            ("title", title);
            ("avatar", getq (first thumbs) "url" ?? VNull)]).

End Platform.

End Rt.

(* ===================================================================== *)
(** * The current revision: [src/server.js], second program *)
(* ===================================================================== *)

Module Server.

Import Js Lru Rt.
Local Open Scope Z_scope.
Local Open Scope js_scope.

Section Handlers.

Context {B : Builtins} {C : Config} {E : Express}.

(** [fetchText(url, timeoutMs, headers)]; the request headers do not reach
    the model of the network. *)
Definition fetchText (w : world) (url : string) (timeoutMs : Z) : M string :=
  issue url ;; lift (fetch_outcome w url timeoutMs).

(** [txt.replace(/^\uFEFF/, empty)]. *)
Definition strip_bom (txt : string) : string :=
  match Str.strip_prefix (Str.of_codes [239; 187; 191]%nat) txt with
  | Some r => r
  | None => txt
  end.

(** [try { return JSON.parse(txt); } catch { return JSON.parse(...); }]. *)
Definition parse_json (txt : string) : result value :=
  match JSON_parse txt with
  | Ok v => Ok v
  | Throw _ => JSON_parse (strip_bom txt)
  end.

(** What [fetchJson(url, timeoutMs)] settles with. *)
Definition fetchJson_outcome (w : world) (url : string) (timeoutMs : Z)
  : result value :=
  txt <-- fetch_outcome w url timeoutMs ;; parse_json txt.

Definition fetchJson (w : world) (url : string) (timeoutMs : Z) : M value :=
  txt <- fetchText w url timeoutMs ;; lift (parse_json txt).

(** A call of [getCached(key, () => fetchJson(url, timeoutMs))] that has run
    up to its first [await]: settled from the cache, or waiting for a fetch
    that takes [lat] and ends as [outcome]. *)
Inductive pending : Type :=
| Settled (v : value)
| InFlight (key : string) (lat : Z) (outcome : result value).

(** [hit.value]. *)
Definition hit_value (hit : cached) : value :=
  match hit with
  | Raw v => v
  | Rendered _ _ => VUndefined
  end.

Definition getCached_start (w : world) (key url : string) (timeoutMs : Z)
  : M pending :=
  hit <- cache_get w key ;;
  match hit with
  | Some h => ret (Settled (hit_value h))
  | None =>
      issue url ;;
      ret (InFlight key (latency w url) (fetchJson_outcome w url timeoutMs))
  end.

(** The rest of [getCached] once its fetch has ended. *)
Definition settle (w : world) (p : pending) : M value :=
  match p with
  | Settled v => ret v
  | InFlight key _ (Ok v) => cache_set w key (Raw v) ;; ret v
  | InFlight _ _ (Throw e) => throw e
  end.

(** [await getCached(key, () => fetchJson(url, timeoutMs))]. *)
Definition getCached (w : world) (key url : string) (timeoutMs : Z) : M value :=
  p <- getCached_start w key url timeoutMs ;; settle w p.

(** [urls.map(u => getCached("UPSTREAM:"+u, () => fetchJson(u)))]: every
    candidate is started, in order, before any of them is awaited. *)
Fixpoint candidates (w : world) (urls : list string) : M (list pending) :=
  match urls with
  | [] => ret []
  | u :: r =>
      p <- getCached_start w ("UPSTREAM:" +++ u) u UPSTREAM_TIMEOUT_MS ;;
      ps <- candidates w r ;;
      ret (p :: ps)
  end.

Definition is_settled (p : pending) : bool :=
  match p with
  | Settled _ => true
  | InFlight _ _ _ => false
  end.

(** The successful fetch that ends first; the earlier candidate on a tie. *)
Fixpoint fastest (ps : list pending) (best : option (Z * pending))
  : option pending :=
  match ps with
  | [] => option_map snd best
  | InFlight key lat (Ok v) :: r =>
      match best with
      | Some (b, _) =>
          if lat <? b then fastest r (Some (lat, InFlight key lat (Ok v)))
          else fastest r best
      | None => fastest r (Some (lat, InFlight key lat (Ok v)))
      end
  | _ :: r => fastest r best
  end.

(** The candidate that [Promise.any] settles with: one that was answered
    from the cache needs no network and comes first. *)
Definition winner (ps : list pending) : option pending :=
  match List.find is_settled ps with
  | Some p => Some p
  | None => fastest ps None
  end.

(** [firstResolved(promises)]: first success wins, rejections are ignored;
    the losers are not awaited. *)
Definition firstResolved (w : world) (ps : list pending) : M value :=
  match winner ps with
  | Some p => settle w p
  | None => throw AggregateError
  end.

Definition race (w : world) (urls : list string) : M value :=
  ps <- candidates w urls ;; firstResolved w ps.

(** ** The HTML scraper *)

Definition patterns : list Regex.regex :=
  [ [Regex.Lit "var ytInitialData = "; Regex.GroupOpen; Regex.LazyAny;
     Regex.GroupClose; Regex.Lit ";</script>"];
    [Regex.Lit (Str.dq +++ "ytInitialData" +++ Str.dq +++ ":");
     Regex.GroupOpen; Regex.Lit "{"; Regex.LazyAny; Regex.Lit "}";
     Regex.GroupClose; Regex.Spaces; Regex.Lit ","; Regex.Spaces;
     Regex.Lit (Str.dq +++ "ytcfg" +++ Str.dq)];
    [Regex.Lit ("window[" +++ Str.dq +++ "ytInitialData" +++ Str.dq +++ "]");
     Regex.Spaces; Regex.Lit "="; Regex.Spaces; Regex.GroupOpen;
     Regex.LazyAny; Regex.GroupClose; Regex.Lit ";</script>"] ].

(** The loop of [extractJSONFromHTML] over the patterns that are left. *)
Fixpoint extract_with (res : list Regex.regex) (html : string) : value :=
  match res with
  | [] => VNull
  | re :: rest =>
      match Regex.match_group1 re html with
      | Some m1 =>
          if Str.is_empty m1 then extract_with rest html
          else match JSON_parse m1 with
               | Ok data => data
               | Throw _ => extract_with rest html
               end
      | None => extract_with rest html
      end
  end.

Definition extractJSONFromHTML (html : string) : value :=
  extract_with patterns html.

(** [collectRenderers(root, key)]: every truthy [n[key]], parents before
    children, in enumeration order. *)
Fixpoint collectRenderers (key : string) (n : value) : list value :=
  match n with
  | VArr l => flat_map (collectRenderers key) l
  | VObj ps =>
      (if truthy (lookup key ps) then [lookup key ps] else []) ++
      flat_map (fun p => collectRenderers key (snd p)) ps
  | _ => []
  end.

(** [x?.runs?.[0]]. *)
Definition run0 (x : value) : value := first (getq x "runs").

(** [(v.thumbnail?.thumbnails || [])]. *)
Definition renderer_thumbnails (v : value) : value :=
  or (getq (getq v "thumbnail") "thumbnails") (VArr []).

Definition browseId (run : value) : value :=
  getq (getq (getq run "navigationEndpoint") "browseEndpoint") "browseId".

Definition video_of_renderer (v : value) : result value :=
  thumbnails <-- thumbnail_urls (renderer_thumbnails v) ;;
  Ok (item "video"
        (VObj [("id", getq v "videoId");
               ("title", or (getq (run0 (getq v "title")) "text") (VStr EmptyString));
               ("channelName",
                 or (getq (run0 (getq v "ownerText")) "text")
                    (or (getq (run0 (getq v "longBylineText")) "text") VNull));
               ("channelId",
                 or (browseId (run0 (getq v "ownerText")))
                    (or (browseId (run0 (getq v "longBylineText"))) VNull));
               ("durationSeconds", VNull);
               ("viewCount", VNull);
               ("publishedText",
                 or (getq (getq v "publishedTimeText") "simpleText") VNull);
               ("thumbnails", thumbnails)])).

Definition scrapeVideosFromInitialData (data : value) : result (list value) :=
  map_result video_of_renderer (collectRenderers "videoRenderer" data).

Definition channel_of_renderer (c : value) : result value :=
  Ok (item "channel"
        (VObj [("id",
                 or (getq c "channelId")
                    (or (getq (getq (getq c "navigationEndpoint")
                                 "browseEndpoint") "browseId") VNull));
               ("title",
                 or (getq (getq c "title") "simpleText")
                    (or (getq (run0 (getq c "title")) "text") (VStr EmptyString)));
               ("avatar",
                 or (getq (first (renderer_thumbnails c)) "url") VNull)])).

Definition scrapeChannelsFromInitialData (data : value) : result (list value) :=
  map_result channel_of_renderer (collectRenderers "channelRenderer" data).

Definition yt_url (q : string) : string :=
  "https://www.youtube.com/results?search_query=" +++ encodeURIComponent q +++
  "&hl=" +++ SUGGEST_HL +++ "&gl=" +++ SUGGEST_GL.

Definition ytHtmlFallbackSearch (w : world) (q : string) : M value :=
  html <- fetchText w (yt_url q) 4500 ;;
  let data := extractJSONFromHTML html in
  if negb (truthy data)
  then ret (obj_items_error [] (num 2) "yt_html_parse_failed")
  else
    videos <- lift (scrapeVideosFromInitialData data) ;;
    channels <- lift (scrapeChannelsFromInitialData data) ;;
    ret (obj_items (videos ++ channels) (num 2)).

(** ** Candidate URLs *)

Definition suggest_invUrls (q : string) : list string :=
  map (fun base => base +++ "/api/v1/search/suggestions?q=" +++
                   encodeURIComponent q) INVIDIOUS_POOL.

Definition suggest_pipUrls (q : string) : list string :=
  map (fun base => base +++ "/suggestions?query=" +++ encodeURIComponent q)
      PIPED_POOL ++
  map (fun base => base +++ "/api/v1/suggestions?q=" +++ encodeURIComponent q)
      PIPED_POOL.

Definition suggest_gUrl (q : string) : string :=
  "https://suggestqueries.google.com/complete/search?client=firefox&ds=yt&hl="
  +++ encodeURIComponent SUGGEST_HL +++ "&gl=" +++
  encodeURIComponent SUGGEST_GL +++ "&q=" +++ encodeURIComponent q.

Definition channels_invUrls (q : string) (page : Num.number) : list string :=
  map (fun base => base +++ "/api/v1/search?q=" +++
                   encodeURIComponent ("type:channel " +++ q) +++
                   "&page=" +++ Num.toString page) INVIDIOUS_POOL.

Definition channels_pipUrls (q : string) (page : Num.number) : list string :=
  map (fun base => base +++ "/search?query=" +++ encodeURIComponent q +++
                   "&filter=channels&page=" +++ Num.toString page)
      PIPED_POOL ++
  map (fun base => base +++ "/api/v1/search?q=" +++ encodeURIComponent q +++
                   "&filter=channels&page=" +++ Num.toString page)
      PIPED_POOL.

Definition search_invUrls (q : string) (page : Num.number) : list string :=
  map (fun base => base +++ "/api/v1/search?q=" +++ encodeURIComponent q +++
                   "&page=" +++ Num.toString page) INVIDIOUS_POOL.

Definition search_pipUrls (q : string) (page : Num.number) : list string :=
  map (fun base => base +++ "/search?query=" +++ encodeURIComponent q +++
                   "&page=" +++ Num.toString page) PIPED_POOL ++
  map (fun base => base +++ "/api/v1/search?q=" +++ encodeURIComponent q +++
                   "&page=" +++ Num.toString page) PIPED_POOL.

(** ** [/suggest] *)

(** [Array.isArray(raw) ? raw : (raw?.suggestions ?? [])]. *)
Definition suggestions_of (raw : value) : value :=
  if isArray raw then raw else getq raw "suggestions" ?? VArr [].

(** [Array.isArray(raw) && Array.isArray(raw[1]) ? raw[1] : []]. *)
Definition google_suggestions (raw : value) : value :=
  match raw with
  | VArr (_ :: VArr l :: _) => VArr l
  | _ => VArr []
  end.

(** [list.map(String).slice(0, 10)]. *)
Definition first_ten_strings (lst : value) : result (list value) :=
  l <-- array_of lst ;;
  Ok (firstn 10 (map (fun x => VStr (toString x)) l)).

Definition upstream_unavailable : string := "upstream_unavailable".

Definition suggest (w : world) (originalUrl : string) : M response :=
  let q := query_q originalUrl in
  let key := originalUrl in
  hit <- cache_get w key ;;
  match hit with
  | Some h => replay h
  | None =>
      if Str.is_empty q then sendJson w key (obj_suggestions []) 200
      else
        try_catch
          (lst <-
             try_catch
               (raw <- race w (suggest_invUrls q) ;;
                ret (suggestions_of raw))
               (fun _ =>
                  try_catch
                    (raw <- race w (suggest_pipUrls q) ;;
                     ret (suggestions_of raw))
                    (fun _ =>
                       let gUrl := suggest_gUrl q in
                       raw <- getCached w ("UPSTREAM:" +++ gUrl) gUrl 2500 ;;
                       ret (google_suggestions raw))) ;;
           suggestions <- lift (first_ten_strings lst) ;;
           sendJson w key (obj_suggestions suggestions) 200)
          (fun _ =>
             sendJson w key (obj_suggestions_error [] upstream_unavailable) 200)
  end.

(** ** [/channels] *)

(** [Array.isArray(raw) ? raw : (raw?.items ?? [])]. *)
Definition items_of (raw : value) : value :=
  if isArray raw then raw else getq raw "items" ?? VArr [].

(** [t.includes("channel")] for a [t] that is not [null] or [undefined]:
    a substring test on a string, membership on an array, and a
    [TypeError] on anything else. *)
Definition includes_channel (t : value) : result bool :=
  match t with
  | VStr s => Ok (Str.includes "channel" s)
  | VArr l => Ok (existsb (fun e => is_str e "channel") l)
  | _ => Throw (TypeError "includes is not a function")
  end.

(** [(x.type ?? "").includes("channel") || x.authorId || x.channelId]. *)
Definition invidious_is_channel (x : value) : result bool :=
  type <-- Js.get x "type" ;;
  inc <-- includes_channel (type ?? VStr EmptyString) ;;
  authorId <-- Js.get x "authorId" ;;
  channelId <-- Js.get x "channelId" ;;
  Ok (inc || truthy authorId || truthy channelId).

(** [x.type === "channel" || x.authorId || x.channelId]. *)
Definition piped_is_channel (x : value) : result bool :=
  type <-- Js.get x "type" ;;
  authorId <-- Js.get x "authorId" ;;
  channelId <-- Js.get x "channelId" ;;
  Ok (is_str type "channel" || truthy authorId || truthy channelId).

(** [l.filter(keep)] for a [keep] that may throw. *)
Fixpoint filter_result (keep : value -> result bool) (l : list value)
  : result (list value) :=
  match l with
  | [] => Ok []
  | x :: r =>
      k <-- keep x ;;
      ys <-- filter_result keep r ;;
      Ok (if k then x :: ys else ys)
  end.

(** [list.filter(keep).map((x) => ({ kind: "channel",
    data: normalizeChannel(x) }))]. *)
Definition channel_items (keep : value -> result bool) (raw : value)
  : result (list value) :=
  l <-- array_of (items_of raw) ;;
  kept <-- filter_result keep l ;;
  map_result (fun x => d <-- normalizeChannel x ;; Ok (item "channel" d)) kept.

(** [fb.items.filter(it => it.kind === "channel")]. *)
Definition fallback_channels (fb : value) : result (list value) :=
  items <-- Js.get fb "items" ;;
  l <-- array_of items ;;
  filter_result (fun it => k <-- Js.get it "kind" ;; Ok (is_str k "channel")) l.

Definition next (page : Num.number) : value := VNum (Num.add page (Num.of_Z 1)).

Definition channels (w : world) (originalUrl : string) : M response :=
  let q := query_q originalUrl in
  let page := query_page originalUrl in
  let key := originalUrl in
  hit <- cache_get w key ;;
  match hit with
  | Some h => replay h
  | None =>
      if Str.is_empty q then sendJson w key (obj_items [] VNull) 200
      else
        try_catch
          (try_catch
             (raw <- race w (channels_invUrls q page) ;;
              items <- lift (channel_items invidious_is_channel raw) ;;
              sendJson w key (obj_items items (next page)) 200)
             (fun _ =>
                try_catch
                  (raw <- race w (channels_pipUrls q page) ;;
                   items <- lift (channel_items piped_is_channel raw) ;;
                   sendJson w key (obj_items items (next page)) 200)
                  (fun _ =>
                     fb <- ytHtmlFallbackSearch w q ;;
                     items <- lift (fallback_channels fb) ;;
                     sendJson w key
                       (obj_items_error items (next page) upstream_unavailable)
                       200)))
          (fun _ =>
             sendJson w key
               (obj_items_error [] (next page) upstream_unavailable) 200)
  end.

(** ** [/search] *)

(** The mapping of the Invidious tier; [null] for an entry of no known
    kind. *)
Definition invidious_item (it : value) : result value :=
  type <-- Js.get it "type" ;;
  videoId <-- Js.get it "videoId" ;;
  if is_str type "video" || truthy videoId then
    d <-- normalizeVideo it ;; Ok (item "video" d)
  else
    authorId <-- Js.get it "authorId" ;;
    channelId <-- Js.get it "channelId" ;;
    if is_str type "channel" || truthy authorId || truthy channelId then
      d <-- normalizeChannel it ;; Ok (item "channel" d)
    else
      playlistId <-- Js.get it "playlistId" ;;
      if is_str type "playlist" || truthy playlistId then
        title <-- alias it ["title"] (VStr EmptyString) ;;
        Ok (item "playlist" (VObj [("id", playlistId); ("title", title)]))
      else Ok VNull.

(** The mapping of the Piped tier. *)
Definition piped_item (it : value) : result value :=
  type <-- Js.get it "type" ;;
  if is_str type "video" then d <-- normalizeVideo it ;; Ok (item "video" d)
  else if is_str type "channel" then
    d <-- normalizeChannel it ;; Ok (item "channel" d)
  else if is_str type "playlist" then
    playlistId <-- Js.get it "playlistId" ;;
    id <-- Js.get it "id" ;;
    title <-- alias it ["title"] (VStr EmptyString) ;;
    Ok (item "playlist" (VObj [("id", playlistId ?? id); ("title", title)]))
  else Ok VNull.

(** [list.map(classify).filter(Boolean)]. *)
Definition search_items (classify : value -> result value) (raw : value)
  : result (list value) :=
  l <-- array_of (items_of raw) ;;
  mapped <-- map_result classify l ;;
  Ok (filter truthy mapped).

Definition search (w : world) (originalUrl : string) : M response :=
  let q := query_q originalUrl in
  let page := query_page originalUrl in
  let key := originalUrl in
  hit <- cache_get w key ;;
  match hit with
  | Some h => replay h
  | None =>
      if Str.is_empty q then sendJson w key (obj_items [] VNull) 200
      else
        try_catch
          (try_catch
             (raw <- race w (search_invUrls q page) ;;
              items <- lift (search_items invidious_item raw) ;;
              sendJson w key (obj_items items (next page)) 200)
             (fun _ =>
                try_catch
                  (raw <- race w (search_pipUrls q page) ;;
                   items <- lift (search_items piped_item raw) ;;
                   sendJson w key (obj_items items (next page)) 200)
                  (fun _ =>
                     if Num.gtb page (Num.of_Z 1) then
                       sendJson w key
                         (obj_items_error [] (next page) upstream_unavailable)
                         200
                     else
                       fb <- ytHtmlFallbackSearch w q ;;
                       sendJson w key fb 200)))
          (fun _ =>
             sendJson w key
               (obj_items_error [] (next page) upstream_unavailable) 200)
  end.

(** ** The process *)

Definition handler (ep : endpoint) : world -> string -> M response :=
  match ep with
  | Suggest => suggest
  | Channels => channels
  | Search => search
  end.

(** One inbound request, from the cache [c]: the response, the cache
    afterwards, and the URLs that were fetched. *)
Definition serve (ep : endpoint) (w : world) (originalUrl : string) (c : lru)
  : response * state :=
  run (handler ep w originalUrl) {| cache := c; fetched := [] |}.

(** The caches that the process can be in: it starts empty; a routed
    request runs its handler; a race loser that ends well after a response
    stores its payload ([late_write]). *)
Inductive reachable : lru -> Prop :=
| start : reachable []
| request (c : lru) (w : world) (originalUrl : string) (ep : endpoint) :
    reachable c ->
    route originalUrl = Some ep ->
    reachable (cache (snd (serve ep w originalUrl c)))
| late_write (c : lru) (t : Z) (u : string) (v : value) :
    reachable c ->
    reachable (Lru.set CACHE_MAX t ("UPSTREAM:" +++ u) (Raw v)
                       (CACHE_TTL_S * 1000) c).

End Handlers.

End Server.

(* ===================================================================== *)
(** * An earlier revision: [src/unnamed/part_000] *)
(* ===================================================================== *)

Module Part000.

Import Js Lru Rt.
Local Open Scope Z_scope.
Local Open Scope js_scope.

Section Handlers.

Context {B : Builtins} {C : Config} {E : Express}.

(** [fetchJson(url, timeoutMs, headers)]: the fetch, then [r.json()]. *)
Definition fetchJson (w : world) (url : string) (timeoutMs : Z) : M value :=
  issue url ;;
  lift (txt <-- fetch_outcome w url timeoutMs ;; JSON_parse txt).

(** [hit.json]. *)
Definition hit_json (hit : option cached) : result value :=
  match hit with
  | Some (Raw v) => Ok v
  | Some (Rendered _ _) => Ok VUndefined
  | None => Throw (TypeError "Cannot read properties of undefined")
  end.

Definition getCachedJson (w : world) (url : string) (timeoutMs : Z) : M value :=
  let key := "UPSTREAM:" +++ url in
  present <- cache_has w key ;;
  if present then hit <- cache_get w key ;; lift (hit_json hit)
  else
    json <- fetchJson w url timeoutMs ;;
    cache_set w key (Raw json) ;;
    ret json.

(** The loop of [firstOk] over the URLs that are left. *)
Fixpoint firstOk_from (w : world) (urls : list string) (timeoutMs : Z)
    (lastErr : option exn) : M value :=
  match urls with
  | [] =>
      match lastErr with
      | Some e => throw e
      | None => throw (Error "no upstream")
      end
  | u :: r =>
      try_catch (getCachedJson w u timeoutMs)
                (fun e => firstOk_from w r timeoutMs (Some e))
  end.

Definition firstOk (w : world) (urls : list string) (timeoutMs : Z) : M value :=
  firstOk_from w urls timeoutMs None.

Definition invUrls (q : string) : list string :=
  map (fun base => base +++ "/api/v1/search/suggestions?q=" +++
                   encodeURIComponent q) INVIDIOUS_POOL.

Definition pipUrls (q : string) : list string :=
  map (fun base => base +++ "/suggestions?query=" +++ encodeURIComponent q)
      PIPED_POOL.

Definition gUrl (q : string) : string :=
  "https://suggestqueries.google.com/complete/search?client=firefox&ds=yt&hl="
  +++ encodeURIComponent SUGGEST_HL +++ "&gl=" +++
  encodeURIComponent SUGGEST_GL +++ "&q=" +++ encodeURIComponent q.

(** [Array.isArray(list) && list.length]. *)
Definition nonempty_array (lst : value) : bool :=
  match lst with
  | VArr (_ :: _) => true
  | _ => false
  end.

(** One [try { ... } catch (_) {}] block of the handler: [Some r] when the
    block returned the response [r], [None] when control goes on to the
    statement after it. *)
Definition attempt (m : M (option response)) : M (option response) :=
  try_catch m (fun _ => ret None).

(** A tier that returns only when its list is not empty. *)
Definition pool_tier (w : world) (key : string) (urls : list string)
  : M (option response) :=
  attempt
    (raw <- firstOk w urls UPSTREAM_TIMEOUT_MS ;;
     let lst := Server.suggestions_of raw in
     if nonempty_array lst then
       suggestions <- lift (Server.first_ten_strings lst) ;;
       r <- sendJson w key (obj_suggestions suggestions) 200 ;;
       ret (Some r)
     else ret None).

Definition google_tier (w : world) (key q : string) : M (option response) :=
  attempt
    (raw <- getCachedJson w (gUrl q) 2500 ;;
     suggestions <- lift (Server.first_ten_strings
                            (Server.google_suggestions raw)) ;;
     r <- sendJson w key (obj_suggestions suggestions) 200 ;;
     ret (Some r)).

(** [a] unless it fell through, then [b]. *)
Definition or_else (a : M (option response)) (b : M response) : M response :=
  r <- a ;;
  match r with
  | Some x => ret x
  | None => b
  end.

(** The statements of the outer [try] block from the Google tier on, from
    the Piped tier on, and all of them. *)
Definition from_google (w : world) (key q : string) : M response :=
  or_else (google_tier w key q)
    (sendJson w key (obj_suggestions_error [] "upstream_unavailable") 200).

Definition from_piped (w : world) (key q : string) : M response :=
  or_else (pool_tier w key (pipUrls q)) (from_google w key q).

Definition from_invidious (w : world) (key q : string) : M response :=
  or_else (pool_tier w key (invUrls q)) (from_piped w key q).

(** [catch (e) { ... }] of the outer block. *)
Definition unexpected (w : world) (key : string) (e : exn) : M response :=
  sendJson w key (obj_suggestions_error [] "unexpected") 200.

Definition suggest (w : world) (originalUrl : string) : M response :=
  let q := query_q originalUrl in
  let key := originalUrl in
  hit <- cache_get w key ;;
  match hit with
  | Some h => replay h
  | None =>
      if Str.is_empty q then sendJson w key (obj_suggestions []) 200
      else try_catch (from_invidious w key q) (unexpected w key)
  end.

Definition serve_suggest (w : world) (originalUrl : string) (c : lru)
  : response * state :=
  run (suggest w originalUrl) {| cache := c; fetched := [] |}.

(** ** [/channels] and [/search] *)

(** [(x.type ?? "").includes("channel") || x.authorId]. *)
Definition invidious_is_channel (x : value) : result bool :=
  type <-- Js.get x "type" ;;
  inc <-- Server.includes_channel (type ?? VStr EmptyString) ;;
  authorId <-- Js.get x "authorId" ;;
  Ok (inc || truthy authorId).

(** [list.filter(keep).map((x) => ({ kind: "channel",
    data: normalizeChannel(x) }))] on what the receiver [lst] holds. *)
Definition channels_in (keep : value -> result bool) (lst : value)
  : result (list value) :=
  l <-- array_of lst ;;
  kept <-- Server.filter_result keep l ;;
  map_result (fun x => d <-- normalizeChannel x ;; Ok (item "channel" d)) kept.

(** The mapping of the Invidious tier of [/search]; the title of a
    playlist has no default here. *)
Definition invidious_item (it : value) : result value :=
  type <-- Js.get it "type" ;;
  videoId <-- Js.get it "videoId" ;;
  if is_str type "video" || truthy videoId then
    d <-- normalizeVideo it ;; Ok (item "video" d)
  else
    authorId <-- Js.get it "authorId" ;;
    if is_str type "channel" || truthy authorId then
      d <-- normalizeChannel it ;; Ok (item "channel" d)
    else
      playlistId <-- Js.get it "playlistId" ;;
      if is_str type "playlist" || truthy playlistId then
        title <-- Js.get it "title" ;;
        Ok (item "playlist" (VObj [("id", playlistId); ("title", title)]))
      else Ok VNull.

(** The mapping of the Piped tier of [/search]. *)
Definition piped_item (it : value) : result value :=
  type <-- Js.get it "type" ;;
  if is_str type "video" then d <-- normalizeVideo it ;; Ok (item "video" d)
  else if is_str type "channel" then
    d <-- normalizeChannel it ;; Ok (item "channel" d)
  else if is_str type "playlist" then
    playlistId <-- Js.get it "playlistId" ;;
    id <-- Js.get it "id" ;;
    title <-- Js.get it "title" ;;
    Ok (item "playlist" (VObj [("id", playlistId ?? id); ("title", title)]))
  else Ok VNull.

(** [lst.map(classify).filter(Boolean)]. *)
Definition items_in (classify : value -> result value) (lst : value)
  : result (list value) :=
  l <-- array_of lst ;;
  mapped <-- map_result classify l ;;
  Ok (filter truthy mapped).

Definition channels_pipUrls (q : string) (page : Num.number) : list string :=
  map (fun base => base +++ "/search?query=" +++ encodeURIComponent q +++
                   "&filter=channels&page=" +++ Num.toString page)
      PIPED_POOL.

Definition search_pipUrls (q : string) (page : Num.number) : list string :=
  map (fun base => base +++ "/search?query=" +++ encodeURIComponent q +++
                   "&page=" +++ Num.toString page) PIPED_POOL.

Definition channels (w : world) (originalUrl : string) : M response :=
  let q := query_q originalUrl in
  let page := query_page originalUrl in
  let key := originalUrl in
  hit <- cache_get w key ;;
  match hit with
  | Some h => replay h
  | None =>
      if Str.is_empty q then sendJson w key (obj_items [] VNull) 200
      else
        try_catch
          (try_catch
             (raw <- firstOk w (Server.channels_invUrls q page)
                       UPSTREAM_TIMEOUT_MS ;;
              items <- lift (channels_in invidious_is_channel
                               (raw ?? VArr [])) ;;
              sendJson w key (obj_items items (Server.next page)) 200)
             (fun _ =>
                raw <- firstOk w (channels_pipUrls q page)
                         UPSTREAM_TIMEOUT_MS ;;
                items <- lift (channels_in Server.piped_is_channel
                                 (Server.items_of raw)) ;;
                sendJson w key (obj_items items (Server.next page)) 200))
          (fun _ =>
             sendJson w key
               (obj_items_error [] (Server.next page) "upstream_unavailable")
               200)
  end.

Definition search (w : world) (originalUrl : string) : M response :=
  let q := query_q originalUrl in
  let page := query_page originalUrl in
  let key := originalUrl in
  hit <- cache_get w key ;;
  match hit with
  | Some h => replay h
  | None =>
      if Str.is_empty q then sendJson w key (obj_items [] VNull) 200
      else
        try_catch
          (try_catch
             (raw <- firstOk w (Server.search_invUrls q page)
                       UPSTREAM_TIMEOUT_MS ;;
              items <- lift (items_in invidious_item (raw ?? VArr [])) ;;
              sendJson w key (obj_items items (Server.next page)) 200)
             (fun _ =>
                raw <- firstOk w (search_pipUrls q page) UPSTREAM_TIMEOUT_MS ;;
                items <- lift (items_in piped_item (Server.items_of raw)) ;;
                sendJson w key (obj_items items (Server.next page)) 200))
          (fun _ =>
             sendJson w key
               (obj_items_error [] (Server.next page) "upstream_unavailable")
               200)
  end.

(** ** The process *)

Definition handler (ep : endpoint) : world -> string -> M response :=
  match ep with
  | Suggest => suggest
  | Channels => channels
  | Search => search
  end.

Definition serve (ep : endpoint) (w : world) (originalUrl : string) (c : lru)
  : response * state :=
  run (handler ep w originalUrl) {| cache := c; fetched := [] |}.

(** The caches that the process can be in: it starts empty, and a routed
    request runs its handler. *)
Inductive reachable : lru -> Prop :=
| start : reachable []
| request (c : lru) (w : world) (originalUrl : string) (ep : endpoint) :
    reachable c ->
    route originalUrl = Some ep ->
    reachable (cache (snd (serve ep w originalUrl c))).

End Handlers.

End Part000.

(* ===================================================================== *)
(** * The first revision: [src/unnamed/part_001] *)
(* ===================================================================== *)

Module Part001.

Import Js Lru Rt.
Local Open Scope Z_scope.
Local Open Scope js_scope.

Section Handlers.

Context {B : Builtins} {C : Config} {E : Express}.

(** [getCachedJson(url, upstreamKey)]; the fetch has no timeout here. *)
Definition getCachedJson (w : world) (url upstreamKey : string) : M value :=
  present <- cache_has w upstreamKey ;;
  if present then hit <- cache_get w upstreamKey ;; lift (Part000.hit_json hit)
  else
    issue url ;;
    json <- lift (txt <-- respond (net w url) ;; JSON_parse txt) ;;
    cache_set w upstreamKey (Raw json) ;;
    ret json.

Definition invUrl (q : string) : string :=
  INVIDIOUS_BASE +++ "/api/v1/search/suggestions?q=" +++ encodeURIComponent q.

Definition pipUrl (q : string) : string :=
  PIPED_BASE +++ "/suggestions?query=" +++ encodeURIComponent q.

(** [list.map(String)]. *)
Definition strings (lst : value) : result (list value) :=
  l <-- array_of lst ;;
  Ok (map (fun x => VStr (toString x)) l).

(** [Array.isArray(raw) ? raw : raw.suggestions ?? []]. *)
Definition suggestions_of (raw : value) : result value :=
  if isArray raw then Ok raw
  else s <-- Js.get raw "suggestions" ;; Ok (s ?? VArr []).

Definition suggest (w : world) (originalUrl : string) : M response :=
  try_catch
    (let q := query_q originalUrl in
     let cacheKey := originalUrl in
     hit <- cache_get w cacheKey ;;
     match hit with
     | Some h => replay h
     | None =>
         if Str.is_empty q then sendJson w cacheKey (obj_suggestions []) 200
         else
           try_catch
             (let u := invUrl q in
              raw <- getCachedJson w u ("UPSTREAM:" +++ u) ;;
              lst <- lift (suggestions_of raw) ;;
              suggestions <- lift (strings lst) ;;
              sendJson w cacheKey (obj_suggestions suggestions) 200)
             (fun _ =>
                let u := pipUrl q in
                raw <- getCachedJson w u ("UPSTREAM:" +++ u) ;;
                suggestions <- lift (strings (raw ?? VArr [])) ;;
                sendJson w cacheKey (obj_suggestions suggestions) 200)
     end)
    (fun e =>
       sendJson w originalUrl
         (obj_suggestions_error [] (exn_toString e)) 502).

Definition serve_suggest (w : world) (originalUrl : string) (c : lru)
  : response * state :=
  run (suggest w originalUrl) {| cache := c; fetched := [] |}.

(** ** [/channels] and [/search] *)

(** [Array.isArray(raw) ? raw : raw.items ?? []]. *)
Definition items_of (raw : value) : result value :=
  if isArray raw then Ok raw
  else i <-- Js.get raw "items" ;; Ok (i ?? VArr []).

Definition channels_invUrl (q : string) (page : Num.number) : string :=
  INVIDIOUS_BASE +++ "/api/v1/search?q=" +++
  encodeURIComponent ("type:channel " +++ q) +++
  "&page=" +++ Num.toString page.

Definition channels_pipUrl (q : string) (page : Num.number) : string :=
  PIPED_BASE +++ "/search?query=" +++ encodeURIComponent q +++
  "&filter=channels&page=" +++ Num.toString page.

Definition search_invUrl (q : string) (page : Num.number) : string :=
  INVIDIOUS_BASE +++ "/api/v1/search?q=" +++ encodeURIComponent q +++
  "&page=" +++ Num.toString page.

Definition search_pipUrl (q : string) (page : Num.number) : string :=
  PIPED_BASE +++ "/search?query=" +++ encodeURIComponent q +++
  "&page=" +++ Num.toString page.

(** [catch (e) { ... }] of [/channels] and of [/search]. *)
Definition bad_gateway (w : world) (originalUrl : string) (e : exn)
  : M response :=
  sendJson w originalUrl (obj_items_error [] VNull (exn_toString e)) 502.

(** The filters and the mappings are those of [part_000], word for
    word. *)
Definition channels (w : world) (originalUrl : string) : M response :=
  try_catch
    (let q := query_q originalUrl in
     let page := query_page originalUrl in
     let cacheKey := originalUrl in
     hit <- cache_get w cacheKey ;;
     match hit with
     | Some h => replay h
     | None =>
         if Str.is_empty q then sendJson w cacheKey (obj_items [] VNull) 200
         else
           try_catch
             (let u := channels_invUrl q page in
              raw <- getCachedJson w u ("UPSTREAM:" +++ u) ;;
              items <- lift (Part000.channels_in Part000.invidious_is_channel
                               (raw ?? VArr [])) ;;
              sendJson w cacheKey (obj_items items (Server.next page)) 200)
             (fun _ =>
                let u := channels_pipUrl q page in
                raw <- getCachedJson w u ("UPSTREAM:" +++ u) ;;
                lst <- lift (items_of raw) ;;
                items <- lift (Part000.channels_in Server.piped_is_channel
                                 lst) ;;
                sendJson w cacheKey (obj_items items (Server.next page)) 200)
     end)
    (bad_gateway w originalUrl).

Definition search (w : world) (originalUrl : string) : M response :=
  try_catch
    (let q := query_q originalUrl in
     let page := query_page originalUrl in
     let cacheKey := originalUrl in
     hit <- cache_get w cacheKey ;;
     match hit with
     | Some h => replay h
     | None =>
         if Str.is_empty q then sendJson w cacheKey (obj_items [] VNull) 200
         else
           try_catch
             (let u := search_invUrl q page in
              raw <- getCachedJson w u ("UPSTREAM:" +++ u) ;;
              items <- lift (Part000.items_in Part000.invidious_item
                               (raw ?? VArr [])) ;;
              sendJson w cacheKey (obj_items items (Server.next page)) 200)
             (fun _ =>
                let u := search_pipUrl q page in
                raw <- getCachedJson w u ("UPSTREAM:" +++ u) ;;
                arr <- lift (items_of raw) ;;
                items <- lift (Part000.items_in Part000.piped_item arr) ;;
                sendJson w cacheKey (obj_items items (Server.next page)) 200)
     end)
    (bad_gateway w originalUrl).

(** ** The process *)

Definition handler (ep : endpoint) : world -> string -> M response :=
  match ep with
  | Suggest => suggest
  | Channels => channels
  | Search => search
  end.

Definition serve (ep : endpoint) (w : world) (originalUrl : string) (c : lru)
  : response * state :=
  run (handler ep w originalUrl) {| cache := c; fetched := [] |}.

Inductive reachable : lru -> Prop :=
| start : reachable []
| request (c : lru) (w : world) (originalUrl : string) (ep : endpoint) :
    reachable c ->
    route originalUrl = Some ep ->
    reachable (cache (snd (serve ep w originalUrl c))).

End Handlers.

End Part001.

(* ===================================================================== *)
(** * The intermediate revision: [src/server.js], first program *)
(* ===================================================================== *)

Module Server0.

Import Js Lru Rt.
Local Open Scope Z_scope.
Local Open Scope js_scope.

Section Handlers.

Context {B : Builtins} {C : Config} {E : Express}.

(** [const INVIDIOUS_POOL = [INV]; const PIPED_POOL = [PIP];]. *)
Definition INVIDIOUS_POOL : list string := [INVIDIOUS_BASE].
Definition PIPED_POOL : list string := [PIPED_BASE].

(** [getCachedJson(url, upstreamKey, timeoutMs = 3500)]. *)
Definition getCachedJson (w : world) (url upstreamKey : string) (timeoutMs : Z)
  : M value :=
  present <- cache_has w upstreamKey ;;
  if present then hit <- cache_get w upstreamKey ;; lift (Part000.hit_json hit)
  else
    issue url ;;
    json <- lift (txt <-- fetch_outcome w url timeoutMs ;; JSON_parse txt) ;;
    cache_set w upstreamKey (Raw json) ;;
    ret json.

(** The loop of [firstOk] over the URLs that are left; it calls
    [getCachedJson] with the default timeout. *)
Fixpoint firstOk_from (w : world) (urls : list string) (lastErr : option exn)
  : M value :=
  match urls with
  | [] =>
      match lastErr with
      | Some e => throw e
      | None => throw (Error "no upstream")
      end
  | u :: r =>
      try_catch (getCachedJson w u ("UPSTREAM:" +++ u) 3500)
                (fun e => firstOk_from w r (Some e))
  end.

Definition firstOk (w : world) (urls : list string) : M value :=
  firstOk_from w urls None.

Definition suggest_invUrls (q : string) : list string :=
  map (fun base => base +++ "/api/v1/search/suggestions?q=" +++
                   encodeURIComponent q) INVIDIOUS_POOL.

Definition suggest_pipUrls (q : string) : list string :=
  map (fun base => base +++ "/suggestions?query=" +++ encodeURIComponent q)
      PIPED_POOL.

Definition channels_invUrls (q : string) (page : Num.number) : list string :=
  map (fun base => base +++ "/api/v1/search?q=" +++
                   encodeURIComponent ("type:channel " +++ q) +++
                   "&page=" +++ Num.toString page) INVIDIOUS_POOL.

Definition channels_pipUrls (q : string) (page : Num.number) : list string :=
  map (fun base => base +++ "/search?query=" +++ encodeURIComponent q +++
                   "&filter=channels&page=" +++ Num.toString page)
      PIPED_POOL.

Definition search_invUrls (q : string) (page : Num.number) : list string :=
  map (fun base => base +++ "/api/v1/search?q=" +++ encodeURIComponent q +++
                   "&page=" +++ Num.toString page) INVIDIOUS_POOL.

Definition search_pipUrls (q : string) (page : Num.number) : list string :=
  map (fun base => base +++ "/search?query=" +++ encodeURIComponent q +++
                   "&page=" +++ Num.toString page) PIPED_POOL.

(** [catch (e) { ... }] of the outer block of a handler. *)
Definition soft_fail (w : world) (key : string) (payload : value) (e : exn)
  : M response :=
  sendJson w key payload 200.

(** [Array.isArray(raw) ? raw : raw.suggestions ?? []] is the expression
    of [part_001], in both branches. *)
Definition suggest (w : world) (originalUrl : string) : M response :=
  let q := query_q originalUrl in
  let key := originalUrl in
  hit <- cache_get w key ;;
  match hit with
  | Some h => replay h
  | None =>
      if Str.is_empty q then sendJson w key (obj_suggestions []) 200
      else
        try_catch
          (lst <-
             try_catch
               (raw <- firstOk w (suggest_invUrls q) ;;
                lift (Part001.suggestions_of raw))
               (fun _ =>
                  raw <- firstOk w (suggest_pipUrls q) ;;
                  lift (Part001.suggestions_of raw)) ;;
           suggestions <- lift (Server.first_ten_strings lst) ;;
           sendJson w key (obj_suggestions suggestions) 200)
          (soft_fail w key
             (obj_suggestions_error [] "upstream_unavailable"))
  end.

(** The filters and the mappings are those of [part_000], word for word;
    the Piped list is read as in [part_001]. *)
Definition channels (w : world) (originalUrl : string) : M response :=
  let q := query_q originalUrl in
  let page := query_page originalUrl in
  let key := originalUrl in
  hit <- cache_get w key ;;
  match hit with
  | Some h => replay h
  | None =>
      if Str.is_empty q then sendJson w key (obj_items [] VNull) 200
      else
        try_catch
          (items <-
             try_catch
               (raw <- firstOk w (channels_invUrls q page) ;;
                lift (Part000.channels_in Part000.invidious_is_channel
                        (raw ?? VArr [])))
               (fun _ =>
                  raw <- firstOk w (channels_pipUrls q page) ;;
                  lst <- lift (Part001.items_of raw) ;;
                  lift (Part000.channels_in Server.piped_is_channel lst)) ;;
           sendJson w key (obj_items items (Server.next page)) 200)
          (soft_fail w key
             (obj_items_error [] (Server.next page) "upstream_unavailable"))
  end.

Definition search (w : world) (originalUrl : string) : M response :=
  let q := query_q originalUrl in
  let page := query_page originalUrl in
  let key := originalUrl in
  hit <- cache_get w key ;;
  match hit with
  | Some h => replay h
  | None =>
      if Str.is_empty q then sendJson w key (obj_items [] VNull) 200
      else
        try_catch
          (items <-
             try_catch
               (raw <- firstOk w (search_invUrls q page) ;;
                lift (Part000.items_in Part000.invidious_item
                        (raw ?? VArr [])))
               (fun _ =>
                  raw <- firstOk w (search_pipUrls q page) ;;
                  arr <- lift (Part001.items_of raw) ;;
                  lift (Part000.items_in Part000.piped_item arr)) ;;
           sendJson w key (obj_items items (Server.next page)) 200)
          (soft_fail w key
             (obj_items_error [] (Server.next page) "upstream_unavailable"))
  end.

(** ** The process *)

Definition handler (ep : endpoint) : world -> string -> M response :=
  match ep with
  | Suggest => suggest
  | Channels => channels
  | Search => search
  end.

Definition serve (ep : endpoint) (w : world) (originalUrl : string) (c : lru)
  : response * state :=
  run (handler ep w originalUrl) {| cache := c; fetched := [] |}.

Inductive reachable : lru -> Prop :=
| start : reachable []
| request (c : lru) (w : world) (originalUrl : string) (ep : endpoint) :
    reachable c ->
    route originalUrl = Some ep ->
    reachable (cache (snd (serve ep w originalUrl c))).

End Handlers.

End Server0.

(* ===================================================================== *)
(** * Start-up: the mirror pools *)
(* ===================================================================== *)

Module Startup.

Import Js.

(** [s.split(",")]. *)
Fixpoint split_comma (s : string) : list string :=
  match s with
  | EmptyString => [EmptyString]
  | String c r =>
      if Ascii.eqb c ","%char then EmptyString :: split_comma r
      else match split_comma r with
           | h :: t => String c h :: t
           | [] => [String c EmptyString]
           end
  end.

(** [process.env[envVar]?.split(",").map(s => s.trim()).filter(Boolean)]:
    [undefined] when the variable is not set. *)
Definition parts (setting : option string) : value :=
  match setting with
  | None => VUndefined
  | Some s =>
      VArr (filter truthy (map (fun p => VStr (Str.trim p)) (split_comma s)))
  end.

(** [parsePool(envVar, fallback)], with [process.env] as [env]. *)
Definition parsePool (env : string -> option string) (envVar : string)
    (fallback : list string) : value :=
  or (parts (env envVar)) (VArr (map VStr fallback)).

End Startup.

(* ===================================================================== *)
(** * Vocabulary of the properties *)
(* ===================================================================== *)

Module Props.

Import Js Lru Rt.
Local Open Scope Z_scope.

Section Vocabulary.

Context {B : Builtins} {C : Config} {E : Express}.

(** A key of the raw-payload namespace. *)
Definition upstream_key (k : string) : bool := Str.starts_with "UPSTREAM:" k.

(** An inbound URL in origin form (a path, then a query): what
    [req.originalUrl] holds for a request that Express routes. *)
Definition origin_form (url : string) : bool := Str.starts_with "/" url.

Definition is_string (v : value) : Prop := exists s, v = VStr s.

(** The result of an endpoint for a query that is missing or empty. *)
Definition empty_payload (ep : endpoint) : value :=
  match ep with
  | Suggest => obj_suggestions []
  | Channels | Search => obj_items [] VNull
  end.

(** A [/suggest] payload: at most ten strings, alone or, when the list is
    empty, with the soft-failure marker. *)
Definition suggest_payload (p : value) : Prop :=
  exists l,
    (List.length l <= 10)%nat /\ Forall is_string l /\
    (p = obj_suggestions l \/
     (l = [] /\ p = obj_suggestions_error [] Server.upstream_unavailable)).

Definition payload_ok (ep : endpoint) (url : string) (p : value) : Prop :=
  (query_q url = EmptyString -> p = empty_payload ep) /\
  (ep = Suggest -> suggest_payload p).

(** What a cache entry of the current revision looks like: a raw payload
    sits under an outbound key; a rendered response has status 200 and is
    the serialisation of a payload that suits the route and the query of
    its key. *)
Definition slot_ok (s : slot) : Prop :=
  match sval s with
  | Raw _ => upstream_key (skey s) = true
  | Rendered status body =>
      status = 200 /\
      exists ep payload,
        route (skey s) = Some ep /\
        body = JSON_stringify payload /\
        payload_ok ep (skey s) payload
  end.

Definition cache_ok (c : lru) : Prop := Forall slot_ok c.

(** No upstream answers: every fetch meets a network error or a response
    that is not [ok]. *)
Definition upstream_down (w : world) : Prop :=
  forall u, exists e, respond (net w u) = Throw e.

(** Nothing is cached from upstream. *)
Definition no_raw (c : lru) : Prop :=
  forall k, upstream_key k = true -> Lru.find k c = None.

(** [k] is cached and has not expired at [now]. *)
Definition live (now : Z) (k : string) (v : cached) (c : lru) : Prop :=
  exists s, Lru.find k c = Some s /\ sval s = v /\ stale now s = false.






(** ** Specifications of computations in the handler monad *)

(** [m] keeps the cache well-formed, and what it returns satisfies [Q]. *)
Definition keeps_with {A : Type} (Q : A -> Prop) (m : M A) : Prop :=
  forall s,
    cache_ok (cache s) ->
    cache_ok (cache (snd (m s))) /\
    forall a, fst (m s) = Ok a -> Q a.

Definition keeps {A : Type} (m : M A) : Prop := keeps_with (fun _ => True) m.

(** The response [r] went out through [sendJson] under [key], with a
    payload that satisfies [P], and [c'] is the cache right after. *)
Definition sent_by (w : world) (key : string) (P : value -> Prop)
    (r : response) (c' : lru) : Prop :=
  exists payload c1,
    P payload /\ cache_ok c1 /\
    r = Sent 200 (JSON_stringify payload) /\
    c' = Lru.set CACHE_MAX (now w) key
                 (Rendered 200 (JSON_stringify payload))
                 (CACHE_TTL_S * 1000) c1.

(** [m] ends by sending such a response, or throws and leaves the cache
    well-formed. *)
Definition sends (w : world) (key : string) (P : value -> Prop)
    (m : M response) : Prop :=
  forall s,
    cache_ok (cache s) ->
    match m s with
    | (Ok r, s') => sent_by w key P r (cache s')
    | (Throw _, s') => cache_ok (cache s')
    end.

(** [m] never throws. *)
Definition total {A : Type} (m : M A) : Prop :=
  forall s, exists a, fst (m s) = Ok a.

(** A race candidate writes under an outbound key. *)
Definition pending_ok (p : Server.pending) : Prop :=
  match p with
  | Server.Settled _ => True
  | Server.InFlight key _ _ => upstream_key key = true
  end.

(** [x.a ?? x.b ?? ... ?? dflt] on an [x] that is not [null]. *)
Fixpoint first_present (x : value) (names : list string) (dflt : value)
  : value :=
  match names with
  | [] => dflt
  | k :: r => if nullish (getq x k) then first_present x r dflt else getq x k
  end.

(** The pattern [re] locates no parseable blob in [html]: it does not
    match, or group 1 is empty, or [JSON.parse] rejects group 1. *)
Definition no_blob (re : Regex.regex) (html : string) : Prop :=
  match Regex.match_group1 re html with
  | None => True
  | Some m1 => Str.is_empty m1 = true \/ exists e, JSON_parse m1 = Throw e
  end.

(** A tier of [part_000] that did not return: its candidates all failed,
    or the list it got is empty. *)
Definition fell_through (out : result value) : Prop :=
  match out with
  | Throw _ => True
  | Ok raw => Part000.nonempty_array (Server.suggestions_of raw) = false
  end.



(** [s] is made of white-space characters only. *)
Definition only_whitespace (s : string) : Prop :=
  exists cs,
    Forall (fun c => In c Str.WhiteSpace) cs /\
    s = fold_right String.append EmptyString cs.


(** A race candidate whose fetch failed. *)
Definition failed (p : Server.pending) : Prop :=
  exists key lat e, p = Server.InFlight key lat (Throw e).

End Vocabulary.

End Props.

(* ===================================================================== *)
(** * A finite platform, to run the model on concrete requests *)
(* ===================================================================== *)

Module Demo.

Import Js Lru Rt.
Local Open Scope Z_scope.

Fixpoint show (v : value) : string :=
  match v with
  | VUndefined => "undefined"
  | VNull => "null"
  | VBool true => "true"
  | VBool false => "false"
  | VNum n => match n with
              | Num.Finite _ _ => Num.toString n
              | _ => "null"
              end
  | VStr s => "'" +++ s +++ "'"
  | VArr l => "[" +++ Str.join "," (map show l) +++ "]"
  | VObj ps =>
      "{" +++ Str.join "," (map (fun p => fst p +++ ":" +++ show (snd p)) ps)
      +++ "}"
  end.

Fixpoint assoc {A : Type} (k : string) (l : list (string * A)) : option A :=
  match l with
  | [] => None
  | (k', a) :: r => if String.eqb k k' then Some a else assoc k r
  end.

Definition strs (l : list string) : list value := map VStr l.

Definition fifteen : list value :=
  strs ["a1"; "a2"; "a3"; "a4"; "a5"; "a6"; "a7"; "a8"; "a9"; "a10";
        "a11"; "a12"; "a13"; "a14"; "a15"].

(** The documents that the stand-in for [JSON.parse] knows. *)
Definition documents : list (string * value) :=
  [ ("[]", VArr []);
    ("fifteen", VArr fifteen);
    ("videos", VArr [VObj [("type", VStr "video"); ("videoId", VStr "v1");
                           ("title", VStr "t1")]]);
    ("{}", VObj []) ].

Definition builtins : Builtins :=
  {| JSON_stringify := show;
     JSON_parse := fun s =>
       match assoc s documents with
       | Some v => Ok v
       | None => Throw (SyntaxError "Unexpected token")
       end;
     encodeURIComponent := fun s => s |}.

Fixpoint after (t s : string) : option string :=
  match Str.strip_prefix t s with
  | Some r => Some r
  | None =>
      match s with
      | EmptyString => None
      | String _ r => after t r
      end
  end.

Fixpoint until_amp (s : string) : string :=
  match s with
  | EmptyString => EmptyString
  | String c r => if Ascii.eqb c "&"%char then EmptyString
                  else String c (until_amp r)
  end.

Definition param (url name : string) : value :=
  match after ("?" +++ name +++ "=") url with
  | Some r => VStr (until_amp r)
  | None =>
      match after ("&" +++ name +++ "=") url with
      | Some r => VStr (until_amp r)
      | None => VUndefined
      end
  end.

Definition express : Express :=
  {| route := fun url =>
       if Str.starts_with "/suggest" url then Some Suggest
       else if Str.starts_with "/channels" url then Some Channels
       else if Str.starts_with "/search" url then Some Search
       else None;
     req_query := param |}.

(** One mirror per family, and the defaults of the other constants. *)
Definition config : Config :=
  {| INVIDIOUS_BASE := "https://yewtu.be";
     PIPED_BASE := "https://pipedapi.kavin.rocks";
     INVIDIOUS_POOL := ["https://yewtu.be"];
     PIPED_POOL := ["https://pipedapi.kavin.rocks"];
     SUGGEST_HL := "en";
     SUGGEST_GL := "US";
     UPSTREAM_TIMEOUT_MS := 3500;
     CACHE_TTL_S := 600;
     CACHE_MAX := 2000 |}.

(** A world at time 1000 in which every fetch takes 100 ms; the listed
    URLs answer 200 with the given body, every other fetch fails. *)
Definition world_of (bodies : list (string * string)) : world :=
  {| now := 1000;
     latency := fun _ => 100;
     net := fun url =>
       match assoc url bodies with
       | Some text => Response true "200 OK" text
       | None => NetError (TypeError "fetch failed")
       end |}.

Definition offline : world := world_of [].

(** Invidious answers with an empty list; Piped would have a video. *)
Definition empty_invidious : world :=
  world_of [("https://yewtu.be/api/v1/search?q=cats&page=1", "[]");
            ("https://pipedapi.kavin.rocks/search?query=cats&page=1",
             "videos")].

(** Invidious has no suggestion; Piped has fifteen. *)
Definition empty_suggest : world :=
  world_of [("https://yewtu.be/api/v1/search/suggestions?q=cats", "[]");
            ("https://pipedapi.kavin.rocks/suggestions?query=cats",
             "fifteen")].


(** The results page comes back without the embedded data. *)
Definition bare_page : world :=
  world_of [("https://www.youtube.com/results?search_query=cats&hl=en&gl=US",
             "<html><body>consent</body></html>")].

(** A cache that holds a rendered response for [/search?q=cats]. *)
Definition warm : lru :=
  [ {| skey := "/search?q=cats"; sval := Rendered 200 "{items:[]}";
       sstart := 900; sttl := 600000 |} ].

Definition a_video : value :=
  VObj [("type", VStr "video"); ("videoId", VStr "v1"); ("title", VStr "t1")].



(** The three programs on this platform. *)
Definition serve : endpoint -> world -> string -> lru -> response * state :=
  Server.serve (B := builtins) (C := config) (E := express).

Definition part000 : world -> string -> lru -> response * state :=
  Part000.serve_suggest (B := builtins) (C := config) (E := express).

Definition part001 : world -> string -> lru -> response * state :=
  Part001.serve_suggest (B := builtins) (C := config) (E := express).

End Demo.

(* ===================================================================== *)
(** * Vocabulary of the further properties *)
(* ===================================================================== *)

Module Shape.

Import Js Lru Rt.
Local Open Scope Z_scope.

Section Invariants.

Context {B : Builtins} {C : Config} {E : Express}.

(** What a revision promises of every rendered response: of its key, its
    status and its body. *)
Variable rendered_ok : string -> Z -> string -> Prop.

Definition slot_good (s : slot) : Prop :=
  match sval s with
  | Raw _ => Props.upstream_key (skey s) = true
  | Rendered status body => rendered_ok (skey s) status body
  end.

Definition cache_good (c : lru) : Prop := Forall slot_good c.

(** [m] keeps the cache in shape, and what it returns satisfies [Q]. *)
Definition maintains {A : Type} (Q : A -> Prop) (m : M A) : Prop :=
  forall s,
    cache_good (cache s) ->
    cache_good (cache (snd (m s))) /\
    forall a, fst (m s) = Ok a -> Q a.

(** A response to the request [key] that keeps the promise. *)
Definition answer_ok (key : string) (r : response) : Prop :=
  exists status body, r = Sent status body /\ rendered_ok key status body.

(** [m] keeps the cache in shape and, when it returns, answers the
    request [key] well, provided that [key] is an inbound URL. *)
Definition attempts (key : string) (m : M response) : Prop :=
  maintains (fun r => Props.origin_form key = true -> answer_ok key r) m.

End Invariants.

Section Promises.

Context {B : Builtins} {C : Config} {E : Express}.

(** The promise of [part_000] and of the first program of [server.js]:
    never anything but 200. *)
Definition always_200 (key : string) (status : Z) (body : string) : Prop :=
  status = 200.

(** What the outer [catch] of a [part_001] handler sends. *)
Definition failure_payload (p : value) : Prop :=
  exists msg,
    p = obj_suggestions_error [] msg \/ p = obj_items_error [] VNull msg.

(** The promise of [part_001]: 200, or 502 with a failure payload. *)
Definition ok_or_502 (key : string) (status : Z) (body : string) : Prop :=
  status = 200 \/
  (status = 502 /\ exists p, failure_payload p /\ body = JSON_stringify p).




(** The response [r] went out through [sendJson] under [key], and [c'] is
    the cache right after. *)
Definition stored_by (w : world) (key : string) (r : response) (c' : lru)
  : Prop :=
  exists status body c1,
    r = Sent status body /\
    c' = Lru.set CACHE_MAX (now w) key (Rendered status body)
                 (CACHE_TTL_S * 1000) c1.

(** Whenever [m] returns, it has just sent its response through
    [sendJson] under [key]. *)
Definition ends_stored (w : world) (key : string) (m : M response) : Prop :=
  forall s r s', m s = (Ok r, s') -> stored_by w key r (cache s').

End Promises.

End Shape.

(* ===================================================================== *)
(** * Vocabulary of the properties of the upstream calls *)
(* ===================================================================== *)

Module Upstream.

Import Js Lru Rt.
Local Open Scope Z_scope.
Local Open Scope js_scope.

Section Terms.

Context {B : Builtins} {C : Config}.

(** What a lookup of [k] returns at the time [now]. *)
Definition lookup_at (now : Z) (c : lru) (k : string) : option cached :=
  fst (Lru.get now k c).

(** The two caches answer every lookup alike at the time [now]. *)
Definition same_hits (now : Z) (c c' : lru) : Prop :=
  forall k, lookup_at now c k = lookup_at now c' k.

(** The candidate [u] of a race is answered from the cache [c]. *)
Definition cached_value (w : world) (c : lru) (u : string) : option value :=
  option_map Server.hit_value (lookup_at (now w) c ("UPSTREAM:" +++ u)).

Definition uncached (w : world) (c : lru) (u : string) : bool :=
  match cached_value w c u with
  | Some _ => false
  | None => true
  end.

(** What the candidate [u] of a race starts as, from the cache [c]. *)
Definition start_of (w : world) (c : lru) (u : string) : Server.pending :=
  match cached_value w c u with
  | Some v => Server.Settled v
  | None =>
      Server.InFlight ("UPSTREAM:" +++ u) (latency w u)
        (Server.fetchJson_outcome w u UPSTREAM_TIMEOUT_MS)
  end.

(** The candidate [u] is not cached and its fetch fails. *)
Definition lost (w : world) (c : lru) (u : string) : Prop :=
  cached_value w c u = None /\
  exists e, Server.fetchJson_outcome w u UPSTREAM_TIMEOUT_MS = Throw e.

(** What the fetch of [url] by [r.json()] ends as, in the revisions that
    call mirrors one after the other. *)
Definition json_outcome (w : world) (url : string) (timeoutMs : Z)
  : result value :=
  txt <-- fetch_outcome w url timeoutMs ;; JSON_parse txt.

(** The mirror [u] is not cached and its fetch fails with [e]. *)
Definition fails_with (w : world) (c : lru) (timeoutMs : Z) (u : string)
    (e : exn) : Prop :=
  Lru.has (now w) ("UPSTREAM:" +++ u) c = false /\
  json_outcome w u timeoutMs = Throw e.

End Terms.

End Upstream.

(* ===================================================================== *)
(** * Vocabulary of the properties of the scraper and of the pools *)
(* ===================================================================== *)

Module Tree.

Import Js.


(** A member of a pool as an operator would write it: not empty, without
    a comma, without white space around it. *)
Definition clean (p : string) : Prop :=
  Str.is_empty p = false /\ Str.includes "," p = false /\ Str.trim p = p.

End Tree.

(* ===================================================================== *)
(** * Vocabulary of the properties of the patterns *)
(* ===================================================================== *)

Module Text.

(** In [s] followed by [t], the text [t] occurs at no offset before the
    end of [s]. *)
Fixpoint first_after (t s : string) : bool :=
  match s with
  | EmptyString => true
  | String _ r => negb (Str.starts_with t (s +++ t)) && first_after t r
  end.

(** The markers of the first pattern of [extractJSONFromHTML]. *)
Definition opening : string := "var ytInitialData = ".
Definition closing : string := ";</script>".

End Text.

(* ===================================================================== *)
(** * More of the finite platform *)
(* ===================================================================== *)

Module Samples.

Import Js Lru Rt.
Local Open Scope Z_scope.

(** What a results page embeds, cut down to one video and one channel. *)
Definition a_videoRenderer : value :=
  VObj [("videoId", VStr "v1");
        ("title", VObj [("runs", VArr [VObj [("text", VStr "t1")]])])].

Definition a_channelRenderer : value :=
  VObj [("channelId", VStr "UC1");
        ("title", VObj [("simpleText", VStr "c1")])].

Definition page_data : value :=
  VObj [("contents",
         VArr [VObj [("videoRenderer", a_videoRenderer)];
               VObj [("shelf",
                      VObj [("channelRenderer", a_channelRenderer)])]])].

(** What the Google endpoint answers for [cats]. *)
Definition google_answer : value :=
  VArr [VStr "cats"; VArr [VStr "cats video"; VStr "cats funny"]].

Definition documents : list (string * value) :=
  Demo.documents ++ [("blob", page_data); ("google", google_answer)].

Definition builtins : Builtins :=
  {| JSON_stringify := Demo.show;
     JSON_parse := fun s =>
       match Demo.assoc s documents with
       | Some v => Ok v
       | None => Throw (SyntaxError "Unexpected token")
       end;
     encodeURIComponent := fun s => s |}.

(** No mirror answers; the results page of YouTube embeds [page_data]. *)
Definition only_youtube : world :=
  Demo.world_of
    [("https://www.youtube.com/results?search_query=cats&hl=en&gl=US",
      "<script>var ytInitialData = blob;</script>")].


(** Invidious is down; Piped answers [/suggestions] with an object. *)
Definition piped_object : world :=
  Demo.world_of
    [("https://pipedapi.kavin.rocks/suggestions?query=cats", "{}")].

(** Two mirrors that both answer, the second one sooner. *)
Definition two_mirrors : world :=
  {| now := 1000;
     latency := fun u => if String.eqb u "https://fast.example" then 50
                         else 200;
     net := fun u =>
       if String.eqb u "https://fast.example"
       then Response true "200 OK" "[]"
       else if String.eqb u "https://slow.example"
       then Response true "200 OK" "fifteen"
       else NetError (TypeError "fetch failed") |}.

(** The second of three mirrors answers. *)
Definition second_of_three : world :=
  Demo.world_of [("https://b.example", "[]")].

(** A raw cache that holds the payload of one mirror. *)
Definition one_cached : lru :=
  [ {| skey := "UPSTREAM:https://b.example"; sval := Raw (VArr []);
       sstart := 900; sttl := 600000 |} ].

Definition empty_state : state := {| cache := []; fetched := [] |}.

(** [process.env] with one pool set. *)
Definition env (setting : string) (name : string) : option string :=
  if String.eqb name "INVIDIOUS_POOL" then Some setting else None.

End Samples.

(* ===================================================================== *)
(** * Facts about the cache *)
(* ===================================================================== *)

Module LruFacts.

Import Js Lru.
Local Open Scope Z_scope.

Lemma find_slot (k : string) (c : lru) (s : slot) :
  find k c = Some s -> In s c /\ skey s = k.
Proof.
  induction c as [|x c IH]; simpl; [discriminate|].
  destruct (String.eqb k (skey x)) eqn:Hk.
  - intros [= <-]. apply String.eqb_eq in Hk. auto.
  - intros H. destruct (IH H). auto.
Qed.

Section Preservation.

Variable P : slot -> Prop.

Lemma Forall_remove (k : string) (c : lru) :
  Forall P c -> Forall P (remove k c).
Proof.
  unfold remove. intros H. rewrite Forall_forall in *.
  intros x Hx. apply filter_In in Hx. apply H, Hx.
Qed.

Lemma Forall_removelast (c : lru) : Forall P c -> Forall P (removelast c).
Proof.
  induction c as [|x c IH]; simpl; [auto|].
  intros H. inversion H; subst. destruct c; [constructor|].
  constructor; auto.
Qed.

Lemma get_keeps (now : Z) (k : string) (c : lru) :
  Forall P c -> Forall P (snd (get now k c)).
Proof.
  intros H. unfold get. destruct (find k c) as [s|] eqn:Hf; [|exact H].
  apply find_slot in Hf. destruct Hf as [Hin _].
  destruct (stale now s); simpl.
  - now apply Forall_remove.
  - constructor; [|now apply Forall_remove].
    rewrite Forall_forall in H. now apply H.
Qed.

Lemma get_hit (now : Z) (k : string) (c : lru) (v : cached) :
  Forall P c -> fst (get now k c) = Some v ->
  exists s, skey s = k /\ sval s = v /\ P s.
Proof.
  intros H. unfold get. destruct (find k c) as [s|] eqn:Hf; [|discriminate].
  apply find_slot in Hf. destruct Hf as [Hin Hk].
  destruct (stale now s); simpl; [discriminate|].
  intros [= <-]. exists s. rewrite Forall_forall in H. auto.
Qed.

Lemma set_keeps (max : nat) (now : Z) (k : string) (v : cached) (ttl : Z)
    (c : lru) :
  Forall P c ->
  P {| skey := k; sval := v; sstart := now; sttl := ttl |} ->
  Forall P (set max now k v ttl c).
Proof.
  intros H Hs. unfold set. destruct (find k c).
  - constructor; [exact Hs|now apply Forall_remove].
  - destruct (negb (Nat.eqb max 0) && Nat.leb max (List.length c))%bool;
      constructor; auto using Forall_removelast.
Qed.

End Preservation.

(** The entry that [set] wrote is the one that [find] meets. *)
Lemma find_set (max : nat) (now : Z) (k : string) (v : cached) (ttl : Z)
    (c : lru) :
  find k (set max now k v ttl c)
  = Some {| skey := k; sval := v; sstart := now; sttl := ttl |}.
Proof.
  unfold set.
  destruct (find k c);
    [|destruct (negb (Nat.eqb max 0) && Nat.leb max (List.length c))%bool];
    simpl; rewrite String.eqb_refl; reflexivity.
Qed.

Lemma get_miss (now : Z) (k : string) (c : lru) :
  find k c = None -> get now k c = (None, c).
Proof. unfold get. now intros ->. Qed.

Lemma get_live (now : Z) (k : string) (c : lru) (s : slot) :
  find k c = Some s -> stale now s = false ->
  get now k c = (Some (sval s), s :: remove k c).
Proof. unfold get. now intros -> ->. Qed.

Lemma find_none_remove (k k' : string) (c : lru) :
  find k c = None -> find k (remove k' c) = None.
Proof.
  induction c as [|x c IH]; simpl; [reflexivity|].
  destruct (String.eqb k (skey x)) eqn:Hk; [discriminate|].
  intros H. destruct (String.eqb k' (skey x)); simpl; [auto|].
  rewrite Hk. auto.
Qed.

End LruFacts.

Module ListFacts.

Lemma firstn_Forall {A : Type} (P : A -> Prop) (n : nat) (l : list A) :
  Forall P l -> Forall P (firstn n l).
Proof.
  intros H. revert n. induction H as [|x l Hx Hl IH]; intros [|n]; simpl;
    constructor; auto.
Qed.

End ListFacts.

Module StrFacts.

Import Props.

Lemma origin_not_upstream (k : string) :
  origin_form k = true -> upstream_key k = false.
Proof.
  unfold origin_form, upstream_key, Str.starts_with.
  destruct k as [|a k]; cbn [Str.strip_prefix]; [discriminate|].
  destruct (Ascii.eqb "/" a) eqn:Ha; [|discriminate].
  apply Ascii.eqb_eq in Ha. subst a. reflexivity.
Qed.

End StrFacts.

(* ===================================================================== *)
(** * Facts about the handler monad *)
(* ===================================================================== *)

Module MonadFacts.

Import Js Lru Rt Props LruFacts StrFacts.
Local Open Scope Z_scope.
Local Open Scope js_scope.

Section Rules.

Context {B : Builtins} {C : Config} {E : Express}.

Lemma keeps_weaken {A : Type} (Q R : A -> Prop) (m : M A) :
  (forall a, Q a -> R a) -> keeps_with Q m -> keeps_with R m.
Proof.
  intros HQR Hm s Hs. destruct (Hm s Hs) as [Hc Ha]. split; auto.
Qed.

Lemma keeps_ret {A : Type} (Q : A -> Prop) (a : A) :
  Q a -> keeps_with Q (ret a).
Proof. intros Ha s Hs. simpl. split; [exact Hs|]. now intros ? [= <-]. Qed.

Lemma keeps_throw {A : Type} (Q : A -> Prop) (e : exn) :
  keeps_with Q (throw e).
Proof. intros s Hs. simpl. split; [exact Hs|]. discriminate. Qed.

Lemma keeps_lift {A : Type} (Q : A -> Prop) (r : result A) :
  (forall a, r = Ok a -> Q a) -> keeps_with Q (lift r).
Proof. intros Hr s Hs. simpl. split; [exact Hs|exact Hr]. Qed.

Lemma keeps_bind {A X : Type} (Q : A -> Prop) (R : X -> Prop) (m : M A)
    (k : A -> M X) :
  keeps_with Q m -> (forall a, Q a -> keeps_with R (k a)) ->
  keeps_with R (bind m k).
Proof.
  intros Hm Hk s Hs. unfold bind. destruct (Hm s Hs) as [Hc Ha].
  destruct (m s) as [[a|e] s']; simpl in *.
  - apply Hk; auto.
  - split; [exact Hc|discriminate].
Qed.

Lemma keeps_try {A : Type} (Q : A -> Prop) (m : M A) (h : exn -> M A) :
  keeps_with Q m -> (forall e, keeps_with Q (h e)) ->
  keeps_with Q (try_catch m h).
Proof.
  intros Hm Hh s Hs. unfold try_catch. destruct (Hm s Hs) as [Hc Ha].
  destruct (m s) as [[a|e] s']; simpl in *.
  - split; [exact Hc|]. intros ? [= <-]. auto.
  - apply Hh. exact Hc.
Qed.

Lemma keeps_cache_get (w : world) (k : string) :
  keeps_with (fun hit => forall v, hit = Some v ->
                exists s, skey s = k /\ sval s = v /\ slot_ok s)
             (cache_get w k).
Proof.
  intros s Hs. unfold cache_get.
  pose proof (get_keeps slot_ok (now w) k (cache s) Hs) as Hk.
  pose proof (get_hit slot_ok (now w) k (cache s)) as Hh.
  destruct (Lru.get (now w) k (cache s)) as [hit c]; simpl in *.
  split; [exact Hk|]. intros a [= <-] v ->. now apply Hh.
Qed.

Lemma keeps_cache_has (w : world) (k : string) : keeps (cache_has w k).
Proof. intros s Hs. simpl. auto. Qed.

Lemma keeps_issue (url : string) : keeps (issue url).
Proof. intros s Hs. simpl. auto. Qed.

Lemma keeps_set_raw (w : world) (k : string) (v : value) :
  upstream_key k = true -> keeps (cache_set w k (Raw v)).
Proof.
  intros Hk s Hs. simpl. split; [|auto].
  apply set_keeps; [exact Hs|exact Hk].
Qed.

Lemma sends_sendJson (w : world) (key : string) (P : value -> Prop)
    (payload : value) :
  P payload -> sends w key P (sendJson w key payload 200).
Proof.
  intros HP s Hs. cbn. exists payload, (cache s). auto.
Qed.

Lemma sends_bind {A : Type} (w : world) (key : string) (P : value -> Prop)
    (Q : A -> Prop) (m : M A) (k : A -> M response) :
  keeps_with Q m -> (forall a, Q a -> sends w key P (k a)) ->
  sends w key P (bind m k).
Proof.
  intros Hm Hk s Hs. unfold bind. destruct (Hm s Hs) as [Hc Ha].
  destruct (m s) as [[a|e] s']; simpl in *.
  - apply Hk; auto.
  - exact Hc.
Qed.

Lemma sends_try (w : world) (key : string) (P : value -> Prop)
    (m : M response) (h : exn -> M response) :
  sends w key P m -> (forall e, sends w key P (h e)) ->
  sends w key P (try_catch m h).
Proof.
  intros Hm Hh s Hs. unfold try_catch. specialize (Hm s Hs).
  destruct (m s) as [[a|e] s']; [exact Hm|].
  apply Hh. exact Hm.
Qed.

Lemma total_sendJson (w : world) (key : string) (payload : value)
    (status : Z) :
  total (sendJson w key payload status).
Proof. intros s. cbn. eauto. Qed.

Lemma total_try {A : Type} (m : M A) (h : exn -> M A) :
  (forall e, total (h e)) -> total (try_catch m h).
Proof.
  intros Hh s. unfold try_catch. destruct (m s) as [[a|e] s']; [simpl; eauto|].
  apply Hh.
Qed.

End Rules.

End MonadFacts.

(* ===================================================================== *)
(** * Facts about the current revision *)
(* ===================================================================== *)

Module ServerFacts.

Import Js Lru Rt Props Server LruFacts StrFacts MonadFacts.
Local Open Scope Z_scope.
Local Open Scope js_scope.

Section Facts.

Context {B : Builtins} {C : Config} {E : Express}.

Lemma upstream_key_intro (u : string) : upstream_key ("UPSTREAM:" +++ u) = true.
Proof. reflexivity. Qed.

Lemma keeps_fetchText (w : world) (url : string) (t : Z) :
  keeps (fetchText w url t).
Proof.
  unfold fetchText. eapply keeps_bind; [apply keeps_issue|].
  intros _ _. now apply keeps_lift.
Qed.

Lemma keeps_getCached_start (w : world) (key url : string) (t : Z) :
  upstream_key key = true ->
  keeps_with pending_ok (getCached_start w key url t).
Proof.
  intros Hk. unfold getCached_start.
  eapply keeps_bind; [apply keeps_cache_get|].
  intros [h|] _.
  - now apply keeps_ret.
  - eapply keeps_bind; [apply keeps_issue|]. intros _ _. now apply keeps_ret.
Qed.

Lemma keeps_settle (w : world) (p : pending) :
  pending_ok p -> keeps (settle w p).
Proof.
  destruct p as [v|key lat [v|e]]; simpl; intros Hp.
  - now apply keeps_ret.
  - eapply keeps_bind; [now apply keeps_set_raw|]. intros _ _.
    now apply keeps_ret.
  - apply keeps_throw.
Qed.

Lemma keeps_getCached (w : world) (key url : string) (t : Z) :
  upstream_key key = true -> keeps (getCached w key url t).
Proof.
  intros Hk. unfold getCached.
  eapply keeps_bind; [now apply keeps_getCached_start|].
  intros p Hp. now apply keeps_settle.
Qed.

Lemma keeps_candidates (w : world) (urls : list string) :
  keeps_with (Forall pending_ok) (candidates w urls).
Proof.
  induction urls as [|u r IH]; simpl.
  - now apply keeps_ret.
  - eapply keeps_bind;
      [apply keeps_getCached_start, upstream_key_intro|].
    intros p Hp. eapply keeps_bind; [exact IH|].
    intros ps Hps. apply keeps_ret. now constructor.
Qed.

Lemma fastest_ok (ps : list pending) :
  Forall pending_ok ps ->
  forall best p,
    (forall b q, best = Some (b, q) -> pending_ok q) ->
    fastest ps best = Some p -> pending_ok p.
Proof.
  induction 1 as [|x ps Hx Hps IH]; intros best p Hbest; simpl.
  - destruct best as [[b q]|]; simpl; [|discriminate].
    intros [= <-]. eauto.
  - destruct x as [v|key lat [v|e]]; try (now apply IH).
    destruct best as [[b q]|].
    + destruct (lat <? b); apply IH; auto.
      intros ? ? [= <- <-]. exact Hx.
    + apply IH. intros ? ? [= <- <-]. exact Hx.
Qed.

Lemma winner_ok (ps : list pending) (p : pending) :
  Forall pending_ok ps -> winner ps = Some p -> pending_ok p.
Proof.
  intros Hps. unfold winner.
  destruct (List.find is_settled ps) as [q|] eqn:Hf.
  - intros [= <-]. apply List.find_some in Hf. destruct Hf as [_ Hq].
    destruct q; [exact I|discriminate].
  - apply fastest_ok; [exact Hps|discriminate].
Qed.

Lemma keeps_race (w : world) (urls : list string) : keeps (race w urls).
Proof.
  unfold race. eapply keeps_bind; [apply keeps_candidates|].
  intros ps Hps. unfold firstResolved.
  destruct (winner ps) as [p|] eqn:Hw; [|apply keeps_throw].
  apply keeps_settle. eapply winner_ok; eassumption.
Qed.

Lemma keeps_ytHtmlFallbackSearch (w : world) (q : string) :
  keeps (ytHtmlFallbackSearch w q).
Proof.
  unfold ytHtmlFallbackSearch.
  eapply keeps_bind; [apply keeps_fetchText|]. intros html _.
  destruct (negb (truthy (extractJSONFromHTML html))).
  - now apply keeps_ret.
  - eapply keeps_bind with (Q := fun _ => True); [now apply keeps_lift|].
    intros videos _.
    eapply keeps_bind with (Q := fun _ => True); [now apply keeps_lift|].
    intros channels _. now apply keeps_ret.
Qed.

Lemma first_ten_strings_ok (lst : value) (l : list value) :
  first_ten_strings lst = Ok l ->
  (List.length l <= 10)%nat /\ Forall is_string l.
Proof.
  unfold first_ten_strings. destruct lst; try discriminate.
  cbn [array_of rbind]. intros H.
  assert (Hl : l = firstn 10 (map (fun x => VStr (toString x)) elts))
    by congruence.
  subst l. clear H. split.
  - rewrite length_firstn. lia.
  - apply ListFacts.firstn_Forall, Forall_forall. intros x Hx.
    apply in_map_iff in Hx. destruct Hx as [y [<- _]]. eexists; reflexivity.
Qed.

(** A block that always answers: it sends, and it does not throw. *)
Lemma sends_total_run (w : world) (key : string) (P : value -> Prop)
    (m : M response) (s : state) :
  sends w key P m -> total m -> cache_ok (cache s) ->
  exists r s', m s = (Ok r, s') /\ sent_by w key P r (cache s').
Proof.
  intros Hm Ht Hs. specialize (Hm s Hs). destruct (Ht s) as [r Hr].
  destruct (m s) as [[r'|e] s']; simpl in Hr; [|discriminate].
  exists r', s'. auto.
Qed.

Ltac keeps_auto :=
  first [ apply keeps_race
        | apply keeps_ytHtmlFallbackSearch
        | apply keeps_getCached; apply upstream_key_intro
        | apply keeps_lift; intros; exact I ].

Lemma sends_suggest (w : world) (url : string) :
  Str.is_empty (query_q url) = false ->
  sends w url (payload_ok Suggest url)
    (try_catch
       (lst <-
          try_catch
            (raw <- race w (suggest_invUrls (query_q url)) ;;
             ret (suggestions_of raw))
            (fun _ =>
               try_catch
                 (raw <- race w (suggest_pipUrls (query_q url)) ;;
                  ret (suggestions_of raw))
                 (fun _ =>
                    let gUrl := suggest_gUrl (query_q url) in
                    raw <- getCached w ("UPSTREAM:" +++ gUrl) gUrl 2500 ;;
                    ret (google_suggestions raw))) ;;
        suggestions <- lift (first_ten_strings lst) ;;
        sendJson w url (obj_suggestions suggestions) 200)
       (fun _ =>
          sendJson w url (obj_suggestions_error [] upstream_unavailable) 200)).
Proof.
  intros Hq.
  assert (Hne : query_q url = EmptyString -> False)
    by (intros H; rewrite H in Hq; discriminate).
  apply sends_try.
  - eapply sends_bind with (Q := fun _ => True).
    + apply keeps_try.
      * eapply keeps_bind; [apply keeps_race|]. intros; now apply keeps_ret.
      * intros _. apply keeps_try.
        -- eapply keeps_bind; [apply keeps_race|]. intros; now apply keeps_ret.
        -- intros _. cbv zeta.
           eapply keeps_bind; [apply keeps_getCached, upstream_key_intro|].
           intros; now apply keeps_ret.
    + intros lst _.
      eapply sends_bind with (Q := fun l => first_ten_strings lst = Ok l).
      * apply keeps_lift. auto.
      * intros l Hl. apply sends_sendJson. split; [tauto|]. intros _.
        apply first_ten_strings_ok in Hl. destruct Hl.
        exists l. auto.
  - intros _. apply sends_sendJson. split; [tauto|]. intros _.
    exists []. simpl. repeat split; auto. lia.
Qed.


Lemma payload_ok_nonempty (ep : endpoint) (url : string) (p : value) :
  ep <> Suggest -> Str.is_empty (query_q url) = false -> payload_ok ep url p.
Proof.
  intros Hep Hq. split; [|contradiction].
  intros H. rewrite H in Hq. discriminate.
Qed.

Lemma payload_ok_empty (ep : endpoint) (url : string) :
  payload_ok ep url (empty_payload ep).
Proof.
  split; [reflexivity|]. intros ->. exists []. simpl.
  repeat split; auto. lia.
Qed.

Ltac sends_auto :=
  repeat first
    [ apply sends_try
    | apply sends_sendJson
    | eapply sends_bind with (Q := fun _ => True); [keeps_auto|]
    | match goal with
      | |- sends _ _ _ (if ?b then _ else _) => destruct b
      end
    | intro ].

Lemma sends_channels (w : world) (url : string) :
  Str.is_empty (query_q url) = false ->
  sends w url (payload_ok Channels url)
    (try_catch
       (try_catch
          (raw <- race w (channels_invUrls (query_q url) (query_page url)) ;;
           items <- lift (channel_items invidious_is_channel raw) ;;
           sendJson w url (obj_items items (next (query_page url))) 200)
          (fun _ =>
             try_catch
               (raw <- race w (channels_pipUrls (query_q url)
                                 (query_page url)) ;;
                items <- lift (channel_items piped_is_channel raw) ;;
                sendJson w url (obj_items items (next (query_page url))) 200)
               (fun _ =>
                  fb <- ytHtmlFallbackSearch w (query_q url) ;;
                  items <- lift (fallback_channels fb) ;;
                  sendJson w url
                    (obj_items_error items (next (query_page url))
                       upstream_unavailable) 200)))
       (fun _ =>
          sendJson w url
            (obj_items_error [] (next (query_page url)) upstream_unavailable)
            200)).
Proof.
  intros Hq. sends_auto; now apply payload_ok_nonempty.
Qed.

Lemma sends_search (w : world) (url : string) :
  Str.is_empty (query_q url) = false ->
  sends w url (payload_ok Search url)
    (try_catch
       (try_catch
          (raw <- race w (search_invUrls (query_q url) (query_page url)) ;;
           items <- lift (search_items invidious_item raw) ;;
           sendJson w url (obj_items items (next (query_page url))) 200)
          (fun _ =>
             try_catch
               (raw <- race w (search_pipUrls (query_q url)
                                 (query_page url)) ;;
                items <- lift (search_items piped_item raw) ;;
                sendJson w url (obj_items items (next (query_page url))) 200)
               (fun _ =>
                  if Num.gtb (query_page url) (Num.of_Z 1) then
                    sendJson w url
                      (obj_items_error [] (next (query_page url))
                         upstream_unavailable) 200
                  else
                    fb <- ytHtmlFallbackSearch w (query_q url) ;;
                    sendJson w url fb 200)))
       (fun _ =>
          sendJson w url
            (obj_items_error [] (next (query_page url)) upstream_unavailable)
            200)).
Proof.
  intros Hq. sends_auto; now apply payload_ok_nonempty.
Qed.

Lemma hit_or_miss (w : world) (key : string) (miss : M response) (s : state) :
  (hit <- cache_get w key ;;
   match hit with
   | Some h => replay h
   | None => miss
   end) s
  = match Lru.get (now w) key (cache s) with
    | (Some h, c') => replay h {| cache := c'; fetched := fetched s |}
    | (None, c') => miss {| cache := c'; fetched := fetched s |}
    end.
Proof.
  unfold bind, cache_get.
  destruct (Lru.get (now w) key (cache s)) as [[h|] c']; reflexivity.
Qed.

(** What a handler does, by what the cache holds under the inbound key:
    a hit is replayed, and on a miss a response goes out through
    [sendJson]. *)
Lemma handler_spec (ep : endpoint) (w : world) (url : string) (s : state) :
  cache_ok (cache s) ->
  match Lru.get (now w) url (cache s) with
  | (Some h, c') =>
      handler ep w url s = replay h {| cache := c'; fetched := fetched s |}
  | (None, c') =>
      exists r s',
        handler ep w url s = (Ok r, s') /\
        sent_by w url (payload_ok ep url) r (cache s')
  end.
Proof.
  intros Hs.
  pose proof (get_keeps slot_ok (now w) url (cache s) Hs) as Hc.
  destruct ep; unfold handler;
    [unfold suggest|unfold channels|unfold search];
    cbv zeta; rewrite hit_or_miss;
    destruct (Lru.get (now w) url (cache s)) as [[h|] c']; try reflexivity;
    simpl in Hc;
    (apply sends_total_run;
     [ destruct (Str.is_empty (query_q url)) eqn:Hq;
       [ apply sends_sendJson, payload_ok_empty | ]
     | destruct (Str.is_empty (query_q url));
       [ apply total_sendJson
       | apply total_try; intros; apply total_sendJson ]
     | exact Hc ]).
  - now apply sends_suggest.
  - now apply sends_channels.
  - now apply sends_search.
Qed.

End Facts.

End ServerFacts.

(* ===================================================================== *)
(** * The cache invariant and what every response looks like *)
(* ===================================================================== *)

Module StateFacts.

Import Js Lru Rt Props Server LruFacts StrFacts MonadFacts ServerFacts.
Local Open Scope Z_scope.
Local Open Scope js_scope.

Section Facts.

Context {B : Builtins} {C : Config} {E : Express}.

Lemma sent_by_cache_ok (w : world) (url : string) (ep : endpoint)
    (r : response) (c' : lru) :
  route url = Some ep -> sent_by w url (payload_ok ep url) r c' -> cache_ok c'.
Proof.
  intros Hr (payload & c1 & HP & Hc1 & _ & ->).
  apply set_keeps; [exact Hc1|]. split; [reflexivity|].
  exists ep, payload. auto.
Qed.

Lemma serve_keeps (ep : endpoint) (w : world) (url : string) (c : lru) :
  cache_ok c -> route url = Some ep ->
  cache_ok (cache (snd (serve ep w url c))).
Proof.
  intros Hc Hr. unfold serve, run.
  pose proof (handler_spec ep w url {| cache := c; fetched := [] |} Hc) as H.
  pose proof (get_keeps slot_ok (now w) url c Hc) as Hk.
  simpl in H. destruct (Lru.get (now w) url c) as [[h|] c'].
  - rewrite H. destruct h; exact Hk.
  - destruct H as (r & s' & -> & Hsent). simpl.
    eapply sent_by_cache_ok; eassumption.
Qed.

(** Every cache that the process can be in is well-formed. *)
Lemma reachable_ok (c : lru) : reachable c -> cache_ok c.
Proof.
  induction 1 as [|c w url ep _ IH Hr|c t u v _ IH].
  - constructor.
  - now apply serve_keeps.
  - apply set_keeps; [exact IH|]. apply upstream_key_intro.
Qed.

(** Under an inbound key of a well-formed cache sits a rendered response
    of the route of that key. *)
Lemma hit_rendered (ep : endpoint) (now : Z) (url : string) (c : lru)
    (h : cached) :
  cache_ok c -> route url = Some ep -> origin_form url = true ->
  fst (Lru.get now url c) = Some h ->
  exists payload,
    h = Rendered 200 (JSON_stringify payload) /\ payload_ok ep url payload.
Proof.
  intros Hc Hr Ho Hh.
  destruct (get_hit slot_ok now url c h Hc Hh) as (s & Hk & Hv & Hs).
  unfold slot_ok in Hs. rewrite Hv, Hk in Hs. destruct h as [st body|v].
  - destruct Hs as (-> & ep' & payload & Hr' & -> & HP).
    rewrite Hr in Hr'. injection Hr' as <-. eauto.
  - apply origin_not_upstream in Ho. congruence.
Qed.

Lemma get_hit_live (now : Z) (k : string) (c : lru) (h : cached) :
  fst (Lru.get now k c) = Some h -> live now k h (snd (Lru.get now k c)).
Proof.
  unfold Lru.get. destruct (find k c) as [s|] eqn:Hf; [|discriminate].
  destruct (stale now s) eqn:Hs; [discriminate|]. simpl.
  intros [= <-]. exists s. apply find_slot in Hf. destruct Hf as [_ <-].
  cbn [find]. rewrite String.eqb_refl. auto.
Qed.

Lemma set_live (max : nat) (now now' : Z) (k : string) (v : cached)
    (ttl : Z) (c : lru) :
  0 <= ttl -> now' <= now + ttl ->
  live now' k v (Lru.set max now k v ttl c).
Proof.
  intros Ht Hn. eexists. rewrite find_set. repeat split.
  unfold stale. simpl. destruct (ttl =? 0) eqn:H0; [reflexivity|].
  simpl. apply Z.ltb_ge. lia.
Qed.

(** A live rendered entry is what the handler answers with, and the
    network is not touched. *)
Lemma serve_hit (ep : endpoint) (w : world) (url : string) (c : lru)
    (st : Z) (body : string) :
  live (now w) url (Rendered st body) c ->
  serve ep w url c
  = (Sent st body, {| cache := snd (Lru.get (now w) url c); fetched := [] |}).
Proof.
  intros (s & Hf & Hv & Hs). unfold serve, run.
  assert (Hg : Lru.get (now w) url c
               = (Some (Rendered st body), s :: remove url c))
    by (rewrite <- Hv; now apply get_live).
  destruct ep; unfold handler;
    [unfold suggest|unfold channels|unfold search];
    cbv zeta; rewrite hit_or_miss; simpl; rewrite Hg; reflexivity.
Qed.

(** On a miss with an empty query the handler sends the empty result at
    once. *)
Lemma handler_empty_miss (ep : endpoint) (w : world) (url : string)
    (s : state) :
  query_q url = EmptyString ->
  fst (Lru.get (now w) url (cache s)) = None ->
  handler ep w url s
  = sendJson w url (empty_payload ep) 200
      {| cache := snd (Lru.get (now w) url (cache s));
         fetched := fetched s |}.
Proof.
  intros Hq Hg.
  destruct ep; unfold handler;
    [unfold suggest|unfold channels|unfold search];
    cbv zeta; rewrite hit_or_miss;
    destruct (Lru.get (now w) url (cache s)) as [[h|] c'];
    try discriminate; rewrite Hq; reflexivity.
Qed.

(** Whatever the cache holds, a request with an empty query is answered
    with the empty result and without a fetch. *)
Lemma empty_query_response (ep : endpoint) (w : world) (url : string)
    (c : lru) :
  cache_ok c -> route url = Some ep -> origin_form url = true ->
  query_q url = EmptyString ->
  exists c',
    serve ep w url c
    = (Sent 200 (JSON_stringify (empty_payload ep)),
       {| cache := c'; fetched := [] |}).
Proof.
  intros Hc Hr Ho Hq.
  destruct (fst (Lru.get (now w) url c)) as [h|] eqn:Hg.
  - destruct (hit_rendered ep (now w) url c h Hc Hr Ho Hg)
      as (payload & -> & HP & _).
    rewrite (HP Hq) in *. eexists. apply serve_hit.
    pose proof (get_hit_live _ _ _ _ Hg) as (s & Hf & Hv & Hs).
    unfold Lru.get in Hg, Hf.
    destruct (find url c) as [s0|] eqn:Hf0; [|discriminate].
    destruct (stale (now w) s0) eqn:Hs0; [discriminate|].
    simpl in Hg, Hf. injection Hg as Hg. exists s0. auto.
  - unfold serve, run. rewrite handler_empty_miss by assumption.
    cbn. eexists. reflexivity.
Qed.

(** Every routed request in origin form is answered with status 200 and
    the serialisation of a payload that suits its route. *)
Lemma serve_status (ep : endpoint) (w : world) (url : string) (c : lru) :
  cache_ok c -> route url = Some ep -> origin_form url = true ->
  exists payload s',
    serve ep w url c = (Sent 200 (JSON_stringify payload), s') /\
    payload_ok ep url payload.
Proof.
  intros Hc Hr Ho. unfold serve, run.
  pose proof (handler_spec ep w url {| cache := c; fetched := [] |} Hc) as H.
  simpl in H.
  destruct (Lru.get (now w) url c) as [[h|] c'] eqn:Hg.
  - assert (Hh : fst (Lru.get (now w) url c) = Some h) by now rewrite Hg.
    destruct (hit_rendered ep (now w) url c h Hc Hr Ho Hh)
      as (payload & -> & HP).
    rewrite H. simpl. eauto.
  - destruct H as (r & s' & -> & payload & c1 & HP & Hc1 & -> & Hs').
    eauto.
Qed.

(** The response is then a live entry of the cache, and after a miss it
    stays live for the whole TTL. *)
Lemma serve_stored (ep : endpoint) (w : world) (url : string) (c : lru) :
  cache_ok c -> route url = Some ep -> origin_form url = true ->
  0 <= CACHE_TTL_S ->
  exists st body s',
    serve ep w url c = (Sent st body, s') /\
    live (now w) url (Rendered st body) (cache s') /\
    (fst (Lru.get (now w) url c) = None ->
     forall t, t <= now w + CACHE_TTL_S * 1000 ->
       live t url (Rendered st body) (cache s')).
Proof.
  intros Hc Hr Ho Ht. unfold serve, run.
  pose proof (handler_spec ep w url {| cache := c; fetched := [] |} Hc) as H.
  simpl in H.
  destruct (Lru.get (now w) url c) as [[h|] c'] eqn:Hg.
  - assert (Hh : fst (Lru.get (now w) url c) = Some h) by now rewrite Hg.
    destruct (hit_rendered ep (now w) url c h Hc Hr Ho Hh)
      as (payload & -> & HP).
    rewrite H. simpl. do 3 eexists. split; [reflexivity|].
    split; [|discriminate]. simpl.
    apply get_hit_live in Hh. now rewrite Hg in Hh.
  - destruct H as (r & s' & -> & payload & c1 & HP & Hc1 & -> & Hs').
    do 3 eexists. split; [reflexivity|].
    rewrite Hs'. split; [|intros _ t Ht'];
      apply set_live; lia.
Qed.

End Facts.

End StateFacts.

(* ===================================================================== *)
(** * When no upstream answers *)
(* ===================================================================== *)

Module ExhaustionFacts.

Import Js Lru Rt Props Server LruFacts StrFacts MonadFacts ServerFacts.
Local Open Scope Z_scope.
Local Open Scope js_scope.

Section Facts.

Context {B : Builtins} {C : Config} {E : Express}.

Lemma no_raw_get (now : Z) (k : string) (c : lru) :
  no_raw c -> no_raw (snd (Lru.get now k c)).
Proof.
  intros Hc k' Hk'. unfold Lru.get.
  destruct (find k c) as [s|] eqn:Hf; [|now apply Hc].
  assert (Hne : String.eqb k' (skey s) = false).
  { destruct (find_slot _ _ _ Hf) as [_ ->].
    destruct (String.eqb k' k) eqn:Hkk; [|reflexivity].
    apply String.eqb_eq in Hkk. subst k'.
    specialize (Hc k Hk'). congruence. }
  destruct (stale now s); simpl; [|rewrite Hne];
    apply find_none_remove, Hc, Hk'.
Qed.

Lemma fetchJson_outcome_down (w : world) (u : string) (t : Z) :
  upstream_down w -> exists e, fetchJson_outcome w u t = Throw e.
Proof.
  intros Hw. unfold fetchJson_outcome, fetch_outcome.
  destruct (t <=? latency w u); [eexists; reflexivity|].
  destruct (Hw u) as [e ->]. eexists; reflexivity.
Qed.

(** With nothing cached and no upstream answering, a candidate is a fetch
    that fails. *)
Lemma getCached_start_down (w : world) (u : string) (t : Z) (s : state) :
  no_raw (cache s) -> upstream_down w ->
  exists e,
    getCached_start w ("UPSTREAM:" +++ u) u t s
    = (Ok (InFlight ("UPSTREAM:" +++ u) (latency w u) (Throw e)),
       {| cache := cache s; fetched := fetched s ++ [u] |}).
Proof.
  intros Hc Hw. destruct (fetchJson_outcome_down w u t Hw) as [e He].
  exists e. unfold getCached_start, bind, cache_get.
  rewrite get_miss by apply Hc, upstream_key_intro.
  cbn. now rewrite He.
Qed.

Lemma candidates_down (w : world) (urls : list string) (s : state) :
  no_raw (cache s) -> upstream_down w ->
  exists ps,
    candidates w urls s
    = (Ok ps, {| cache := cache s; fetched := fetched s ++ urls |}) /\
    Forall failed ps.
Proof.
  intros Hc Hw. revert s Hc.
  induction urls as [|u r IH]; intros s Hc; cbn [candidates].
  - exists []. rewrite app_nil_r. destruct s; auto.
  - destruct (getCached_start_down w u UPSTREAM_TIMEOUT_MS s Hc Hw) as [e He].
    unfold bind at 1. rewrite He.
    destruct (IH {| cache := cache s; fetched := fetched s ++ [u] |} Hc)
      as (ps & Hps & Hf).
    unfold bind at 1. rewrite Hps. cbn.
    eexists. rewrite <- app_assoc. split; [reflexivity|].
    constructor; [|exact Hf]. repeat eexists.
Qed.

Lemma winner_failed (ps : list pending) : Forall failed ps -> winner ps = None.
Proof.
  intros H. unfold winner.
  assert (Hfind : List.find is_settled ps = None).
  { induction H as [|p ps (key & lat & e & ->) _ IH]; [reflexivity|exact IH]. }
  rewrite Hfind. clear Hfind.
  induction H as [|p ps (key & lat & e & ->) _ IH]; [reflexivity|exact IH].
Qed.

(** Then the race of a tier is lost by every candidate. *)
Lemma race_down (w : world) (urls : list string) (s : state) :
  no_raw (cache s) -> upstream_down w ->
  race w urls s
  = (Throw AggregateError,
     {| cache := cache s; fetched := fetched s ++ urls |}).
Proof.
  intros Hc Hw. unfold race, bind.
  destruct (candidates_down w urls s Hc Hw) as (ps & -> & Hf).
  unfold firstResolved. now rewrite winner_failed.
Qed.

Lemma getCached_down (w : world) (u : string) (t : Z) (s : state) :
  no_raw (cache s) -> upstream_down w ->
  exists e,
    getCached w ("UPSTREAM:" +++ u) u t s
    = (Throw e, {| cache := cache s; fetched := fetched s ++ [u] |}).
Proof.
  intros Hc Hw. destruct (getCached_start_down w u t s Hc Hw) as [e He].
  exists e. unfold getCached, bind. now rewrite He.
Qed.

(** Total exhaustion of [/suggest]: the marker, with status 200. *)
Lemma suggest_exhausted (w : world) (url : string) (c : lru) :
  fst (Lru.get (now w) url c) = None ->
  Str.is_empty (query_q url) = false ->
  no_raw c -> upstream_down w ->
  fst (serve Suggest w url c)
  = Sent 200 (JSON_stringify (obj_suggestions_error [] upstream_unavailable)).
Proof.
  intros Hg Hq Hc Hw. unfold serve, run, handler, suggest. cbv zeta.
  rewrite hit_or_miss. cbn [cache fetched].
  pose proof (no_raw_get (now w) url c Hc) as Hc'.
  destruct (Lru.get (now w) url c) as [[h|] c']; [discriminate|].
  simpl in Hc'. rewrite Hq. unfold try_catch, bind.
  rewrite race_down by assumption.
  rewrite race_down by assumption.
  match goal with
  | |- context [getCached w ?k ?u ?t ?s] =>
      destruct (getCached_down w u t s Hc' Hw) as [e ->]
  end.
  reflexivity.
Qed.

Lemma part001_getCachedJson_down (w : world) (u : string) (e : exn)
    (s : state) :
  no_raw (cache s) -> respond (net w u) = Throw e ->
  Part001.getCachedJson w u ("UPSTREAM:" +++ u) s
  = (Throw e, {| cache := cache s; fetched := fetched s ++ [u] |}).
Proof.
  intros Hc He. unfold Part001.getCachedJson, bind, cache_has, Lru.has.
  rewrite (Hc _ (upstream_key_intro u)). cbn. now rewrite He.
Qed.

(** The first revision in the same situation: status 502, and the error
    of the Piped fetch as the marker. *)
Lemma part001_exhausted (w : world) (url : string) (c : lru) :
  fst (Lru.get (now w) url c) = None ->
  Str.is_empty (query_q url) = false ->
  no_raw c -> upstream_down w ->
  exists e,
    fst (Part001.serve_suggest w url c)
    = Sent 502 (JSON_stringify (obj_suggestions_error [] (exn_toString e))).
Proof.
  intros Hg Hq Hc Hw. unfold Part001.serve_suggest, run, Part001.suggest.
  cbv zeta. unfold try_catch at 1. rewrite hit_or_miss. cbn [cache fetched].
  pose proof (no_raw_get (now w) url c Hc) as Hc'.
  destruct (Lru.get (now w) url c) as [[h|] c']; [discriminate|].
  simpl in Hc'. rewrite Hq.
  destruct (Hw (Part001.invUrl (query_q url))) as [e1 He1].
  destruct (Hw (Part001.pipUrl (query_q url))) as [e2 He2].
  exists e2. unfold try_catch, bind.
  rewrite (part001_getCachedJson_down w _ e1) by assumption.
  rewrite (part001_getCachedJson_down w _ e2) by assumption.
  reflexivity.
Qed.

End Facts.

End ExhaustionFacts.

(* ===================================================================== *)
(** * Facts about the normalizers and the item mappings *)
(* ===================================================================== *)

Module NormalizerFacts.

Import Js Lru Rt Props Server.
Local Open Scope Z_scope.
Local Open Scope js_scope.

Lemma get_getq (x : value) (k : string) :
  nullish x = false -> Js.get x k = Ok (getq x k).
Proof. destruct x; simpl; try reflexivity; discriminate. Qed.

Lemma get_ok (x : value) (k : string) (y : value) :
  Js.get x k = Ok y -> nullish x = false.
Proof. destruct x; simpl; try reflexivity; discriminate. Qed.

Lemma alias_first_present (x : value) (names : list string) (d : value) :
  nullish x = false -> alias x names d = Ok (first_present x names d).
Proof.
  intros Hx. induction names as [|k r IH]; simpl; [reflexivity|].
  rewrite get_getq by exact Hx. simpl.
  destruct (nullish (getq x k)); [exact IH|reflexivity].
Qed.

Lemma alias_ok (x : value) (k : string) (r : list string) (d y : value) :
  alias x (k :: r) d = Ok y -> nullish x = false.
Proof.
  simpl. destruct (Js.get x k) eqn:Hg; [|discriminate].
  intros _. eapply get_ok; eassumption.
Qed.


(** The record that [normalizeVideo] builds for an [x] that is not
    [null]: every field but the thumbnails is total. *)
Lemma normalizeVideo_eq (x : value) :
  nullish x = false ->
  normalizeVideo x
  = (thumbnails <--
       thumbnail_urls
         (first_present x ["videoThumbnails"; "thumbnails"] (VArr [])) ;;
     Ok (VObj
           [("id", first_present x ["videoId"; "id"] VNull);
            ("title", first_present x ["title"] (VStr EmptyString));
            ("channelName",
              first_present x ["author"; "uploader"; "channelName"] VNull);
            ("channelId",
              first_present x ["authorId"; "uploaderId"; "channelId"] VNull);
            ("durationSeconds",
              first_present x ["lengthSeconds"; "duration"] VNull);
            ("viewCount",
              VNum (toNumber
                      (first_present x ["viewCount"; "views"] (num 0))));
            ("publishedText",
              first_present x ["publishedText"; "uploadedDate"] VNull);
            ("thumbnails", thumbnails)])).
Proof.
  intros Hx. unfold normalizeVideo.
  rewrite !alias_first_present by exact Hx. reflexivity.
Qed.

Lemma normalizeVideo_nullish (x : value) (r : value) :
  normalizeVideo x = Ok r -> nullish x = false.
Proof.
  unfold normalizeVideo.
  destruct (alias x ["videoId"; "id"] VNull) eqn:Ha; [|discriminate].
  intros _. eapply alias_ok; eassumption.
Qed.


Lemma normalizeChannel_eq (x : value) :
  nullish x = false ->
  normalizeChannel x
  = Ok (VObj
          [("id", first_present x ["authorId"; "id"; "ucid"] VNull);
           ("title",
             first_present x ["author"; "name"; "title"] (VStr EmptyString));
           ("avatar",
             getq (first (first_present x ["authorThumbnails"; "thumbnails"]
                            (VArr []))) "url" ?? VNull)]).
Proof.
  intros Hx. unfold normalizeChannel.
  rewrite !alias_first_present by exact Hx. reflexivity.
Qed.






End NormalizerFacts.

(* ===================================================================== *)
(** * Facts about tiers: lists, fallback, fallthrough *)
(* ===================================================================== *)

Module PipelineFacts.

Import Js Lru Rt Props Server LruFacts StrFacts MonadFacts ServerFacts
       NormalizerFacts.
Local Open Scope Z_scope.
Local Open Scope js_scope.

Section Facts.

Context {B : Builtins} {C : Config} {E : Express}.






(** The items of the HTML fallback. *)
Lemma scraped_videos (data : value) (items : list value) :
  scrapeVideosFromInitialData data = Ok items ->
  Forall (fun it => exists v d,
            In v (collectRenderers "videoRenderer" data) /\
            it = item "video" d /\ getq d "id" = getq v "videoId") items.
Proof.
  unfold scrapeVideosFromInitialData.
  generalize (collectRenderers "videoRenderer" data). intros l. revert items.
  induction l as [|v l IH]; simpl; intros items.
  - intros [= <-]. constructor.
  - unfold video_of_renderer at 1.
    destruct (thumbnail_urls (renderer_thumbnails v)) as [t|e];
      [|discriminate].
    cbn [rbind]. destruct (map_result video_of_renderer l) as [ys|e];
      [|discriminate].
    intros [= <-]. constructor.
    + exists v. eexists. split; [auto|]. split; reflexivity.
    + eapply Forall_impl; [|exact (IH ys eq_refl)].
      intros a (v0 & d & ? & ? & ?). exists v0, d. auto.
Qed.

Lemma scraped_channels (data : value) (items : list value) :
  scrapeChannelsFromInitialData data = Ok items ->
  Forall (fun it => exists c d,
            In c (collectRenderers "channelRenderer" data) /\
            it = item "channel" d /\
            (truthy (getq c "channelId") = true ->
             getq d "id" = getq c "channelId")) items.
Proof.
  unfold scrapeChannelsFromInitialData.
  generalize (collectRenderers "channelRenderer" data). intros l.
  revert items. induction l as [|c l IH]; simpl; intros items.
  - intros [= <-]. constructor.
  - destruct (map_result channel_of_renderer l) as [ys|e]; [|discriminate].
    intros [= <-]. constructor.
    + exists c. eexists. split; [auto|]. split; [reflexivity|].
      intros Ht. cbn. unfold or. now rewrite Ht.
    + eapply Forall_impl; [|exact (IH ys eq_refl)].
      intros a (c0 & d & ? & ? & ?). exists c0, d. auto.
Qed.

(** ** The HTML fallback without a blob *)

Lemma extract_with_no_blob (res : list Regex.regex) (html : string) :
  (forall re, In re res -> no_blob re html) ->
  extract_with res html = VNull.
Proof.
  induction res as [|re rest IH]; intros H; simpl; [reflexivity|].
  pose proof (H re (or_introl eq_refl)) as Hre. unfold no_blob in Hre.
  assert (Hrest : extract_with rest html = VNull)
    by (apply IH; intros; apply H; now right).
  destruct (Regex.match_group1 re html) as [m1|]; [|exact Hrest].
  destruct Hre as [-> | [e ->]]; [exact Hrest|].
  destruct (Str.is_empty m1); exact Hrest.
Qed.

Lemma fallback_no_blob (w : world) (q html : string) (s : state) :
  fetch_outcome w (yt_url q) 4500 = Ok html ->
  (forall re, In re patterns -> no_blob re html) ->
  ytHtmlFallbackSearch w q s
  = (Ok (obj_items_error [] (num 2) "yt_html_parse_failed"),
     {| cache := cache s; fetched := fetched s ++ [yt_url q] |}).
Proof.
  intros Hf Hb. unfold ytHtmlFallbackSearch, fetchText, bind, issue, lift.
  rewrite Hf. unfold extractJSONFromHTML.
  rewrite extract_with_no_blob by exact Hb. reflexivity.
Qed.

(** ** Tiers that end the request, tiers that fall through *)

(** [/search]: once the Invidious race is won, its list is the answer. *)
Lemma search_invidious_terminal (w : world) (url : string) (c : lru)
    (raw : value) (items : list value) (s1 : state) :
  fst (Lru.get (now w) url c) = None ->
  Str.is_empty (query_q url) = false ->
  race w (search_invUrls (query_q url) (query_page url))
       {| cache := snd (Lru.get (now w) url c); fetched := [] |}
  = (Ok raw, s1) ->
  search_items invidious_item raw = Ok items ->
  serve Search w url c
  = (Sent 200 (JSON_stringify (obj_items items (next (query_page url)))),
     {| cache :=
          Lru.set CACHE_MAX (now w) url
            (Rendered 200
               (JSON_stringify (obj_items items (next (query_page url)))))
            (CACHE_TTL_S * 1000) (cache s1);
        fetched := fetched s1 |}).
Proof.
  intros Hg Hq Hr Hi. unfold serve, run, handler, search. cbv zeta.
  rewrite hit_or_miss. cbn [cache fetched].
  destruct (Lru.get (now w) url c) as [[h|] c']; [discriminate|].
  rewrite Hq. unfold try_catch, bind. cbn [snd] in Hr. rewrite Hr.
  unfold lift. rewrite Hi. reflexivity.
Qed.



(** [part_000]: a pool tier that met only errors, or an empty list, hands
    over to what follows it, from the state it left. *)
Lemma pool_tier_falls_through (w : world) (key : string) (urls : list string)
    (rest : M response) (s s1 : state) (out : result value) :
  Part000.firstOk w urls UPSTREAM_TIMEOUT_MS s = (out, s1) ->
  fell_through out ->
  Part000.or_else (Part000.pool_tier w key urls) rest s = rest s1.
Proof.
  intros Hf Ho.
  unfold Part000.or_else, Part000.pool_tier, Part000.attempt, try_catch, bind.
  rewrite Hf. destruct out as [raw|e]; [|reflexivity].
  simpl in Ho. rewrite Ho. reflexivity.
Qed.

Lemma part000_invidious_falls_through (w : world) (url : string) (c : lru)
    (s1 : state) (out : result value) :
  fst (Lru.get (now w) url c) = None ->
  Str.is_empty (query_q url) = false ->
  Part000.firstOk w (Part000.invUrls (query_q url)) UPSTREAM_TIMEOUT_MS
       {| cache := snd (Lru.get (now w) url c); fetched := [] |}
  = (out, s1) ->
  fell_through out ->
  Part000.serve_suggest w url c
  = run (try_catch (Part000.from_piped w url (query_q url))
                   (Part000.unexpected w url)) s1.
Proof.
  intros Hg Hq Hf Ho. unfold Part000.serve_suggest, Part000.suggest.
  cbv zeta. unfold run at 1. rewrite hit_or_miss. cbn [cache fetched].
  destruct (Lru.get (now w) url c) as [[h|] c']; [discriminate|].
  rewrite Hq. unfold Part000.from_invidious, try_catch at 1.
  cbn [snd] in Hf.
  rewrite (pool_tier_falls_through _ _ _ _ _ _ _ Hf Ho). reflexivity.
Qed.

End Facts.

End PipelineFacts.

(* ===================================================================== *)
(** * Facts about the query parameter *)
(* ===================================================================== *)

Module QueryFacts.

Import Js Lru Rt Props.

Lemma skip_ws_head (w rest : string) :
  In w Str.WhiteSpace -> Str.skip_ws 0 (w +++ rest) = Str.skip_ws 0 rest.
Proof.
  intros H. simpl in H.
  repeat (destruct H as [<-|H]; [reflexivity|]). contradiction.
Qed.

(** [trim] leaves nothing of a run of white space. *)
Lemma trim_only_whitespace (s : string) :
  only_whitespace s -> Str.trim s = EmptyString.
Proof.
  intros (cs & Hcs & ->). unfold Str.trim, Str.trimStart.
  assert (H : Str.skip_ws 0 (fold_right String.append EmptyString cs)
              = EmptyString).
  { induction Hcs as [|w cs Hw _ IH]; [reflexivity|].
    cbn [fold_right]. now rewrite skip_ws_head. }
  now rewrite H.
Qed.

Section Facts.

Context {E : Express}.

Lemma query_q_absent (url : string) :
  req_query url "q" = VUndefined \/ req_query url "q" = VStr EmptyString ->
  query_q url = EmptyString.
Proof. unfold query_q. intros [-> | ->]; reflexivity. Qed.

Lemma query_q_whitespace (url s : string) :
  req_query url "q" = VStr s -> only_whitespace s ->
  query_q url = EmptyString.
Proof.
  unfold query_q. intros -> Hs. unfold or, truthy.
  destruct (Str.is_empty s) eqn:He; cbn [negb toString].
  - reflexivity.
  - now apply trim_only_whitespace.
Qed.

End Facts.

End QueryFacts.

(* ===================================================================== *)
(** * The properties of the specification *)
(* ===================================================================== *)

Module Claims.

Import Js Lru Rt Props Server.
Import LruFacts StrFacts MonadFacts ServerFacts StateFacts ExhaustionFacts
       NormalizerFacts PipelineFacts QueryFacts.
Local Open Scope Z_scope.
Local Open Scope js_scope.

Section Statements.

Context {B : Builtins} {C : Config} {E : Express}.

(** C1, amended.  In the current revision every [/suggest] request that
    Express routes is answered with status 200, and when no upstream
    answers and nothing is cached the answer is [{ suggestions: [],
    error: "upstream_unavailable" }].  The first revision ([part_001])
    reports the same exhaustion as [{ suggestions: [], error }] with
    status 502. *)
Theorem suggest_status :
  (forall w url c,
     reachable c -> route url = Some Suggest -> origin_form url = true ->
     exists body, fst (serve Suggest w url c) = Sent 200 body) /\
  (forall w url c,
     fst (Lru.get (now w) url c) = None ->
     Str.is_empty (query_q url) = false ->
     no_raw c -> upstream_down w ->
     fst (serve Suggest w url c)
     = Sent 200
         (JSON_stringify (obj_suggestions_error [] "upstream_unavailable")) /\
     exists e,
       fst (Part001.serve_suggest w url c)
       = Sent 502
           (JSON_stringify (obj_suggestions_error [] (exn_toString e)))).
Proof.
  split.
  - intros w url c Hc Hr Ho.
    destruct (serve_status Suggest w url c (reachable_ok c Hc) Hr Ho)
      as (payload & s' & Hs & _).
    rewrite Hs. simpl. eauto.
  - intros w url c Hg Hq Hc Hw. split.
    + now apply suggest_exhausted.
    + now apply part001_exhausted.
Qed.

(** C2, amended.  In [part_000] a [/suggest] tier whose candidates all
    failed and one that got an empty list are treated alike: the handler
    goes on with the next tier, from the state the tier left.  In the
    current revision the Invidious tier of [/search] falls through on
    errors only: once its race is won, the list it maps to is sent with
    status 200, also when that list is empty, and nothing more is
    fetched. *)
Theorem tier_fallthrough :
  (forall w url c out s1,
     fst (Lru.get (now w) url c) = None ->
     Str.is_empty (query_q url) = false ->
     Part000.firstOk w (Part000.invUrls (query_q url)) UPSTREAM_TIMEOUT_MS
       {| cache := snd (Lru.get (now w) url c); fetched := [] |}
     = (out, s1) ->
     fell_through out ->
     Part000.serve_suggest w url c
     = run (try_catch (Part000.from_piped w url (query_q url))
                      (Part000.unexpected w url)) s1) /\
  (forall w key urls rest s out s1,
     Part000.firstOk w urls UPSTREAM_TIMEOUT_MS s = (out, s1) ->
     fell_through out ->
     Part000.or_else (Part000.pool_tier w key urls) rest s = rest s1) /\
  (forall w url c raw items s1,
     fst (Lru.get (now w) url c) = None ->
     Str.is_empty (query_q url) = false ->
     race w (search_invUrls (query_q url) (query_page url))
       {| cache := snd (Lru.get (now w) url c); fetched := [] |}
     = (Ok raw, s1) ->
     search_items invidious_item raw = Ok items ->
     serve Search w url c
     = (Sent 200 (JSON_stringify (obj_items items (next (query_page url)))),
        {| cache :=
             Lru.set CACHE_MAX (now w) url
               (Rendered 200
                  (JSON_stringify (obj_items items (next (query_page url)))))
               (CACHE_TTL_S * 1000) (cache s1);
           fetched := fetched s1 |})) /\
  search_items invidious_item (VArr []) = Ok [].
Proof.
  repeat split.
  - intros. now apply part000_invidious_falls_through with (out := out).
  - intros. now apply pool_tier_falls_through with (out := out).
  - intros. now apply search_invidious_terminal with (raw := raw).
Qed.

(** C3.  When the inbound key has a live entry in the rendered cache, the
    handler answers with the stored status and body; it fetches nothing,
    and the cache changes by that one lookup only. *)
Theorem rendered_hit_short_circuits (ep : endpoint) (w : world)
    (url : string) (c : lru) (st : Z) (body : string) :
  live (now w) url (Rendered st body) c ->
  serve ep w url c
  = (Sent st body, {| cache := snd (Lru.get (now w) url c); fetched := [] |}).
Proof. apply serve_hit. Qed.




(** C7.  A request to [/search], [/channels] or [/suggest] whose [q] is
    missing or empty is answered at once with the empty result of its
    endpoint, [{ items: [], nextPage: null }] or [{ suggestions: [] }],
    and no upstream is fetched. *)
Theorem empty_query_short_circuits (ep : endpoint) (w : world)
    (url : string) (c : lru) :
  reachable c -> route url = Some ep -> origin_form url = true ->
  req_query url "q" = VUndefined \/ req_query url "q" = VStr EmptyString ->
  exists c',
    serve ep w url c
    = (Sent 200 (JSON_stringify (empty_payload ep)),
       {| cache := c'; fetched := [] |}).
Proof.
  intros Hc Hr Ho Hq.
  apply empty_query_response;
    [now apply reachable_ok|exact Hr|exact Ho|now apply query_q_absent].
Qed.

(** C8.  When no pattern of [extractJSONFromHTML] locates a blob that
    parses, the HTML fallback does not throw: it yields
    [{ items: [], nextPage: 2, error: "yt_html_parse_failed" }]. *)
Theorem fallback_parse_failure (w : world) (q html : string) (s : state) :
  fetch_outcome w (yt_url q) 4500 = Ok html ->
  (forall re, In re patterns -> no_blob re html) ->
  extractJSONFromHTML html = VNull /\
  ytHtmlFallbackSearch w q s
  = (Ok (obj_items_error [] (num 2) "yt_html_parse_failed"),
     {| cache := cache s; fetched := fetched s ++ [yt_url q] |}).
Proof.
  intros Hf Hb. split.
  - now apply extract_with_no_blob.
  - now apply fallback_no_blob with (html := html).
Qed.

(** C9.  Whatever a handler sends, degraded or not, is afterwards a live
    entry of the rendered cache under the inbound key, and a request that
    finds the entry live is answered with the same status and body without
    any fetch.  An entry written by this request stays live for the whole
    TTL: the identical request that comes next within the TTL is answered
    from the cache. *)
Theorem responses_cached (ep : endpoint) (w : world) (url : string)
    (c : lru) :
  reachable c -> route url = Some ep -> origin_form url = true ->
  0 <= CACHE_TTL_S ->
  exists st body s',
    serve ep w url c = (Sent st body, s') /\
    live (now w) url (Rendered st body) (cache s') /\
    (forall w' c',
       live (now w') url (Rendered st body) c' ->
       serve ep w' url c'
       = (Sent st body,
          {| cache := snd (Lru.get (now w') url c'); fetched := [] |})) /\
    (fst (Lru.get (now w) url c) = None ->
     forall w',
       now w' <= now w + CACHE_TTL_S * 1000 ->
       live (now w') url (Rendered st body) (cache s') /\
       serve ep w' url (cache s')
       = (Sent st body,
          {| cache := snd (Lru.get (now w') url (cache s'));
             fetched := [] |})).
Proof.
  intros Hc Hr Ho Ht.
  destruct (serve_stored ep w url c (reachable_ok c Hc) Hr Ho Ht)
    as (st & body & s' & Hs & Hl & Hm).
  exists st, body, s'. split; [exact Hs|]. split; [exact Hl|]. split.
  - intros w' c'. apply serve_hit.
  - intros Hg w' Hw'. pose proof (Hm Hg (now w') Hw') as Hl'.
    split; [exact Hl'|]. now apply serve_hit.
Qed.

(** C10.  A [q] made of white space only is trimmed to the empty string:
    the request is answered like one without [q], with the empty result
    and without a fetch. *)
Theorem whitespace_query_short_circuits (ep : endpoint) (w : world)
    (url s : string) (c : lru) :
  reachable c -> route url = Some ep -> origin_form url = true ->
  req_query url "q" = VStr s -> only_whitespace s ->
  exists c',
    serve ep w url c
    = (Sent 200 (JSON_stringify (empty_payload ep)),
       {| cache := c'; fetched := [] |}).
Proof.
  intros Hc Hr Ho Hq Hs.
  apply empty_query_response;
    [now apply reachable_ok|exact Hr|exact Ho|].
  eapply query_q_whitespace; eassumption.
Qed.

End Statements.

(** ** The statements at work on the finite platform *)

Lemma demo_start :
  Server.reachable (B := Demo.builtins) (C := Demo.config)
    (E := Demo.express) [].
Proof. apply Server.start. Qed.

Lemma offline_down : upstream_down Demo.offline.
Proof. intros u. eexists. reflexivity. Qed.

Lemma nothing_raw : no_raw [].
Proof. intros k _. reflexivity. Qed.

Lemma suggest_status_witness :
  (exists body,
     fst (Demo.serve Suggest Demo.offline "/suggest?q=cats" [])
     = Sent 200 body) /\
  fst (Demo.serve Suggest Demo.offline "/suggest?q=cats" [])
  = Sent 200 "{suggestions:[],error:'upstream_unavailable'}" /\
  exists e,
    fst (Demo.part001 Demo.offline "/suggest?q=cats" [])
    = Sent 502
        (Demo.show (obj_suggestions_error [] (exn_toString e))).
Proof.
  destruct (suggest_status (B := Demo.builtins) (C := Demo.config)
              (E := Demo.express)) as [H1 H2].
  split.
  - apply H1; [exact demo_start|reflexivity|reflexivity].
  - apply (H2 Demo.offline "/suggest?q=cats" []);
      [reflexivity|reflexivity|exact nothing_raw|exact offline_down].
Defined.

(** C1 as stated fails on the first revision: with every upstream down
    its [/suggest] answers 502. *)
Lemma suggest_status_counterexample :
  fst (Demo.part001 Demo.offline "/suggest?q=cats" [])
  = Sent 502 "{suggestions:[],error:'TypeError: fetch failed'}" /\
  forall body,
    fst (Demo.part001 Demo.offline "/suggest?q=cats" []) <> Sent 200 body.
Proof.
  split; [reflexivity|]. intros body H.
  assert (Hs : fst (Demo.part001 Demo.offline "/suggest?q=cats" [])
               = Sent 502 "{suggestions:[],error:'TypeError: fetch failed'}")
    by reflexivity.
  rewrite Hs in H. discriminate H.
Qed.

Lemma tier_fallthrough_witness :
  Demo.part000 Demo.empty_suggest "/suggest?q=cats" []
  = run (try_catch
           (Part000.from_piped (B := Demo.builtins) (C := Demo.config)
              Demo.empty_suggest "/suggest?q=cats" "cats")
           (Part000.unexpected (B := Demo.builtins) (C := Demo.config)
              Demo.empty_suggest "/suggest?q=cats"))
        {| cache :=
             [ {| skey :=
                    "UPSTREAM:https://yewtu.be/api/v1/search/suggestions?q=cats";
                  sval := Raw (VArr []);
                  sstart := 1000; sttl := 600000 |} ];
           fetched := ["https://yewtu.be/api/v1/search/suggestions?q=cats"] |}
  /\
  fst (Demo.serve Search Demo.empty_invidious "/search?q=cats" [])
  = Sent 200 "{items:[],nextPage:2}".
Proof.
  destruct (tier_fallthrough (B := Demo.builtins) (C := Demo.config)
              (E := Demo.express)) as (H1 & _ & H3 & _).
  split.
  - apply (H1 Demo.empty_suggest "/suggest?q=cats" [] (Ok (VArr [])));
      reflexivity.
  - unfold Demo.serve.
    rewrite (H3 Demo.empty_invidious "/search?q=cats" [] (VArr []) []
               {| cache :=
                    [ {| skey :=
                           "UPSTREAM:https://yewtu.be/api/v1/search?q=cats&page=1";
                         sval := Raw (VArr []);
                         sstart := 1000; sttl := 600000 |} ];
                  fetched :=
                    ["https://yewtu.be/api/v1/search?q=cats&page=1"] |});
      reflexivity.
Defined.

(** C2 as stated fails on the current revision: the Invidious tier of
    [/search] got an empty list, that list was sent as the result, and
    Piped, which had a video, was never asked. *)
Lemma tier_fallthrough_counterexample :
  Demo.serve Search Demo.empty_invidious "/search?q=cats" []
  = (Sent 200 "{items:[],nextPage:2}",
     {| cache :=
          [ {| skey := "/search?q=cats";
               sval := Rendered 200 "{items:[],nextPage:2}";
               sstart := 1000; sttl := 600000 |};
            {| skey := "UPSTREAM:https://yewtu.be/api/v1/search?q=cats&page=1";
               sval := Raw (VArr []);
               sstart := 1000; sttl := 600000 |} ];
        fetched := ["https://yewtu.be/api/v1/search?q=cats&page=1"] |}) /\
  net Demo.empty_invidious
      "https://pipedapi.kavin.rocks/search?query=cats&page=1"
  = Response true "200 OK" "videos" /\
  Server.search_items Server.piped_item (VArr [Demo.a_video])
  <> Ok [].
Proof.
  split; [reflexivity|]. split; [reflexivity|]. discriminate.
Qed.

Lemma rendered_hit_witness :
  live 1000 "/search?q=cats" (Rendered 200 "{items:[]}") Demo.warm /\
  Demo.serve Search Demo.offline "/search?q=cats" Demo.warm
  = (Sent 200 "{items:[]}", {| cache := Demo.warm; fetched := [] |}).
Proof.
  assert (Hl : live 1000 "/search?q=cats" (Rendered 200 "{items:[]}")
                    Demo.warm)
    by (eexists; repeat split).
  split; [exact Hl|].
  exact (rendered_hit_short_circuits (B := Demo.builtins)
           (C := Demo.config) (E := Demo.express)
           Search Demo.offline "/search?q=cats" Demo.warm 200 "{items:[]}" Hl).
Defined.






Lemma empty_query_witness :
  exists c',
    Demo.serve Search Demo.offline "/search?q=" []
    = (Sent 200 "{items:[],nextPage:null}", {| cache := c'; fetched := [] |}).
Proof.
  apply (empty_query_short_circuits (B := Demo.builtins) (C := Demo.config)
           (E := Demo.express) Search Demo.offline "/search?q=" []);
    [exact demo_start|reflexivity|reflexivity|right; reflexivity].
Defined.

Lemma bare_page_no_blob (re : Regex.regex) :
  In re Server.patterns ->
  no_blob (B := Demo.builtins) re "<html><body>consent</body></html>".
Proof.
  intros [<-|[<-|[<-|[]]]]; exact I.
Qed.

Lemma fallback_parse_failure_witness :
  Server.ytHtmlFallbackSearch (B := Demo.builtins) (C := Demo.config)
    Demo.bare_page "cats" {| cache := []; fetched := [] |}
  = (Ok (obj_items_error [] (num 2) "yt_html_parse_failed"),
     {| cache := [];
        fetched :=
          ["https://www.youtube.com/results?search_query=cats&hl=en&gl=US"] |}).
Proof.
  exact (proj2 (fallback_parse_failure (B := Demo.builtins)
                  (C := Demo.config) Demo.bare_page "cats"
                  "<html><body>consent</body></html>"
                  {| cache := []; fetched := [] |} eq_refl
                  bare_page_no_blob)).
Defined.

Lemma responses_cached_witness :
  exists st body s',
    Demo.serve Suggest Demo.offline "/suggest?q=cats" []
    = (Sent st body, s') /\
    live 1000 "/suggest?q=cats" (Rendered st body) (cache s') /\
    fetched (snd (Demo.serve Suggest Demo.offline "/suggest?q=cats" (cache s')))
    = [].
Proof.
  destruct (responses_cached (B := Demo.builtins) (C := Demo.config)
              (E := Demo.express) Suggest Demo.offline "/suggest?q=cats" []
              demo_start eq_refl eq_refl)
    as (st & body & s' & Hs & Hl & _ & Hm); [discriminate|].
  exists st, body, s'. split; [exact Hs|]. split; [exact Hl|].
  destruct (Hm eq_refl Demo.offline) as [_ Hn]; [discriminate|].
  unfold Demo.serve. now rewrite Hn.
Defined.

Lemma two_spaces : only_whitespace "  ".
Proof.
  exists [" "; " "]. split; [|reflexivity].
  repeat constructor; simpl; tauto.
Qed.

Lemma whitespace_query_witness :
  exists c',
    Demo.serve Suggest Demo.offline "/suggest?q=  " []
    = (Sent 200 "{suggestions:[]}", {| cache := c'; fetched := [] |}).
Proof.
  apply (whitespace_query_short_circuits (B := Demo.builtins)
           (C := Demo.config) (E := Demo.express)
           Suggest Demo.offline "/suggest?q=  " "  " []);
    [exact demo_start|reflexivity|reflexivity|reflexivity|exact two_spaces].
Defined.

End Claims.

(* ===================================================================== *)
(** * Rules for the promises of a revision *)
(* ===================================================================== *)

Module ShapeFacts.

Import Js Lru Rt Props Shape LruFacts StrFacts.
Local Open Scope Z_scope.
Local Open Scope js_scope.

Section Rules.

Context {B : Builtins} {C : Config} {E : Express}.

Variable rendered_ok : string -> Z -> string -> Prop.


Lemma maintains_weaken {A : Type} (Q R : A -> Prop) (m : M A) :
  (forall a, Q a -> R a) -> maintains rendered_ok Q m -> maintains rendered_ok R m.
Proof.
  intros HQR Hm s Hs. destruct (Hm s Hs) as [Hc Ha]. split; auto.
Qed.

Lemma maintains_ret {A : Type} (Q : A -> Prop) (a : A) :
  Q a -> maintains rendered_ok Q (ret a).
Proof. intros Ha s Hs. simpl. split; [exact Hs|]. now intros ? [= <-]. Qed.

Lemma maintains_throw {A : Type} (Q : A -> Prop) (e : exn) :
  maintains rendered_ok Q (throw e).
Proof. intros s Hs. simpl. split; [exact Hs|]. discriminate. Qed.

Lemma maintains_lift {A : Type} (Q : A -> Prop) (r : result A) :
  (forall a, r = Ok a -> Q a) -> maintains rendered_ok Q (lift r).
Proof. intros Hr s Hs. simpl. split; [exact Hs|exact Hr]. Qed.

Lemma maintains_bind {A X : Type} (Q : A -> Prop) (R : X -> Prop) (m : M A)
    (k : A -> M X) :
  maintains rendered_ok Q m -> (forall a, Q a -> maintains rendered_ok R (k a)) ->
  maintains rendered_ok R (bind m k).
Proof.
  intros Hm Hk s Hs. unfold bind. destruct (Hm s Hs) as [Hc Ha].
  destruct (m s) as [[a|e] s']; simpl in *.
  - apply Hk; auto.
  - split; [exact Hc|discriminate].
Qed.

Lemma maintains_try {A : Type} (Q : A -> Prop) (m : M A) (h : exn -> M A) :
  maintains rendered_ok Q m -> (forall e, maintains rendered_ok Q (h e)) ->
  maintains rendered_ok Q (try_catch m h).
Proof.
  intros Hm Hh s Hs. unfold try_catch. destruct (Hm s Hs) as [Hc Ha].
  destruct (m s) as [[a|e] s']; simpl in *.
  - split; [exact Hc|]. intros ? [= <-]. auto.
  - apply Hh. exact Hc.
Qed.

Lemma maintains_cache_get (w : world) (k : string) :
  maintains rendered_ok (fun hit => forall v, hit = Some v ->
               exists s, skey s = k /\ sval s = v /\ slot_good rendered_ok s)
            (cache_get w k).
Proof.
  intros s Hs. unfold cache_get.
  pose proof (get_keeps (slot_good rendered_ok) (now w) k (cache s) Hs) as Hk.
  pose proof (get_hit (slot_good rendered_ok) (now w) k (cache s)) as Hh.
  destruct (Lru.get (now w) k (cache s)) as [hit c]; simpl in *.
  split; [exact Hk|]. intros a [= <-] v ->. now apply Hh.
Qed.

Lemma maintains_cache_has (w : world) (k : string) :
  maintains rendered_ok (fun _ => True) (cache_has w k).
Proof. intros s Hs. simpl. auto. Qed.

Lemma maintains_issue (url : string) : maintains rendered_ok (fun _ => True) (issue url).
Proof. intros s Hs. simpl. auto. Qed.

Lemma maintains_set_raw (w : world) (k : string) (v : value) :
  upstream_key k = true -> maintains rendered_ok (fun _ => True) (cache_set w k (Raw v)).
Proof.
  intros Hk s Hs. simpl. split; [|auto].
  apply set_keeps; [exact Hs|exact Hk].
Qed.

Lemma attempts_sendJson (w : world) (key : string) (payload : value)
    (status : Z) :
  rendered_ok key status (JSON_stringify payload) ->
  attempts rendered_ok key (sendJson w key payload status).
Proof.
  intros Hok s Hs. cbn. split.
  - apply set_keeps; [exact Hs|exact Hok].
  - intros a [= <-] _. now exists status, (JSON_stringify payload).
Qed.

Lemma attempts_bind {A : Type} (Q : A -> Prop) (key : string) (m : M A)
    (k : A -> M response) :
  maintains rendered_ok Q m ->
  (forall a, Q a -> attempts rendered_ok key (k a)) ->
  attempts rendered_ok key (bind m k).
Proof. apply maintains_bind. Qed.

Lemma attempts_try (key : string) (m : M response) (h : exn -> M response) :
  attempts rendered_ok key m -> (forall e, attempts rendered_ok key (h e)) ->
  attempts rendered_ok key (try_catch m h).
Proof. apply maintains_try. Qed.

(** The cache lookup that opens every handler. *)
Lemma attempts_lookup (w : world) (key : string) (miss : M response) :
  attempts rendered_ok key miss ->
  attempts rendered_ok key
    (hit <- cache_get w key ;;
     match hit with
     | Some h => replay h
     | None => miss
     end).
Proof.
  intros Hm s Hs. unfold bind.
  destruct (maintains_cache_get w key s Hs) as [Hc Hh].
  destruct (cache_get w key s) as [[hit|e] s'] eqn:Hg; simpl in *.
  - destruct hit as [h|]; [|now apply Hm].
    destruct (Hh (Some h) eq_refl h eq_refl) as (sl & Hk & Hv & Hgood).
    unfold slot_good in Hgood. rewrite Hv, Hk in Hgood.
    destruct h as [status body|v]; simpl.
    + split; [exact Hc|]. intros a [= <-] _. now exists status, body.
    + split; [exact Hc|]. intros a _ Ho.
      rewrite origin_not_upstream in Hgood by exact Ho. discriminate.
  - split; [exact Hc|discriminate].
Qed.

(** A handler that keeps its promise leaves a cache that keeps it, and
    answers an inbound URL as promised if it answers at all. *)
Lemma attempts_run (key : string) (m : M response) (c : lru) :
  attempts rendered_ok key m ->
  cache_good rendered_ok c ->
  cache_good rendered_ok
    (cache (snd (run m {| cache := c; fetched := [] |}))) /\
  (total m -> origin_form key = true ->
   answer_ok rendered_ok key
     (fst (run m {| cache := c; fetched := [] |}))).
Proof.
  intros Hm Hc. unfold run.
  destruct (Hm {| cache := c; fetched := [] |} Hc) as [Hc' Ha].
  split.
  - destruct (m _) as [[r|e] s']; exact Hc'.
  - intros Ht Ho. destruct (Ht {| cache := c; fetched := [] |}) as [r Hr].
    destruct (m _) as [[r'|e] s']; simpl in *; [|discriminate].
    now apply Ha.
Qed.

Lemma total_lookup (w : world) (key : string) (miss : M response) :
  total miss ->
  total (hit <- cache_get w key ;;
         match hit with
         | Some h => replay h
         | None => miss
         end).
Proof.
  intros Hm s. unfold bind, cache_get.
  destruct (Lru.get (now w) key (cache s)) as [[h|] c'].
  - destruct h; simpl; eauto.
  - apply Hm.
Qed.

Lemma total_if {A : Type} (b : bool) (m n : M A) :
  total m -> total n -> total (if b then m else n).
Proof. now destruct b. Qed.

End Rules.

End ShapeFacts.

(* ===================================================================== *)
(** * What each revision promises of its responses *)
(* ===================================================================== *)

Module RevisionFacts.

Import Js Lru Rt Props Shape LruFacts StrFacts MonadFacts ServerFacts
       ShapeFacts.
Local Open Scope Z_scope.
Local Open Scope js_scope.

Ltac maintain_by leaf :=
  lazymatch goal with
  | |- maintains _ _ (bind _ _) =>
      eapply maintains_bind with (Q := fun _ => True);
        [maintain_by leaf | intros ? _; maintain_by leaf]
  | |- maintains _ _ (ret _) => now apply maintains_ret
  | |- maintains _ _ (lift _) => now apply maintains_lift
  | |- maintains _ _ (throw _) => apply maintains_throw
  | |- maintains _ _ (cache_has _ _) => apply maintains_cache_has
  | |- maintains _ _ (cache_get _ _) =>
      eapply maintains_weaken; [|apply maintains_cache_get]; trivial
  | |- maintains _ _ (issue _) => apply maintains_issue
  | |- maintains _ _ (cache_set _ _ (Raw _)) =>
      apply maintains_set_raw, upstream_key_intro
  | |- maintains _ _ (try_catch _ _) =>
      apply maintains_try; [maintain_by leaf | intros ?; maintain_by leaf]
  | |- maintains _ _ (if ?b then _ else _) => destruct b; maintain_by leaf
  | _ => leaf
  end.

Ltac maintain0 := maintain_by ltac:(idtac).

Section Upstream.

Context {B : Builtins} {C : Config} {E : Express}.

Variable rendered_ok : string -> Z -> string -> Prop.

Lemma maintains_part000_getCachedJson (w : world) (url : string) (t : Z) :
  maintains rendered_ok (fun _ => True) (Part000.getCachedJson w url t).
Proof. unfold Part000.getCachedJson, Part000.fetchJson. maintain0. Qed.

Lemma maintains_part000_firstOk (w : world) (urls : list string) (t : Z) :
  maintains rendered_ok (fun _ => True) (Part000.firstOk w urls t).
Proof.
  unfold Part000.firstOk. generalize (@None exn).
  induction urls as [|u r IH]; intros lastErr; cbn [Part000.firstOk_from].
  - destruct lastErr; apply maintains_throw.
  - apply maintains_try; [apply maintains_part000_getCachedJson|].
    intros e. apply IH.
Qed.

Lemma maintains_part001_getCachedJson (w : world) (url : string) :
  maintains rendered_ok (fun _ => True)
    (Part001.getCachedJson w url ("UPSTREAM:" +++ url)).
Proof. unfold Part001.getCachedJson. maintain0. Qed.

Lemma maintains_server0_getCachedJson (w : world) (url : string) (t : Z) :
  maintains rendered_ok (fun _ => True)
    (Server0.getCachedJson w url ("UPSTREAM:" +++ url) t).
Proof. unfold Server0.getCachedJson. maintain0. Qed.

Lemma maintains_server0_firstOk (w : world) (urls : list string) :
  maintains rendered_ok (fun _ => True) (Server0.firstOk w urls).
Proof.
  unfold Server0.firstOk. generalize (@None exn).
  induction urls as [|u r IH]; intros lastErr; cbn [Server0.firstOk_from].
  - destruct lastErr; apply maintains_throw.
  - apply maintains_try; [apply maintains_server0_getCachedJson|].
    intros e. apply IH.
Qed.

Lemma maintains_getCached_start (w : world) (key url : string) (t : Z) :
  upstream_key key = true ->
  maintains rendered_ok pending_ok (Server.getCached_start w key url t).
Proof.
  intros Hk. unfold Server.getCached_start.
  eapply maintains_bind; [apply maintains_cache_get|].
  intros [h|] _.
  - now apply maintains_ret.
  - eapply maintains_bind; [apply maintains_issue|]. intros _ _.
    now apply maintains_ret.
Qed.

Lemma maintains_settle (w : world) (p : Server.pending) :
  pending_ok p -> maintains rendered_ok (fun _ => True) (Server.settle w p).
Proof.
  destruct p as [v|key lat [v|e]]; simpl; intros Hp.
  - now apply maintains_ret.
  - eapply maintains_bind; [now apply maintains_set_raw|]. intros _ _.
    now apply maintains_ret.
  - apply maintains_throw.
Qed.

Lemma maintains_getCached (w : world) (url : string) (t : Z) :
  maintains rendered_ok (fun _ => True)
    (Server.getCached w ("UPSTREAM:" +++ url) url t).
Proof.
  unfold Server.getCached.
  eapply maintains_bind;
    [apply maintains_getCached_start, upstream_key_intro|].
  intros p Hp. now apply maintains_settle.
Qed.

Lemma maintains_candidates (w : world) (urls : list string) :
  maintains rendered_ok (Forall pending_ok) (Server.candidates w urls).
Proof.
  induction urls as [|u r IH]; simpl.
  - now apply maintains_ret.
  - eapply maintains_bind;
      [apply maintains_getCached_start, upstream_key_intro|].
    intros p Hp. eapply maintains_bind; [exact IH|].
    intros ps Hps. apply maintains_ret. now constructor.
Qed.

Lemma maintains_race (w : world) (urls : list string) :
  maintains rendered_ok (fun _ => True) (Server.race w urls).
Proof.
  unfold Server.race. eapply maintains_bind; [apply maintains_candidates|].
  intros ps Hps. unfold Server.firstResolved.
  destruct (Server.winner ps) as [p|] eqn:Hw; [|apply maintains_throw].
  apply maintains_settle. eapply winner_ok; eassumption.
Qed.

Lemma maintains_ytHtmlFallbackSearch (w : world) (q : string) :
  maintains rendered_ok (fun _ => True) (Server.ytHtmlFallbackSearch w q).
Proof.
  unfold Server.ytHtmlFallbackSearch, Server.fetchText.
  eapply maintains_bind with (Q := fun _ => True); [maintain0|].
  intros html _. destruct (negb _); maintain0.
Qed.

End Upstream.

Ltac upstream :=
  first [ apply maintains_part000_firstOk
        | apply maintains_part000_getCachedJson
        | apply maintains_part001_getCachedJson
        | apply maintains_server0_firstOk
        | apply maintains_server0_getCachedJson
        | apply maintains_race
        | apply maintains_getCached
        | apply maintains_ytHtmlFallbackSearch ].

Ltac maintain := maintain_by upstream.

Ltac attempt_by promise :=
  lazymatch goal with
  | |- attempts _ _ (sendJson _ _ _ _) => apply attempts_sendJson; promise
  | |- attempts _ _ (bind (cache_get _ _) _) =>
      apply attempts_lookup; attempt_by promise
  | |- attempts _ _ (bind _ _) =>
      eapply attempts_bind with (Q := fun _ => True);
        [maintain | intros ? _; attempt_by promise]
  | |- attempts _ _ (try_catch _ _) =>
      apply attempts_try; [attempt_by promise | intros ?; attempt_by promise]
  | |- attempts _ _ (if ?b then _ else _) => destruct b; attempt_by promise
  | _ => idtac
  end.

Section Revisions.

Context {B : Builtins} {C : Config} {E : Express}.

(** ** [part_000] *)

Lemma attempts_or_else (rendered_ok : string -> Z -> string -> Prop)
    (key : string) (a : M (option response)) (b : M response) :
  maintains rendered_ok
    (fun o => forall r, o = Some r ->
                origin_form key = true -> answer_ok rendered_ok key r) a ->
  attempts rendered_ok key b ->
  attempts rendered_ok key (Part000.or_else a b).
Proof.
  intros Ha Hb. unfold Part000.or_else.
  eapply maintains_bind; [exact Ha|].
  intros [r|] Hr; [|exact Hb]. apply maintains_ret. now apply Hr.
Qed.

Lemma maintains_some (rendered_ok : string -> Z -> string -> Prop)
    (key : string) (m : M response) :
  attempts rendered_ok key m ->
  maintains rendered_ok
    (fun o => forall r, o = Some r ->
                origin_form key = true -> answer_ok rendered_ok key r)
    (r <- m ;; ret (Some r)).
Proof.
  intros Hm. eapply maintains_bind; [exact Hm|].
  intros r Hr. apply maintains_ret. now intros ? [= <-].
Qed.

Lemma part000_suggest_attempts (w : world) (url : string) :
  attempts always_200 url (Part000.suggest w url).
Proof.
  unfold Part000.suggest. cbv zeta. apply attempts_lookup.
  destruct (Str.is_empty (query_q url));
    [now apply attempts_sendJson|].
  apply attempts_try; [|intros e; now apply attempts_sendJson].
  unfold Part000.from_invidious, Part000.from_piped, Part000.from_google,
    Part000.pool_tier, Part000.google_tier, Part000.attempt.
  repeat (apply attempts_or_else;
          [apply maintains_try; [|intros; now apply maintains_ret]|]).
  - eapply maintains_bind with (Q := fun _ => True); [maintain|].
    intros raw _.
    destruct (Part000.nonempty_array _); [|now apply maintains_ret].
    eapply maintains_bind with (Q := fun _ => True); [maintain|].
    intros l _. apply maintains_some. now apply attempts_sendJson.
  - eapply maintains_bind with (Q := fun _ => True); [maintain|].
    intros raw _.
    destruct (Part000.nonempty_array _); [|now apply maintains_ret].
    eapply maintains_bind with (Q := fun _ => True); [maintain|].
    intros l _. apply maintains_some. now apply attempts_sendJson.
  - eapply maintains_bind with (Q := fun _ => True); [maintain|].
    intros raw _.
    eapply maintains_bind with (Q := fun _ => True); [maintain|].
    intros l _. apply maintains_some. now apply attempts_sendJson.
  - now apply attempts_sendJson.
Qed.

Lemma part000_attempts (ep : endpoint) (w : world) (url : string) :
  attempts always_200 url (Part000.handler ep w url).
Proof.
  destruct ep; cbn [Part000.handler];
    [apply part000_suggest_attempts
    |unfold Part000.channels|unfold Part000.search];
    cbv zeta; attempt_by ltac:(reflexivity).
Qed.

Lemma part000_total (ep : endpoint) (w : world) (url : string) :
  total (Part000.handler ep w url).
Proof.
  destruct ep; cbn [Part000.handler];
    [unfold Part000.suggest|unfold Part000.channels|unfold Part000.search];
    cbv zeta; apply total_lookup, total_if;
      try apply total_sendJson; apply total_try; intros;
      apply total_sendJson.
Qed.

Lemma part000_reachable_good (c : lru) :
  Part000.reachable c -> cache_good always_200 c.
Proof.
  induction 1 as [|c w url ep _ IH _]; [constructor|].
  unfold Part000.serve.
  apply (attempts_run always_200 url); [apply part000_attempts|exact IH].
Qed.

(** ** The first program of [server.js] *)

Lemma server0_attempts (ep : endpoint) (w : world) (url : string) :
  attempts always_200 url (Server0.handler ep w url).
Proof.
  destruct ep; cbn [Server0.handler];
    [unfold Server0.suggest|unfold Server0.channels|unfold Server0.search];
    unfold Server0.soft_fail; cbv zeta; attempt_by ltac:(reflexivity).
Qed.

Lemma server0_total (ep : endpoint) (w : world) (url : string) :
  total (Server0.handler ep w url).
Proof.
  destruct ep; cbn [Server0.handler];
    [unfold Server0.suggest|unfold Server0.channels|unfold Server0.search];
    cbv zeta; apply total_lookup, total_if;
      try apply total_sendJson; apply total_try; intros;
      apply total_sendJson.
Qed.

Lemma server0_reachable_good (c : lru) :
  Server0.reachable c -> cache_good always_200 c.
Proof.
  induction 1 as [|c w url ep _ IH _]; [constructor|].
  unfold Server0.serve.
  apply (attempts_run always_200 url); [apply server0_attempts|exact IH].
Qed.

(** ** [part_001] *)

Lemma ok_or_502_ok (key body : string) : ok_or_502 key 200 body.
Proof. now left. Qed.

Lemma part001_attempts (ep : endpoint) (w : world) (url : string) :
  attempts ok_or_502 url (Part001.handler ep w url).
Proof.
  destruct ep; cbn [Part001.handler];
    [unfold Part001.suggest|unfold Part001.channels|unfold Part001.search];
    unfold Part001.bad_gateway; cbv zeta;
    (apply attempts_try;
     [ attempt_by ltac:(apply ok_or_502_ok)
     | intros e; apply attempts_sendJson; right; split; [reflexivity|];
       eexists; split; [|reflexivity]; exists (exn_toString e); auto ]).
Qed.

Lemma part001_total (ep : endpoint) (w : world) (url : string) :
  total (Part001.handler ep w url).
Proof.
  destruct ep; cbn [Part001.handler];
    [unfold Part001.suggest|unfold Part001.channels|unfold Part001.search];
    apply total_try; intros; apply total_sendJson.
Qed.

Lemma part001_reachable_good (c : lru) :
  Part001.reachable c -> cache_good ok_or_502 c.
Proof.
  induction 1 as [|c w url ep _ IH _]; [constructor|].
  unfold Part001.serve.
  apply (attempts_run ok_or_502 url); [apply part001_attempts|exact IH].
Qed.

(** ** Responses that were just stored *)

Lemma ends_stored_sendJson (w : world) (key : string) (payload : value)
    (status : Z) :
  ends_stored w key (sendJson w key payload status).
Proof.
  intros s r s'. cbn. intros [= <- <-]. cbn. eexists _, _, _.
  split; reflexivity.
Qed.

Lemma ends_stored_bind {A : Type} (w : world) (key : string) (m : M A)
    (k : A -> M response) :
  (forall a, ends_stored w key (k a)) -> ends_stored w key (bind m k).
Proof.
  intros Hk s r s'. unfold bind. destruct (m s) as [[a|e] s1];
    [apply Hk|discriminate].
Qed.

Lemma ends_stored_try (w : world) (key : string) (m : M response)
    (h : exn -> M response) :
  ends_stored w key m -> (forall e, ends_stored w key (h e)) ->
  ends_stored w key (try_catch m h).
Proof.
  intros Hm Hh s r s'. unfold try_catch.
  destruct (m s) as [[a|e] s1] eqn:Hs; [|apply Hh].
  intros [= <- <-]. eapply Hm. exact Hs.
Qed.

Ltac stored :=
  lazymatch goal with
  | |- ends_stored _ _ (sendJson _ _ _ _) => apply ends_stored_sendJson
  | |- ends_stored _ _ (bind _ _) => apply ends_stored_bind; intros ?; stored
  | |- ends_stored _ _ (try_catch _ _) =>
      apply ends_stored_try; [stored | intros ?; stored]
  | |- ends_stored _ _ (if ?b then _ else _) => destruct b; stored
  | _ => idtac
  end.

Lemma lookup_miss_try (w : world) (key : string) (miss : M response)
    (h : exn -> M response) (s : state) :
  fst (Lru.get (now w) key (cache s)) = None ->
  try_catch
    (hit <- cache_get w key ;;
     match hit with
     | Some x => replay x
     | None => miss
     end) h s
  = try_catch miss h
      {| cache := snd (Lru.get (now w) key (cache s));
         fetched := fetched s |}.
Proof.
  intros Hg. unfold try_catch at 1. rewrite hit_or_miss.
  destruct (Lru.get (now w) key (cache s)) as [[x|] c0]; [discriminate|].
  reflexivity.
Qed.

(** On a miss, whatever a handler of [part_001] answers, a 502 included,
    was just stored under the inbound key. *)
Lemma part001_miss_stored (ep : endpoint) (w : world) (url : string)
    (s : state) (r : response) (s' : state) :
  fst (Lru.get (now w) url (cache s)) = None ->
  Part001.handler ep w url s = (Ok r, s') ->
  stored_by w url r (cache s').
Proof.
  intros Hg H.
  destruct ep; cbn [Part001.handler] in H;
    [unfold Part001.suggest in H|unfold Part001.channels in H
    |unfold Part001.search in H];
    cbv zeta in H; rewrite lookup_miss_try in H by exact Hg;
    revert H;
    apply (fun Hm Hh => ends_stored_try w url _ _ Hm Hh _ r s');
    try (intros e; apply ends_stored_sendJson); stored.
Qed.

(** A live rendered entry under the inbound key is replayed by every
    handler of [part_001]. *)
Lemma part001_replays (ep : endpoint) (w : world) (url : string) (s : state)
    (status : Z) (body : string) :
  fst (Lru.get (now w) url (cache s)) = Some (Rendered status body) ->
  fst (Part001.handler ep w url s) = Ok (Sent status body) /\
  fetched (snd (Part001.handler ep w url s)) = fetched s.
Proof.
  intros Hg.
  destruct ep; cbn [Part001.handler];
    [unfold Part001.suggest|unfold Part001.channels|unfold Part001.search];
    cbv zeta; unfold try_catch at 1 3; rewrite hit_or_miss;
    (destruct (Lru.get (now w) url (cache s)) as [[x|] c0];
     [|discriminate]);
    simpl in Hg; injection Hg as ->; split; reflexivity.
Qed.

End Revisions.

End RevisionFacts.

(* ===================================================================== *)
(** * What the current revision promises of [/channels] *)
(* ===================================================================== *)

Module ChannelsFacts.

Import Js Lru Rt Props Shape Server LruFacts StrFacts MonadFacts ServerFacts
       NormalizerFacts PipelineFacts ShapeFacts RevisionFacts.
Local Open Scope Z_scope.
Local Open Scope js_scope.

Section Facts.

Context {B : Builtins} {C : Config} {E : Express}.









End Facts.

End ChannelsFacts.

(* ===================================================================== *)
(** * Facts about the races and the raw cache *)
(* ===================================================================== *)

Module RaceFacts.

Import Js Lru Rt Props Server Upstream LruFacts.
Local Open Scope Z_scope.
Local Open Scope js_scope.

Lemma find_remove_same (k : string) (c : lru) : find k (remove k c) = None.
Proof.
  induction c as [|x c IH]; simpl; [reflexivity|].
  destruct (String.eqb k (skey x)) eqn:Hk; simpl; [exact IH|].
  now rewrite Hk.
Qed.

Lemma find_remove_other (k k' : string) (c : lru) :
  String.eqb k k' = false -> find k (remove k' c) = find k c.
Proof.
  intros Hkk. induction c as [|x c IH]; simpl; [reflexivity|].
  destruct (String.eqb k' (skey x)) eqn:Hk'; simpl.
  - apply String.eqb_eq in Hk'. subst k'. now rewrite Hkk.
  - now rewrite IH.
Qed.

(** A lookup changes no later lookup. *)
Lemma get_same_hits (now : Z) (k' : string) (c : lru) :
  same_hits now c (snd (Lru.get now k' c)).
Proof.
  intros k. unfold lookup_at, Lru.get.
  destruct (find k' c) as [s'|] eqn:Hf'; [|reflexivity].
  destruct (find_slot _ _ _ Hf') as [_ Hs'].
  destruct (String.eqb k k') eqn:Hkk.
  - apply String.eqb_eq in Hkk. rewrite Hkk, Hf'.
    destruct (stale now s') eqn:Hst; simpl.
    + now rewrite find_remove_same.
    + rewrite Hs', String.eqb_refl. now rewrite Hst.
  - destruct (stale now s') eqn:Hst; simpl; [|rewrite Hs', Hkk];
      rewrite find_remove_other by exact Hkk;
      (destruct (find k c) as [x|]; [destruct (stale now x)|]; reflexivity).
Qed.

Lemma same_hits_trans (now : Z) (a b c : lru) :
  same_hits now a b -> same_hits now b c -> same_hits now a c.
Proof. intros H1 H2 k. now rewrite H1. Qed.

Section Facts.

Context {B : Builtins} {C : Config} {E : Express}.

Lemma getCached_start_spec (w : world) (u : string) (s : state) :
  exists c',
    getCached_start w ("UPSTREAM:" +++ u) u UPSTREAM_TIMEOUT_MS s
    = (Ok (start_of w (cache s) u),
       {| cache := c';
          fetched := fetched s ++ (if uncached w (cache s) u then [u] else [])
       |}) /\
    same_hits (now w) (cache s) c'.
Proof.
  pose proof (get_same_hits (now w) ("UPSTREAM:" +++ u) (cache s)) as Hsame.
  unfold getCached_start, bind, cache_get, start_of, uncached, cached_value,
    lookup_at.
  destruct (Lru.get (now w) ("UPSTREAM:" +++ u) (cache s)) as [[h|] c'];
    simpl in *; exists c'; (split; [|exact Hsame]).
  - now rewrite app_nil_r.
  - reflexivity.
Qed.

Lemma start_of_same (w : world) (c c' : lru) (u : string) :
  same_hits (now w) c c' -> start_of w c u = start_of w c' u.
Proof. intros H. unfold start_of, cached_value. now rewrite H. Qed.

Lemma uncached_same (w : world) (c c' : lru) (u : string) :
  same_hits (now w) c c' -> uncached w c u = uncached w c' u.
Proof. intros H. unfold uncached, cached_value. now rewrite H. Qed.

(** The candidates of a race, from the cache that the race finds. *)
Lemma candidates_spec (w : world) (urls : list string) (s : state) :
  exists c',
    candidates w urls s
    = (Ok (map (start_of w (cache s)) urls),
       {| cache := c';
          fetched := fetched s ++ filter (uncached w (cache s)) urls |}) /\
    same_hits (now w) (cache s) c'.
Proof.
  revert s. induction urls as [|u r IH]; intros s; cbn [candidates map filter].
  - exists (cache s). rewrite app_nil_r. destruct s. split; [reflexivity|].
    now intros k.
  - destruct (getCached_start_spec w u s) as (c1 & H1 & Hs1).
    unfold bind at 1. rewrite H1.
    destruct (IH {| cache := c1;
                    fetched := fetched s ++
                               (if uncached w (cache s) u then [u] else []) |})
      as (c2 & H2 & Hs2).
    unfold bind at 1. rewrite H2. cbn [ret cache fetched] in *.
    exists c2. split; [|eapply same_hits_trans; eassumption].
    unfold ret.
    rewrite (map_ext _ _ (fun a => start_of_same w _ _ a Hs1)).
    rewrite (filter_ext _ _ (fun a => uncached_same w _ _ a Hs1)).
    rewrite <- app_assoc.
    now destruct (uncached w (cache s) u).
Qed.

End Facts.

(** ** The winner *)

Lemma fastest_spec (ps : list pending) :
  forall best p,
    (forall b q, best = Some (b, q) -> exists key v, q = InFlight key b (Ok v)) ->
    fastest ps best = Some p ->
    exists key lat v,
      p = InFlight key lat (Ok v) /\
      (In p ps \/ best = Some (lat, p)) /\
      (forall key' lat' v', In (InFlight key' lat' (Ok v')) ps -> lat <= lat') /\
      (forall b q, best = Some (b, q) -> lat <= b).
Proof.
  induction ps as [|x ps IH]; intros best p Hbest; cbn [fastest].
  - destruct best as [[b q]|]; simpl; [|discriminate].
    intros [= <-]. destruct (Hbest b q eq_refl) as (key & v & ->).
    exists key, b, v. repeat split; auto.
    + intros ? ? ? [].
    + intros ? ? [= <- <-]. lia.
  - assert (Hskip :
      (forall key lat v, x <> InFlight key lat (Ok v)) ->
      fastest ps best = Some p ->
      exists key lat v,
        p = InFlight key lat (Ok v) /\
        (In p (x :: ps) \/ best = Some (lat, p)) /\
        (forall key' lat' v',
           In (InFlight key' lat' (Ok v')) (x :: ps) -> lat <= lat') /\
        (forall b q, best = Some (b, q) -> lat <= b)).
    { intros Hx Hf.
      destruct (IH best p Hbest Hf) as (key & lat & v & -> & Hin & Hmin & Hb).
      exists key, lat, v. repeat split; auto.
      - destruct Hin; [left; now right|now right].
      - intros key' lat' v' [Heq|Hin']; [now apply Hx in Heq|eauto]. }
    assert (Htake :
      forall key0 lat0 v0,
        x = InFlight key0 lat0 (Ok v0) ->
        (forall b q, best = Some (b, q) -> lat0 < b) ->
        fastest ps (Some (lat0, x)) = Some p ->
        exists key lat v,
          p = InFlight key lat (Ok v) /\
          (In p (x :: ps) \/ best = Some (lat, p)) /\
          (forall key' lat' v',
             In (InFlight key' lat' (Ok v')) (x :: ps) -> lat <= lat') /\
          (forall b q, best = Some (b, q) -> lat <= b)).
    { intros key0 lat0 v0 -> Hlt Hf.
      destruct (IH (Some (lat0, InFlight key0 lat0 (Ok v0))) p) as
        (key & lat & v & -> & Hin & Hmin & Hb); [|exact Hf|].
      { intros ? ? [= <- <-]. eauto. }
      pose proof (Hb _ _ eq_refl) as Hle.
      exists key, lat, v. repeat split.
      - left. destruct Hin as [Hin|Heq]; [now right|left; congruence].
      - intros key' lat' v' [Heq|Hin']; [|eauto].
        assert (lat' = lat0) by congruence. lia.
      - intros b q Hq. specialize (Hlt b q Hq). lia. }
    destruct x as [v0|key0 lat0 [v0|e0]].
    + apply Hskip. discriminate.
    + destruct best as [[b q]|].
      * destruct (lat0 <? b) eqn:Hlt.
        -- apply (Htake key0 lat0 v0 eq_refl).
           intros ? ? [= <- <-]. now apply Z.ltb_lt.
        -- intros Hf.
           destruct (IH (Some (b, q)) p Hbest Hf)
             as (key & lat & v & -> & Hin & Hmin & Hb).
           pose proof (Hb _ _ eq_refl) as Hle. apply Z.ltb_ge in Hlt.
           exists key, lat, v. repeat split; auto.
           ++ destruct Hin; [left; now right|now right].
           ++ intros key' lat' v' [Heq|Hin']; [|eauto].
              assert (lat' = lat0) by congruence. lia.
      * apply (Htake key0 lat0 v0 eq_refl). discriminate.
    + apply Hskip. discriminate.
Qed.

Lemma fastest_none (ps : list pending) :
  forall best,
    fastest ps best = None ->
    best = None /\
    forall key lat v, ~ In (InFlight key lat (Ok v)) ps.
Proof.
  induction ps as [|x ps IH]; intros best; cbn [fastest].
  - destruct best as [[b q]|]; simpl; [discriminate|]. auto.
  - destruct x as [v0|key0 lat0 [v0|e0]].
    + intros H. destruct (IH best H) as [-> Hn]. split; [reflexivity|].
      intros key lat v [Heq|Hin]; [discriminate|eapply Hn; eassumption].
    + destruct best as [[b q]|]; [destruct (lat0 <? b)|]; intros H;
        destruct (IH _ H) as [Hb _]; discriminate.
    + intros H. destruct (IH best H) as [-> Hn]. split; [reflexivity|].
      intros key lat v [Heq|Hin]; [discriminate|eapply Hn; eassumption].
Qed.

Section Winner.

Context {B : Builtins} {C : Config} {E : Express}.

Lemma find_settled (w : world) (c : lru) (urls : list string) :
  List.find is_settled (map (start_of w c) urls)
  = option_map (start_of w c)
      (List.find (fun u => negb (uncached w c u)) urls).
Proof.
  induction urls as [|u r IH]; simpl; [reflexivity|].
  unfold start_of at 1, uncached at 1.
  destruct (cached_value w c u) as [v|] eqn:Hc; simpl.
  - unfold start_of. now rewrite Hc.
  - exact IH.
Qed.

Lemma find_settled_none (w : world) (c : lru) (urls : list string) :
  Forall (fun u => cached_value w c u = None) urls ->
  List.find is_settled (map (start_of w c) urls) = None.
Proof.
  induction 1 as [|u r Hu _ IH]; simpl; [reflexivity|].
  unfold start_of at 1. now rewrite Hu.
Qed.

(** The race is lost by every candidate exactly when none is cached and
    every fetch fails. *)
Lemma winner_none (w : world) (c : lru) (urls : list string) :
  winner (map (start_of w c) urls) = None <-> Forall (lost w c) urls.
Proof.
  split.
  - unfold winner.
    destruct (List.find is_settled _) as [p|] eqn:Hf; [discriminate|].
    intros Hn. apply fastest_none in Hn. destruct Hn as [_ Hn].
    apply Forall_forall. intros u Hu. unfold lost.
    pose proof (List.find_none _ _ Hf (start_of w c u)
                  (in_map _ _ _ Hu)) as Hs.
    pose proof (in_map (start_of w c) _ _ Hu) as Hin.
    unfold start_of in Hs, Hin.
    destruct (cached_value w c u) as [v|]; [discriminate|].
    split; [reflexivity|].
    destruct (fetchJson_outcome w u UPSTREAM_TIMEOUT_MS) as [v|e] eqn:Ho;
      [|eauto].
    exfalso. eapply Hn. exact Hin.
  - intros Hl. unfold winner.
    rewrite find_settled_none
      by (eapply Forall_impl; [|exact Hl]; now intros u [Hu _]).
    induction Hl as [|u r [Hu [e He]] _ IH]; simpl; [reflexivity|].
    unfold start_of at 1. rewrite Hu, He. exact IH.
Qed.

Lemma winner_settles (ps : list pending) (p : pending) :
  winner ps = Some p ->
  (exists v, p = Settled v) \/ (exists key lat v, p = InFlight key lat (Ok v)).
Proof.
  unfold winner. destruct (List.find is_settled ps) as [q|] eqn:Hf.
  - intros [= <-]. apply List.find_some in Hf. destruct Hf as [_ Hq].
    destruct q; [eauto|discriminate].
  - intros Hf'. apply fastest_spec in Hf'; [|discriminate].
    destruct Hf' as (key & lat & v & -> & _). eauto 6.
Qed.

(** A race, by its winner. *)
Lemma race_spec (w : world) (urls : list string) (s : state) :
  exists c',
    same_hits (now w) (cache s) c' /\
    let s' := {| cache := c';
                 fetched := fetched s ++ filter (uncached w (cache s)) urls |}
    in
    race w urls s
    = match winner (map (start_of w (cache s)) urls) with
      | None => (Throw AggregateError, s')
      | Some p => settle w p s'
      end.
Proof.
  destruct (candidates_spec w urls s) as (c' & Hc & Hs).
  exists c'. split; [exact Hs|]. cbv zeta.
  unfold race, bind. rewrite Hc. unfold firstResolved.
  now destruct (winner _).
Qed.

(** [getCached] on a miss. *)
Lemma getCached_miss (w : world) (key url : string) (t : Z) (s : state) :
  lookup_at (now w) (cache s) key = None ->
  Server.getCached w key url t s
  = match fetchJson_outcome w url t with
    | Ok v =>
        (Ok v,
         {| cache := Lru.set CACHE_MAX (now w) key (Raw v)
                       (CACHE_TTL_S * 1000)
                       (snd (Lru.get (now w) key (cache s)));
            fetched := fetched s ++ [url] |})
    | Throw e =>
        (Throw e,
         {| cache := snd (Lru.get (now w) key (cache s));
            fetched := fetched s ++ [url] |})
    end.
Proof.
  unfold lookup_at, Server.getCached, Server.getCached_start, bind, cache_get.
  destruct (Lru.get (now w) key (cache s)) as [hit c1]. simpl.
  intros ->. cbn. now destruct (fetchJson_outcome w url t).
Qed.

(** [getCached] on a hit. *)
Lemma getCached_hit (w : world) (key url : string) (t : Z) (s : state)
    (h : cached) :
  lookup_at (now w) (cache s) key = Some h ->
  Server.getCached w key url t s
  = (Ok (hit_value h),
     {| cache := snd (Lru.get (now w) key (cache s));
        fetched := fetched s |}).
Proof.
  unfold lookup_at, Server.getCached, Server.getCached_start, bind, cache_get.
  destruct (Lru.get (now w) key (cache s)) as [hit c1]. simpl.
  now intros ->.
Qed.

End Winner.

End RaceFacts.

(* ===================================================================== *)
(** * Facts about the revisions that call mirrors one after the other *)
(* ===================================================================== *)

Module SequentialFacts.

Import Js Lru Rt Props Upstream LruFacts.
Local Open Scope Z_scope.
Local Open Scope js_scope.

Section Facts.

Context {B : Builtins} {C : Config} {E : Express}.

Lemma part000_getCachedJson_fails (w : world) (u : string) (t : Z) (e : exn)
    (s : state) :
  fails_with w (cache s) t u e ->
  Part000.getCachedJson w u t s
  = (Throw e, {| cache := cache s; fetched := fetched s ++ [u] |}).
Proof.
  intros [Hh Ho]. unfold json_outcome in Ho.
  unfold Part000.getCachedJson, Part000.fetchJson, bind, cache_has.
  rewrite Hh. cbn. now rewrite Ho.
Qed.

Lemma part000_getCachedJson_fetches (w : world) (u : string) (t : Z)
    (v : value) (s : state) :
  Lru.has (now w) ("UPSTREAM:" +++ u) (cache s) = false ->
  json_outcome w u t = Ok v ->
  Part000.getCachedJson w u t s
  = (Ok v,
     {| cache := Lru.set CACHE_MAX (now w) ("UPSTREAM:" +++ u) (Raw v)
                   (CACHE_TTL_S * 1000) (cache s);
        fetched := fetched s ++ [u] |}).
Proof.
  intros Hh Ho. unfold json_outcome in Ho.
  unfold Part000.getCachedJson, Part000.fetchJson, bind, cache_has.
  rewrite Hh. cbn. now rewrite Ho.
Qed.

(** The mirrors that fail are passed over, each at the cost of a fetch. *)
Lemma part000_firstOk_skips (w : world) (t : Z) (pre rest : list string)
    (lastErr : option exn) (s : state) :
  Forall (fun x => exists e, fails_with w (cache s) t x e) pre ->
  exists lastErr',
    Part000.firstOk_from w (pre ++ rest) t lastErr s
    = Part000.firstOk_from w rest t lastErr'
        {| cache := cache s; fetched := fetched s ++ pre |}.
Proof.
  intros Hpre. revert lastErr s Hpre.
  induction pre as [|x pre IH]; intros lastErr s Hpre.
  - exists lastErr. rewrite app_nil_r. now destruct s.
  - inversion Hpre as [|? ? [e He] Hpre']; subst.
    destruct (IH (Some e)
                {| cache := cache s; fetched := fetched s ++ [x] |} Hpre')
      as (lastErr' & Heq).
    exists lastErr'. cbn [app Part000.firstOk_from]. unfold try_catch at 1.
    rewrite (part000_getCachedJson_fails w x t e s He), Heq.
    cbn [cache fetched]. now rewrite <- app_assoc.
Qed.

Lemma server0_getCachedJson_fails (w : world) (u : string) (e : exn)
    (s : state) :
  fails_with w (cache s) 3500 u e ->
  Server0.getCachedJson w u ("UPSTREAM:" +++ u) 3500 s
  = (Throw e, {| cache := cache s; fetched := fetched s ++ [u] |}).
Proof.
  intros [Hh Ho]. unfold json_outcome in Ho.
  unfold Server0.getCachedJson, bind, cache_has.
  rewrite Hh. cbn. now rewrite Ho.
Qed.

Lemma server0_getCachedJson_fetches (w : world) (u : string) (v : value)
    (s : state) :
  Lru.has (now w) ("UPSTREAM:" +++ u) (cache s) = false ->
  json_outcome w u 3500 = Ok v ->
  Server0.getCachedJson w u ("UPSTREAM:" +++ u) 3500 s
  = (Ok v,
     {| cache := Lru.set CACHE_MAX (now w) ("UPSTREAM:" +++ u) (Raw v)
                   (CACHE_TTL_S * 1000) (cache s);
        fetched := fetched s ++ [u] |}).
Proof.
  intros Hh Ho. unfold json_outcome in Ho.
  unfold Server0.getCachedJson, bind, cache_has.
  rewrite Hh. cbn. now rewrite Ho.
Qed.

Lemma server0_firstOk_skips (w : world) (pre rest : list string)
    (lastErr : option exn) (s : state) :
  Forall (fun x => exists e, fails_with w (cache s) 3500 x e) pre ->
  exists lastErr',
    Server0.firstOk_from w (pre ++ rest) lastErr s
    = Server0.firstOk_from w rest lastErr'
        {| cache := cache s; fetched := fetched s ++ pre |}.
Proof.
  intros Hpre. revert lastErr s Hpre.
  induction pre as [|x pre IH]; intros lastErr s Hpre.
  - exists lastErr. rewrite app_nil_r. now destruct s.
  - inversion Hpre as [|? ? [e He] Hpre']; subst.
    destruct (IH (Some e)
                {| cache := cache s; fetched := fetched s ++ [x] |} Hpre')
      as (lastErr' & Heq).
    exists lastErr'. cbn [app Server0.firstOk_from]. unfold try_catch at 1.
    rewrite (server0_getCachedJson_fails w x e s He), Heq.
    cbn [cache fetched]. now rewrite <- app_assoc.
Qed.

End Facts.

End SequentialFacts.

(* ===================================================================== *)
(** * Facts about the handlers once both tiers are lost *)
(* ===================================================================== *)

Module FallbackFacts.

Import Js Lru Rt Props Shape Server Upstream LruFacts ServerFacts
       PipelineFacts RaceFacts.
Local Open Scope Z_scope.
Local Open Scope js_scope.

Section Facts.

Context {B : Builtins} {C : Config} {E : Express}.

Lemma lost_same (w : world) (c c' : lru) (urls : list string) :
  same_hits (now w) c c' ->
  Forall (lost w c) urls -> Forall (lost w c') urls.
Proof.
  intros Hs Hl. eapply Forall_impl; [|exact Hl].
  intros u [Hu He]. split; [|exact He].
  unfold cached_value in *. now rewrite <- Hs.
Qed.

Lemma filter_lost (w : world) (c : lru) (urls : list string) :
  Forall (lost w c) urls -> filter (uncached w c) urls = urls.
Proof.
  induction 1 as [|u r [Hu _] _ IH]; simpl; [reflexivity|].
  unfold uncached at 1. rewrite Hu. now rewrite IH.
Qed.

(** A race in which every candidate is lost. *)
Lemma race_lost (w : world) (urls : list string) (s : state) :
  Forall (lost w (cache s)) urls ->
  exists c',
    same_hits (now w) (cache s) c' /\
    race w urls s
    = (Throw AggregateError,
       {| cache := c'; fetched := fetched s ++ urls |}).
Proof.
  intros Hl. destruct (race_spec w urls s) as (c' & Hs & Hr).
  cbv zeta in Hr. exists c'. split; [exact Hs|].
  rewrite Hr, filter_lost by exact Hl.
  now rewrite (proj2 (winner_none w (cache s) urls) Hl).
Qed.

Lemma scraped_are_videos (data : value) (items : list value) :
  scrapeVideosFromInitialData data = Ok items ->
  Forall (fun it => exists d, it = item "video" d) items.
Proof.
  intros H. eapply Forall_impl; [|exact (scraped_videos data items H)].
  intros a (v & d & _ & -> & _). eauto.
Qed.

Lemma scraped_are_channels (data : value) (items : list value) :
  scrapeChannelsFromInitialData data = Ok items ->
  Forall (fun it => exists d, it = item "channel" d) items.
Proof.
  intros H. eapply Forall_impl; [|exact (scraped_channels data items H)].
  intros a (v & d & _ & -> & _). eauto.
Qed.

(** The filter of the [/channels] fallback drops the scraped videos and
    keeps the scraped channels. *)
Lemma fallback_channels_scraped (videos channels : list value)
    (nextPage : value) :
  Forall (fun it => exists d, it = item "video" d) videos ->
  Forall (fun it => exists d, it = item "channel" d) channels ->
  fallback_channels (obj_items (videos ++ channels) nextPage) = Ok channels.
Proof.
  intros Hv Hc. unfold fallback_channels. cbn.
  induction Hv as [|x videos [d ->] _ IH]; simpl.
  - induction Hc as [|x channels [d ->] _ IH]; simpl; [reflexivity|].
    now rewrite IH.
  - now rewrite IH.
Qed.

(** The HTML fallback on a page that embeds data. *)
Lemma fallback_scraped (w : world) (q html : string)
    (videos channels : list value) (s : state) :
  fetch_outcome w (yt_url q) 4500 = Ok html ->
  truthy (extractJSONFromHTML html) = true ->
  scrapeVideosFromInitialData (extractJSONFromHTML html) = Ok videos ->
  scrapeChannelsFromInitialData (extractJSONFromHTML html) = Ok channels ->
  ytHtmlFallbackSearch w q s
  = (Ok (obj_items (videos ++ channels) (num 2)),
     {| cache := cache s; fetched := fetched s ++ [yt_url q] |}).
Proof.
  intros Hf Ht Hv Hc.
  unfold ytHtmlFallbackSearch, fetchText, bind, issue, lift.
  cbn [cache fetched]. rewrite Hf, Ht. cbn [negb]. now rewrite Hv, Hc.
Qed.

(** The handlers of [/search] and [/channels] after a miss on a query
    that is not empty, once both tiers are lost. *)
Lemma search_tiers_lost (w : world) (url : string) (c : lru) :
  lookup_at (now w) c url = None ->
  Str.is_empty (query_q url) = false ->
  Forall (lost w c) (search_invUrls (query_q url) (query_page url)) ->
  Forall (lost w c) (search_pipUrls (query_q url) (query_page url)) ->
  exists c',
    same_hits (now w) c c' /\
    let s' := {| cache := c';
                 fetched := search_invUrls (query_q url) (query_page url) ++
                            search_pipUrls (query_q url) (query_page url) |}
    in
    search w url {| cache := c; fetched := [] |}
    = try_catch
        (if Num.gtb (query_page url) (Num.of_Z 1) then
           sendJson w url
             (obj_items_error [] (next (query_page url)) upstream_unavailable)
             200
         else
           fb <- ytHtmlFallbackSearch w (query_q url) ;;
           sendJson w url fb 200)
        (fun _ =>
           sendJson w url
             (obj_items_error [] (next (query_page url)) upstream_unavailable)
             200) s'.
Proof.
  unfold lookup_at. intros Hg Hq Hi Hp. unfold search. cbv zeta.
  rewrite hit_or_miss. cbn [cache fetched].
  pose proof (get_same_hits (now w) url c) as H0.
  destruct (Lru.get (now w) url c) as [[h|] c0]; [discriminate|].
  simpl in H0. rewrite Hq.
  destruct (race_lost w _ {| cache := c0; fetched := [] |}
              (lost_same w c c0 _ H0 Hi)) as (c1 & H1 & Hr1).
  cbn [cache fetched] in *.
  destruct (race_lost w _
              {| cache := c1;
                 fetched := search_invUrls (query_q url) (query_page url) |}
              (lost_same w c c1 _ (same_hits_trans _ _ _ _ H0 H1) Hp))
    as (c2 & H2 & Hr2).
  cbn [cache fetched app] in *.
  exists c2. split; [eauto using same_hits_trans|]. cbv zeta.
  unfold try_catch at 1 2 3. unfold bind at 1. rewrite Hr1.
  unfold bind at 1. rewrite Hr2. reflexivity.
Qed.

Lemma channels_tiers_lost (w : world) (url : string) (c : lru) :
  lookup_at (now w) c url = None ->
  Str.is_empty (query_q url) = false ->
  Forall (lost w c) (channels_invUrls (query_q url) (query_page url)) ->
  Forall (lost w c) (channels_pipUrls (query_q url) (query_page url)) ->
  exists c',
    same_hits (now w) c c' /\
    let s' := {| cache := c';
                 fetched := channels_invUrls (query_q url) (query_page url) ++
                            channels_pipUrls (query_q url) (query_page url) |}
    in
    channels w url {| cache := c; fetched := [] |}
    = try_catch
        (fb <- ytHtmlFallbackSearch w (query_q url) ;;
         items <- lift (fallback_channels fb) ;;
         sendJson w url
           (obj_items_error items (next (query_page url)) upstream_unavailable)
           200)
        (fun _ =>
           sendJson w url
             (obj_items_error [] (next (query_page url)) upstream_unavailable)
             200) s'.
Proof.
  unfold lookup_at. intros Hg Hq Hi Hp. unfold channels. cbv zeta.
  rewrite hit_or_miss. cbn [cache fetched].
  pose proof (get_same_hits (now w) url c) as H0.
  destruct (Lru.get (now w) url c) as [[h|] c0]; [discriminate|].
  simpl in H0. rewrite Hq.
  destruct (race_lost w _ {| cache := c0; fetched := [] |}
              (lost_same w c c0 _ H0 Hi)) as (c1 & H1 & Hr1).
  cbn [cache fetched] in *.
  destruct (race_lost w _
              {| cache := c1;
                 fetched := channels_invUrls (query_q url) (query_page url) |}
              (lost_same w c c1 _ (same_hits_trans _ _ _ _ H0 H1) Hp))
    as (c2 & H2 & Hr2).
  cbn [cache fetched app] in *.
  exists c2. split; [eauto using same_hits_trans|]. cbv zeta.
  unfold try_catch at 1 2 3. unfold bind at 1. rewrite Hr1.
  unfold bind at 1. rewrite Hr2. reflexivity.
Qed.


(** ** The first revision *)

Lemma part001_getCachedJson_answers (w : world) (u txt : string)
    (raw : value) (s : state) :
  no_raw (cache s) -> respond (net w u) = Ok txt ->
  JSON_parse txt = Ok raw ->
  Part001.getCachedJson w u ("UPSTREAM:" +++ u) s
  = (Ok raw,
     {| cache := Lru.set CACHE_MAX (now w) ("UPSTREAM:" +++ u) (Raw raw)
                   (CACHE_TTL_S * 1000) (cache s);
        fetched := fetched s ++ [u] |}).
Proof.
  intros Hc Hr Hp. unfold Part001.getCachedJson, bind, cache_has, Lru.has.
  rewrite (Hc _ (upstream_key_intro u)). cbn. rewrite Hr. cbn.
  now rewrite Hp.
Qed.

End Facts.

End FallbackFacts.

(* ===================================================================== *)
(** * Facts about the normalizers, the scraper and the pools *)
(* ===================================================================== *)

Module ShapeOfItems.

Import Js Lru Rt Props Server Tree NormalizerFacts.
Local Open Scope js_scope.




(** ** Thumbnails *)

Lemma urls_spec (l urls : list value) :
  map_result (fun t => Js.get t "url") l = Ok urls <->
  Forall (fun t => nullish t = false) l /\
  urls = map (fun t => getq t "url") l.
Proof.
  revert urls. induction l as [|t l IH]; intros urls; simpl.
  - split; [intros [= <-]; auto|intros [_ ->]; reflexivity].
  - split.
    + destruct (Js.get t "url") as [u|e] eqn:Hg; [|discriminate].
      destruct (map_result _ l) as [us|e] eqn:Hm; [|discriminate].
      intros [= <-]. destruct (proj1 (IH us) eq_refl) as [Hl ->].
      pose proof (get_ok _ _ _ Hg) as Ht.
      rewrite get_getq in Hg by exact Ht. injection Hg as <-.
      split; [constructor; assumption|reflexivity].
    + intros [Hl ->]. inversion Hl as [|? ? Ht Hl']; subst.
      rewrite get_getq by exact Ht.
      now rewrite (proj2 (IH _) (conj Hl' eq_refl)).
Qed.

Section Facts.

Context {B : Builtins} {C : Config}.

Lemma thumbnail_urls_spec (thumbs r : value) :
  thumbnail_urls thumbs = Ok r <->
  exists l,
    thumbs = VArr l /\ Forall (fun t => nullish t = false) l /\
    r = VArr (firstn 3 (map (fun t => getq t "url") l)).
Proof.
  unfold thumbnail_urls. split.
  - destruct thumbs as [| | | | |l|]; try discriminate. cbn [array_of rbind].
    destruct (map_result _ l) as [urls|e] eqn:Hm; [|discriminate].
    cbn [rbind]. intros [= <-]. apply urls_spec in Hm. destruct Hm as [Hl ->].
    eauto.
  - intros (l & -> & Hl & ->). cbn [array_of rbind].
    now rewrite (proj2 (urls_spec l _) (conj Hl eq_refl)).
Qed.

Lemma first_present_defined (x : value) (names : list string) (d : value) :
  d <> VUndefined -> first_present x names d <> VUndefined.
Proof.
  intros Hd. induction names as [|k r IH]; simpl; [exact Hd|].
  destruct (nullish (getq x k)) eqn:Hk; [exact IH|].
  intros Heq. rewrite Heq in Hk. discriminate.
Qed.

Lemma first_present_present (x : value) (names : list string) (d : value) :
  nullish d = false -> nullish (first_present x names d) = false.
Proof.
  intros Hd. induction names as [|k r IH]; simpl; [exact Hd|].
  now destruct (nullish (getq x k)) eqn:Hk.
Qed.

End Facts.

(** ** The pools *)

Lemma comma_free_cons (c : Ascii.ascii) (x : string) :
  Str.includes "," (String c x) = false ->
  Ascii.eqb c ","%char = false /\ Str.includes "," x = false.
Proof.
  cbn [Str.includes]. unfold Str.starts_with. cbn [Str.strip_prefix].
  rewrite Ascii.eqb_sym. destruct (Ascii.eqb c ","%char); [discriminate|].
  auto.
Qed.

Lemma split_comma_append (x rest : string) :
  Str.includes "," x = false ->
  Startup.split_comma (x +++ String ","%char rest)
  = x :: Startup.split_comma rest.
Proof.
  induction x as [|c x IH]; intros Hx; [reflexivity|].
  apply comma_free_cons in Hx. destruct Hx as [Hc Hx].
  cbn [String.append Startup.split_comma]. rewrite Hc, IH by exact Hx.
  reflexivity.
Qed.

Lemma split_comma_single (x : string) :
  Str.includes "," x = false -> Startup.split_comma x = [x].
Proof.
  induction x as [|c x IH]; intros Hx; [reflexivity|].
  apply comma_free_cons in Hx. destruct Hx as [Hc Hx].
  cbn [Startup.split_comma]. rewrite Hc, IH by exact Hx. reflexivity.
Qed.

Lemma split_comma_join (l : list string) :
  l <> [] -> Forall clean l -> Startup.split_comma (Str.join "," l) = l.
Proof.
  intros Hne Hl. induction Hl as [|x l (_ & Hx & _) Hl IH]; [congruence|].
  destruct l as [|y l].
  - cbn [Str.join]. now apply split_comma_single.
  - change (Str.join "," (x :: y :: l))
      with (x +++ String ","%char (Str.join "," (y :: l))).
    rewrite split_comma_append by exact Hx. now rewrite IH.
Qed.

Lemma parts_clean (l : list string) :
  Forall clean l ->
  filter truthy (map (fun p => VStr (Str.trim p)) l) = map VStr l.
Proof.
  induction 1 as [|x l (Hn & _ & Ht) _ IH]; [reflexivity|].
  cbn [map filter]. rewrite Ht. cbn [truthy]. rewrite Hn. cbn [negb].
  now rewrite IH.
Qed.

Lemma parts_blank (l : list string) :
  Forall (fun p => Str.trim p = EmptyString) l ->
  filter truthy (map (fun p => VStr (Str.trim p)) l) = [].
Proof.
  induction 1 as [|x l Hx _ IH]; [reflexivity|].
  cbn [map filter]. rewrite Hx. exact IH.
Qed.

(** ** [map] with a function that may throw *)




End ShapeOfItems.

(* ===================================================================== *)
(** * Facts about the first pattern of the scraper *)
(* ===================================================================== *)

Module PatternFacts.

Import Text.

Lemma append_nil_r (s : string) : s +++ EmptyString = s.
Proof. induction s as [|c s IH]; simpl; [reflexivity|now rewrite IH]. Qed.

Lemma append_assoc (a b c : string) : (a +++ b) +++ c = a +++ b +++ c.
Proof. induction a as [|x a IH]; simpl; [reflexivity|now rewrite IH]. Qed.

Lemma length_append (a b : string) :
  String.length (a +++ b) = String.length a + String.length b.
Proof. induction a as [|x a IH]; simpl; [reflexivity|now rewrite IH]. Qed.

Lemma strip_prefix_append (t s : string) :
  Str.strip_prefix t (t +++ s) = Some s.
Proof.
  induction t as [|c t IH]; simpl; [reflexivity|].
  now rewrite Ascii.eqb_refl.
Qed.

Lemma strip_prefix_inv (t s r : string) :
  Str.strip_prefix t s = Some r -> s = t +++ r.
Proof.
  revert s. induction t as [|c t IH]; intros s; simpl.
  - now intros [= ->].
  - destruct s as [|d s]; [discriminate|].
    destruct (Ascii.eqb c d) eqn:Hc; [|discriminate].
    apply Ascii.eqb_eq in Hc. subst d. intros H. now rewrite (IH s H).
Qed.

(** A prefix that fits into [x] is found in [x] whatever follows. *)
Lemma strip_prefix_within (t x y r : string) :
  String.length t <= String.length x ->
  Str.strip_prefix t (x +++ y) = Some r ->
  exists r', Str.strip_prefix t x = Some r'.
Proof.
  revert x. induction t as [|c t IH]; intros x; simpl; [eauto|].
  destruct x as [|d x]; simpl; [lia|].
  destruct (Ascii.eqb c d); [|discriminate].
  intros Hl. apply IH. lia.
Qed.

Lemma strip_prefix_extend (t x y r : string) :
  Str.strip_prefix t x = Some r ->
  Str.strip_prefix t (x +++ y) = Some (r +++ y).
Proof.
  intros H. apply strip_prefix_inv in H. subst x.
  rewrite append_assoc. apply strip_prefix_append.
Qed.

Lemma substring_skip (a s : string) (n m : nat) :
  substring (String.length a + n) m (a +++ s) = substring n m s.
Proof. induction a as [|c a IH]; simpl; [reflexivity|exact IH]. Qed.

Lemma substring_prefix (m s : string) :
  substring 0 (String.length m) (m +++ s) = m.
Proof.
  induction m as [|c m IH]; simpl; [now destruct s|now rewrite IH].
Qed.

Lemma first_after_tail (t : string) (c : Ascii.ascii) (s : string) :
  first_after t (String c s) = true -> first_after t s = true.
Proof. cbn [first_after]. intros H. now apply andb_prop in H. Qed.

Lemma first_after_suffix (t a b : string) :
  first_after t (a +++ b) = true -> first_after t b = true.
Proof.
  induction a as [|c a IH]; [auto|]. intros H.
  apply IH. eapply first_after_tail. exact H.
Qed.

Lemma first_after_head (t s rest : string) :
  first_after t s = true -> s <> EmptyString ->
  Str.strip_prefix t (s +++ t +++ rest) = None.
Proof.
  intros H Hs. destruct s as [|c s]; [congruence|].
  cbn [first_after] in H. apply andb_prop in H. destruct H as [H _].
  destruct (Str.strip_prefix t (String c s +++ t +++ rest)) as [r|] eqn:Hp;
    [|reflexivity].
  rewrite <- append_assoc in Hp.
  destruct (strip_prefix_within t (String c s +++ t) rest r) as [r' Hr'];
    [|exact Hp|].
  - rewrite length_append. lia.
  - unfold Str.starts_with in H. rewrite Hr' in H. discriminate.
Qed.

(** ** The lazy group and its terminator *)

Section Lazy.

Variable closing : string.
Hypothesis closing_not_empty : Str.is_empty closing = false.

Lemma close_here (s : string) (j gs ge : nat) :
  Regex.run [Regex.GroupClose; Regex.Lit closing] s j gs ge
  = match Str.strip_prefix closing s with
    | Some _ => Some (gs, j)
    | None => None
    end.
Proof. cbn. now destruct (Str.strip_prefix closing s). Qed.

Lemma lazy_step (s : string) (j gs ge : nat) :
  Regex.run [Regex.LazyAny; Regex.GroupClose; Regex.Lit closing] s j gs ge
  = match Regex.run [Regex.GroupClose; Regex.Lit closing] s j gs ge with
    | Some m => Some m
    | None =>
        match s with
        | String _ r =>
            Regex.run [Regex.LazyAny; Regex.GroupClose; Regex.Lit closing]
              r (S j) gs ge
        | EmptyString => None
        end
    end.
Proof. destruct s; reflexivity. Qed.

Lemma lazy_finds (blob post : string) :
  first_after closing blob = true ->
  forall j gs ge,
    Regex.run [Regex.LazyAny; Regex.GroupClose; Regex.Lit closing]
      (blob +++ closing +++ post) j gs ge
    = Some (gs, j + String.length blob).
Proof.
  induction blob as [|c blob IH]; intros Hb j gs ge; rewrite lazy_step,
    close_here.
  - simpl. rewrite strip_prefix_append. f_equal. f_equal. lia.
  - rewrite (first_after_head closing (String c blob) post Hb)
      by discriminate.
    cbn [String.append]. rewrite IH by (eapply first_after_tail; exact Hb).
    f_equal. f_equal. simpl. lia.
Qed.

Lemma includes_cons (c : Ascii.ascii) (m : string) :
  Str.starts_with closing (String c m) = false ->
  Str.includes closing m = false ->
  Str.includes closing (String c m) = false.
Proof. intros H1 H2. cbn [Str.includes]. now rewrite H1. Qed.

Lemma includes_empty : Str.includes closing EmptyString = false.
Proof.
  destruct closing; [discriminate closing_not_empty|reflexivity].
Qed.

Lemma lazy_sound (s : string) :
  forall j gs ge res,
    Regex.run [Regex.LazyAny; Regex.GroupClose; Regex.Lit closing] s j gs ge
    = Some res ->
    exists m post,
      s = m +++ closing +++ post /\
      res = (gs, j + String.length m) /\
      Str.includes closing m = false.
Proof.
  induction s as [|c s IH]; intros j gs ge res; rewrite lazy_step, close_here.
  - destruct (Str.strip_prefix closing EmptyString) as [r|] eqn:Hp;
      [|discriminate].
    intros [= <-]. exists EmptyString, r. split.
    + now apply strip_prefix_inv in Hp.
    + split; [f_equal; simpl; lia|apply includes_empty].
  - destruct (Str.strip_prefix closing (String c s)) as [r|] eqn:Hp.
    + intros [= <-]. exists EmptyString, r. split.
      * now apply strip_prefix_inv in Hp.
      * split; [f_equal; simpl; lia|apply includes_empty].
    + intros H. destruct (IH _ _ _ _ H) as (m & post & -> & -> & Hm).
      exists (String c m), post. split; [reflexivity|]. split.
      * f_equal. simpl. lia.
      * apply includes_cons; [|exact Hm].
        unfold Str.starts_with.
        destruct (Str.strip_prefix closing (String c m)) as [r|] eqn:Hq;
          [|reflexivity].
        apply (strip_prefix_extend _ _ (closing +++ post)) in Hq.
        cbn [String.append] in Hq. congruence.
Qed.

End Lazy.

(** ** The leftmost match *)

Lemma search_sound (p : Regex.regex) (s : string) :
  forall i res,
    Regex.search p s i = Some res ->
    exists a b,
      s = a +++ b /\ Regex.run p b (i + String.length a) 0 0 = Some res.
Proof.
  induction s as [|c s IH]; intros i res; cbn [Regex.search].
  - destruct (Regex.run p EmptyString i 0 0) as [m|] eqn:Hr; [|discriminate].
    intros [= <-]. exists EmptyString, EmptyString.
    split; [reflexivity|]. simpl. now rewrite Nat.add_0_r.
  - destruct (Regex.run p (String c s) i 0 0) as [m|] eqn:Hr.
    + intros [= <-]. exists EmptyString, (String c s).
      split; [reflexivity|]. simpl. now rewrite Nat.add_0_r.
    + intros H. destruct (IH _ _ H) as (a & b & -> & Hb).
      exists (String c a), b. split; [reflexivity|].
      replace (i + String.length (String c a))
        with (S i + String.length a) by (simpl; lia).
      exact Hb.
Qed.

Lemma search_skips (p : Regex.regex) (pre rest : string) :
  forall i,
    (forall a b,
       pre = a +++ b -> b <> EmptyString ->
       Regex.run p (b +++ rest) (i + String.length a) 0 0 = None) ->
    Regex.search p (pre +++ rest) i
    = Regex.search p rest (i + String.length pre).
Proof.
  induction pre as [|c pre IH]; intros i H.
  - simpl. now rewrite Nat.add_0_r.
  - cbn [String.append].
    assert (Hhere : Regex.run p (String c (pre +++ rest)) i 0 0 = None).
    { specialize (H EmptyString (String c pre) eq_refl).
      simpl in H. rewrite Nat.add_0_r in H. apply H. discriminate. }
    assert (Hs : Regex.search p (String c (pre +++ rest)) i
                 = Regex.search p (pre +++ rest) (S i)).
    { destruct pre, rest; cbn [Regex.search String.append] in *;
        now rewrite Hhere. }
    rewrite Hs, IH.
    + f_equal. simpl. lia.
    + intros a b Hab Hb. specialize (H (String c a) b).
      replace (S i + String.length a)
        with (i + String.length (String c a)) by (simpl; lia).
      apply H; [|exact Hb]. simpl. now rewrite Hab.
Qed.

Lemma search_here (p : Regex.regex) (s : string) (i : nat)
    (res : nat * nat) :
  Regex.run p s i 0 0 = Some res -> Regex.search p s i = Some res.
Proof. intros H. destruct s; cbn [Regex.search]; now rewrite H. Qed.

(** ** The first pattern *)

Lemma first_pattern_run (s : string) (i gs ge : nat) :
  Regex.run (hd [] Server.patterns) s i gs ge
  = match Str.strip_prefix opening s with
    | Some r =>
        Regex.run [Regex.LazyAny; Regex.GroupClose; Regex.Lit closing] r
          (i + String.length opening) (i + String.length opening) ge
    | None => None
    end.
Proof. reflexivity. Qed.

Lemma group_text (pre blob rest : string) (gs len : nat) :
  gs = String.length pre + String.length opening ->
  len = String.length blob ->
  substring gs len (pre +++ opening +++ blob +++ rest) = blob.
Proof.
  intros -> ->. rewrite <- append_assoc.
  replace (String.length pre + String.length opening)
    with (String.length (pre +++ opening) + 0)
    by (rewrite length_append; lia).
  now rewrite substring_skip, substring_prefix.
Qed.

Lemma first_pattern_finds (pre blob post : string) :
  first_after opening pre = true ->
  first_after closing blob = true ->
  Regex.match_group1 (hd [] Server.patterns)
    (pre +++ opening +++ blob +++ closing +++ post)
  = Some blob.
Proof.
  intros Hpre Hblob. unfold Regex.match_group1.
  rewrite search_skips.
  - rewrite (search_here _ _ _
               (0 + String.length pre + String.length opening,
                0 + String.length pre + String.length opening
                + String.length blob)).
    + now rewrite (group_text pre blob) by (simpl; lia).
    + rewrite first_pattern_run, strip_prefix_append.
      now apply lazy_finds.
  - intros a b Hab Hb. rewrite first_pattern_run.
    rewrite first_after_head; [reflexivity| |exact Hb].
    rewrite Hab in Hpre. eapply first_after_suffix. exact Hpre.
Qed.

End PatternFacts.

(* ===================================================================== *)
(** * Further properties of the code *)
(* ===================================================================== *)

Module Further.

Import Js Lru Rt Props Shape Upstream Tree.
Import LruFacts StrFacts MonadFacts ServerFacts StateFacts ExhaustionFacts
       NormalizerFacts PipelineFacts QueryFacts ShapeFacts RevisionFacts
       ChannelsFacts RaceFacts SequentialFacts FallbackFacts ShapeOfItems.
Local Open Scope Z_scope.
Local Open Scope js_scope.

Section Statements.

Context {B : Builtins} {C : Config} {E : Express}.

(** X1.  A race of the current revision ([firstResolved] over the
    [getCached] calls of a pool) is lost exactly when no candidate is
    answered from the cache and the fetch of every candidate fails; an
    empty pool loses at once.  The only error a race ever throws is the
    [AggregateError] of [Promise.any]. *)
Theorem race_lost_iff (w : world) (urls : list string) (s : state) :
  (fst (Server.race w urls s) = Throw AggregateError <->
   Forall (lost w (cache s)) urls) /\
  (forall e, fst (Server.race w urls s) = Throw e -> e = AggregateError).
Proof.
  destruct (race_spec w urls s) as (c' & _ & Hr). cbv zeta in Hr.
  rewrite Hr. clear Hr.
  pose proof (winner_none w (cache s) urls) as Hn.
  destruct (Server.winner _) as [p|] eqn:Hw.
  - destruct (winner_settles _ _ Hw) as [[v ->]|(key & lat & v & ->)];
      simpl; (split; [split; [discriminate|]|discriminate]);
      intros Hl; apply Hn in Hl; discriminate.
  - simpl. split; [split; [intros _; now apply Hn|reflexivity]|].
    now intros e [= <-].
Qed.

(** X2.  A candidate that is answered from the raw cache wins the race
    whatever the network does: the race returns the cached payload of the
    first cached candidate in pool order. *)
Theorem cached_candidate_wins (w : world) (urls : list string) (s : state)
    (u : string) (v : value) :
  List.find (fun u => negb (uncached w (cache s) u)) urls = Some u ->
  cached_value w (cache s) u = Some v ->
  fst (Server.race w urls s) = Ok v.
Proof.
  intros Hf Hv.
  destruct (race_spec w urls s) as (c' & _ & Hr). cbv zeta in Hr.
  rewrite Hr. unfold Server.winner. rewrite find_settled, Hf. simpl.
  unfold start_of. now rewrite Hv.
Qed.

(** X3.  When no candidate is cached, a race that is won returns the
    payload of a candidate whose fetch succeeded and took no longer than
    any other successful one, and stores that payload in the raw cache
    under the key of that candidate. *)
Theorem fastest_mirror_wins (w : world) (urls : list string) (s : state)
    (v : value) :
  Forall (fun u => cached_value w (cache s) u = None) urls ->
  fst (Server.race w urls s) = Ok v ->
  exists u,
    In u urls /\
    Server.fetchJson_outcome w u UPSTREAM_TIMEOUT_MS = Ok v /\
    (forall u' v',
       In u' urls ->
       Server.fetchJson_outcome w u' UPSTREAM_TIMEOUT_MS = Ok v' ->
       latency w u <= latency w u') /\
    Lru.find ("UPSTREAM:" +++ u) (cache (snd (Server.race w urls s)))
    = Some {| skey := "UPSTREAM:" +++ u; sval := Raw v;
              sstart := now w; sttl := CACHE_TTL_S * 1000 |}.
Proof.
  intros Hc.
  destruct (race_spec w urls s) as (c' & _ & Hr). cbv zeta in Hr.
  rewrite Hr. clear Hr. unfold Server.winner.
  rewrite find_settled_none by exact Hc.
  destruct (Server.fastest _ None) as [p|] eqn:Hf; [|discriminate].
  apply fastest_spec in Hf; [|discriminate].
  destruct Hf as (key & lat & v0 & -> & [Hin|Hin] & Hmin & _);
    [|discriminate].
  apply in_map_iff in Hin. destruct Hin as (u & Hu & Hin).
  unfold start_of in Hu. rewrite Forall_forall in Hc.
  rewrite (Hc u Hin) in Hu. injection Hu as <- <- Ho.
  cbn. intros [= <-]. exists u. repeat split; auto.
  - intros u' v' Hin' Ho'. apply (Hmin ("UPSTREAM:" +++ u') _ v').
    apply in_map_iff. exists u'. split; [|exact Hin'].
    unfold start_of. now rewrite (Hc u' Hin'), Ho'.
  - apply find_set.
Qed.

(** X4.  A race contacts every candidate that is not cached, in pool
    order, also the ones behind a candidate that answers: the fetch log
    grows by exactly the uncached candidates. *)
Theorem race_fetches_all (w : world) (urls : list string) (s : state) :
  fetched (snd (Server.race w urls s))
  = fetched s ++ filter (uncached w (cache s)) urls.
Proof.
  destruct (race_spec w urls s) as (c' & _ & Hr). cbv zeta in Hr.
  rewrite Hr. clear Hr.
  destruct (Server.winner _) as [[v|key lat [v|e]]|]; reflexivity.
Qed.

(** X5.  [getCached] round trip: once a call has fetched a payload, a
    call for the same key within the time to live returns that payload
    from the cache and fetches nothing. *)
Theorem getCached_round_trip (w w' : world) (key url : string) (t t' : Z)
    (s : state) (v : value) :
  lookup_at (now w) (cache s) key = None ->
  fst (Server.getCached w key url t s) = Ok v ->
  now w' - now w <= CACHE_TTL_S * 1000 ->
  let s1 := snd (Server.getCached w key url t s) in
  fst (Server.getCached w' key url t' s1) = Ok v /\
  fetched (snd (Server.getCached w' key url t' s1)) = fetched s1.
Proof.
  intros Hmiss Hv Httl. cbv zeta.
  rewrite (getCached_miss w key url t s Hmiss) in *.
  destruct (Server.fetchJson_outcome w url t) as [v0|e]; [|discriminate].
  simpl in Hv. injection Hv as ->.
  assert (Hhit :
    lookup_at (now w')
      (Lru.set CACHE_MAX (now w) key (Raw v) (CACHE_TTL_S * 1000)
         (snd (Lru.get (now w) key (cache s)))) key = Some (Raw v)).
  { unfold lookup_at.
    rewrite (get_live (now w') key _ _ (find_set _ _ _ _ _ _));
      [reflexivity|].
    unfold stale. cbn [sttl sstart]. apply andb_false_iff. right.
    apply Z.ltb_ge. exact Httl. }
  cbn [snd].
  match goal with
  | |- context [Server.getCached w' key url t' ?s1] =>
      rewrite (getCached_hit w' key url t' s1 (Raw v) Hhit)
  end.
  split; reflexivity.
Qed.

(** X6.  The raw cache holds successes only: a [getCached] call that
    throws did so because its fetch failed, and leaves no entry under its
    key, so that the next call for that key fetches again. *)
Theorem failed_fetch_not_cached (w : world) (key url : string) (t : Z)
    (s : state) (e : exn) :
  fst (Server.getCached w key url t s) = Throw e ->
  Server.fetchJson_outcome w url t = Throw e /\
  Lru.find key (cache (snd (Server.getCached w key url t s))) = None /\
  fetched (snd (Server.getCached w key url t s)) = fetched s ++ [url].
Proof.
  unfold Server.getCached, Server.getCached_start, bind, cache_get, Lru.get.
  destruct (find key (cache s)) as [sl|] eqn:Hf.
  - destruct (stale (now w) sl); cbn; [|discriminate].
    destruct (Server.fetchJson_outcome w url t) as [v0|e0]; cbn;
      [discriminate|].
    intros [= ->]. repeat split. apply find_remove_same.
  - cbn. destruct (Server.fetchJson_outcome w url t) as [v0|e0]; cbn;
      [discriminate|].
    intros [= ->]. repeat split. exact Hf.
Qed.

(** X7.  [firstOk] of [part_000] and of the first program of [server.js]
    calls the mirrors one after the other and stops at the first that
    answers: the mirrors before it are each fetched once, the payload is
    stored under the key of the one that answered, and the mirrors behind
    it are not contacted. *)
Theorem firstOk_stops_at_first_success (w : world) (pre post : list string)
    (u : string) (v : value) (s : state) :
  Lru.has (now w) ("UPSTREAM:" +++ u) (cache s) = false ->
  (forall t,
     Forall (fun x => exists e, fails_with w (cache s) t x e) pre ->
     json_outcome w u t = Ok v ->
     Part000.firstOk w (pre ++ u :: post) t s
     = (Ok v,
        {| cache := Lru.set CACHE_MAX (now w) ("UPSTREAM:" +++ u) (Raw v)
                      (CACHE_TTL_S * 1000) (cache s);
           fetched := fetched s ++ pre ++ [u] |})) /\
  (Forall (fun x => exists e, fails_with w (cache s) 3500 x e) pre ->
   json_outcome w u 3500 = Ok v ->
   Server0.firstOk w (pre ++ u :: post) s
   = (Ok v,
      {| cache := Lru.set CACHE_MAX (now w) ("UPSTREAM:" +++ u) (Raw v)
                    (CACHE_TTL_S * 1000) (cache s);
         fetched := fetched s ++ pre ++ [u] |})).
Proof.
  intros Hh. split.
  - intros t Hpre Ho. unfold Part000.firstOk.
    destruct (part000_firstOk_skips w t pre (u :: post) None s Hpre)
      as (lastErr & ->).
    cbn [Part000.firstOk_from]. unfold try_catch.
    rewrite (part000_getCachedJson_fetches w u t v) by assumption.
    cbn [cache fetched]. now rewrite <- app_assoc.
  - intros Hpre Ho. unfold Server0.firstOk.
    destruct (server0_firstOk_skips w pre (u :: post) None s Hpre)
      as (lastErr & ->).
    cbn [Server0.firstOk_from]. unfold try_catch.
    rewrite (server0_getCachedJson_fetches w u v) by assumption.
    cbn [cache fetched]. now rewrite <- app_assoc.
Qed.

(** X8.  When every mirror fails, [firstOk] throws the error of the last
    one, after one fetch of each and without a cache write; over an
    empty list it throws [Error("no upstream")]. *)
Theorem firstOk_reports_last_error (w : world) (t : Z) (pre : list string)
    (u : string) (e : exn) (s : state) :
  Part000.firstOk w [] t s = (Throw (Error "no upstream"), s) /\
  (Forall (fun x => exists e', fails_with w (cache s) t x e') pre ->
   fails_with w (cache s) t u e ->
   Part000.firstOk w (pre ++ [u]) t s
   = (Throw e, {| cache := cache s; fetched := fetched s ++ pre ++ [u] |})).
Proof.
  split; [reflexivity|]. intros Hpre Hu. unfold Part000.firstOk.
  destruct (part000_firstOk_skips w t pre [u] None s Hpre) as (lastErr & ->).
  cbn [Part000.firstOk_from]. unfold try_catch.
  rewrite (part000_getCachedJson_fails w u t e) by exact Hu.
  cbn [cache fetched]. now rewrite <- app_assoc.
Qed.

(** X9.  The current revision never answers a routed request of any of
    its three endpoints with a status other than 200: [/channels] and
    [/search] degrade softly as [/suggest] does, also when the response
    is replayed from the cache. *)
Theorem current_always_200 (ep : endpoint) (w : world) (url : string)
    (c : lru) :
  Server.reachable c -> route url = Some ep -> origin_form url = true ->
  exists body, fst (Server.serve ep w url c) = Sent 200 body.
Proof.
  intros Hc Hr Ho.
  destruct (serve_status ep w url c (reachable_ok c Hc) Hr Ho)
    as (payload & s' & Hs & _).
  rewrite Hs. simpl. eauto.
Qed.


(** X11.  [part_000] never answers a routed request with a status other
    than 200, on any of its three endpoints. *)
Theorem part000_always_200 (ep : endpoint) (w : world) (url : string)
    (c : lru) :
  Part000.reachable c -> route url = Some ep -> origin_form url = true ->
  exists body, fst (Part000.serve ep w url c) = Sent 200 body.
Proof.
  intros Hc _ Ho. unfold Part000.serve.
  destruct (attempts_run always_200 url (Part000.handler ep w url) c
              (part000_attempts ep w url) (part000_reachable_good c Hc))
    as [_ Ha].
  destruct (Ha (part000_total ep w url) Ho) as (status & body & -> & Hok).
  unfold always_200 in Hok. subst status. simpl. eauto.
Qed.

(** X12.  The first program of [server.js] never answers a routed
    request with a status other than 200, on any of its three
    endpoints. *)
Theorem server0_always_200 (ep : endpoint) (w : world) (url : string)
    (c : lru) :
  Server0.reachable c -> route url = Some ep -> origin_form url = true ->
  exists body, fst (Server0.serve ep w url c) = Sent 200 body.
Proof.
  intros Hc _ Ho. unfold Server0.serve.
  destruct (attempts_run always_200 url (Server0.handler ep w url) c
              (server0_attempts ep w url) (server0_reachable_good c Hc))
    as [_ Ha].
  destruct (Ha (server0_total ep w url) Ho) as (status & body & -> & Hok).
  unfold always_200 in Hok. subst status. simpl. eauto.
Qed.

(** X13.  [part_001] answers every routed request, with status 200 or
    with status 502; a 502 carries an empty list and an error text, and
    for [/channels] and [/search] a null [nextPage]. *)
Theorem part001_200_or_502 (ep : endpoint) (w : world) (url : string)
    (c : lru) :
  Part001.reachable c -> route url = Some ep -> origin_form url = true ->
  exists status body,
    fst (Part001.serve ep w url c) = Sent status body /\
    (status = 200 \/
     (status = 502 /\
      exists p, failure_payload p /\ body = JSON_stringify p)).
Proof.
  intros Hc _ Ho. unfold Part001.serve.
  destruct (attempts_run ok_or_502 url (Part001.handler ep w url) c
              (part001_attempts ep w url) (part001_reachable_good c Hc))
    as [_ Ha].
  destruct (Ha (part001_total ep w url) Ho) as (status & body & -> & Hok).
  exists status, body. split; [reflexivity|exact Hok].
Qed.


(** X15.  On the first page (and on any page that is not greater than
    one, a page that is not a number included), [/search] of the current
    revision answers a request whose tiers are both lost from the results
    page of YouTube: when the page embeds data, the response has status
    200 and lists the scraped videos, then the scraped channels, with
    [nextPage: 2] and without an error marker. *)
Theorem search_falls_back_to_html (w : world) (url html : string) (c : lru)
    (videos channels : list value) :
  lookup_at (now w) c url = None ->
  Str.is_empty (query_q url) = false ->
  Num.gtb (query_page url) (Num.of_Z 1) = false ->
  Forall (lost w c)
    (Server.search_invUrls (query_q url) (query_page url)) ->
  Forall (lost w c)
    (Server.search_pipUrls (query_q url) (query_page url)) ->
  fetch_outcome w (Server.yt_url (query_q url)) 4500 = Ok html ->
  truthy (Server.extractJSONFromHTML html) = true ->
  Server.scrapeVideosFromInitialData (Server.extractJSONFromHTML html)
  = Ok videos ->
  Server.scrapeChannelsFromInitialData (Server.extractJSONFromHTML html)
  = Ok channels ->
  fst (Server.serve Search w url c)
  = Sent 200 (JSON_stringify (obj_items (videos ++ channels) (num 2))).
Proof.
  intros Hg Hq Hpage Hi Hp Hf Ht Hv Hc.
  destruct (search_tiers_lost w url c Hg Hq Hi Hp) as (c' & _ & Hs).
  cbv zeta in Hs. unfold Server.serve, run, Server.handler.
  rewrite Hs, Hpage. unfold try_catch, bind.
  rewrite (fallback_scraped w _ html videos channels) by assumption.
  reflexivity.
Qed.

(** X16.  [/channels] of the current revision, once both tiers are lost,
    answers from the results page of YouTube on every page: the response
    lists exactly the scraped channels, the scraped videos are dropped,
    [nextPage] is [page + 1], and the marker [error:
    "upstream_unavailable"] is set although items were found. *)
Theorem channels_fallback_is_marked (w : world) (url html : string)
    (c : lru) (videos channels : list value) :
  lookup_at (now w) c url = None ->
  Str.is_empty (query_q url) = false ->
  Forall (lost w c)
    (Server.channels_invUrls (query_q url) (query_page url)) ->
  Forall (lost w c)
    (Server.channels_pipUrls (query_q url) (query_page url)) ->
  fetch_outcome w (Server.yt_url (query_q url)) 4500 = Ok html ->
  truthy (Server.extractJSONFromHTML html) = true ->
  Server.scrapeVideosFromInitialData (Server.extractJSONFromHTML html)
  = Ok videos ->
  Server.scrapeChannelsFromInitialData (Server.extractJSONFromHTML html)
  = Ok channels ->
  fst (Server.serve Channels w url c)
  = Sent 200
      (JSON_stringify
         (obj_items_error channels (Server.next (query_page url))
            "upstream_unavailable")).
Proof.
  intros Hg Hq Hi Hp Hf Ht Hv Hc.
  destruct (channels_tiers_lost w url c Hg Hq Hi Hp) as (c' & _ & Hs).
  cbv zeta in Hs. unfold Server.serve, run, Server.handler.
  rewrite Hs. unfold try_catch, bind.
  rewrite (fallback_scraped w _ html videos channels) by assumption.
  unfold lift.
  rewrite (fallback_channels_scraped videos channels)
    by eauto using scraped_are_videos, scraped_are_channels.
  reflexivity.
Qed.



(** X19.  The [thumbnails] of a normalized video are the [url] fields of
    the first three raw thumbnails, in their order: never more than
    three. *)
Theorem thumbnails_capped (v r : value) :
  normalizeVideo v = Ok r ->
  exists l,
    first_present v ["videoThumbnails"; "thumbnails"] (VArr []) = VArr l /\
    getq r "thumbnails" = VArr (firstn 3 (map (fun t => getq t "url") l)) /\
    (List.length (firstn 3 (map (fun t => getq t "url") l)) <= 3)%nat.
Proof.
  intros Hr. pose proof (normalizeVideo_nullish v r Hr) as Hv.
  rewrite normalizeVideo_eq in Hr by exact Hv.
  destruct (thumbnail_urls _) as [t|e] eqn:Ht; [|discriminate].
  apply thumbnail_urls_spec in Ht. destruct Ht as (l & Hl & _ & ->).
  cbn [rbind] in Hr. injection Hr as <-. exists l.
  split; [exact Hl|]. split; [reflexivity|]. apply firstn_le_length.
Qed.

(** X20.  [normalizeChannel] throws only on an entry that is [null] or
    [undefined].  On any other entry, whatever its thumbnails are, it
    returns an object with exactly [id], [title] and [avatar], none of
    them [undefined]: the title is at worst the empty string, the id and
    the avatar at worst [null]. *)
Theorem normalizeChannel_total (c : value) :
  (nullish c = true -> exists e, normalizeChannel c = Throw e) /\
  (nullish c = false ->
   exists id title avatar,
     normalizeChannel c
     = Ok (VObj [("id", id); ("title", title); ("avatar", avatar)]) /\
     id <> VUndefined /\ nullish title = false /\ avatar <> VUndefined).
Proof.
  split.
  - destruct c; try discriminate; intros _; eexists; reflexivity.
  - intros Hc. rewrite normalizeChannel_eq by exact Hc.
    eexists _, _, _. split; [reflexivity|]. repeat split.
    + now apply first_present_defined.
    + now apply first_present_present.
    + unfold coalesce. destruct (getq _ "url"); discriminate.
Qed.

(** X21.  [parsePool] uses the fallback only when the variable is not
    set.  Once it is set, the pool is the list of its trimmed non-empty
    parts, also when that list is empty: a setting made of commas and
    white space only yields an empty pool, not the fallback. *)
Theorem parsePool_fallback_only_when_unset (env : string -> option string)
    (envVar : string) (fallback : list string) :
  (env envVar = None ->
   Startup.parsePool env envVar fallback = VArr (map VStr fallback)) /\
  (forall s,
     env envVar = Some s ->
     Forall (fun p => Str.trim p = EmptyString) (Startup.split_comma s) ->
     Startup.parsePool env envVar fallback = VArr []).
Proof.
  unfold Startup.parsePool, Startup.parts. split.
  - now intros ->.
  - intros s -> Hs. now rewrite parts_blank.
Qed.

(** X22.  [parsePool] reads back a pool that is written as its members
    joined by commas: when the members are not empty, hold no comma and
    have no white space around them, the pool is exactly these members,
    in their order. *)
Theorem parsePool_round_trip (env : string -> option string)
    (envVar : string) (fallback l : list string) :
  l <> [] -> Forall clean l ->
  env envVar = Some (Str.join "," l) ->
  Startup.parsePool env envVar fallback = VArr (map VStr l).
Proof.
  intros Hne Hl He. unfold Startup.parsePool, Startup.parts.
  rewrite He, split_comma_join, parts_clean by assumption. reflexivity.
Qed.

(** X23.  What the first pattern of [extractJSONFromHTML] captures is a
    piece of the page that stands between [var ytInitialData = ] and
    [;</script>], and it never contains [;</script>] itself: the capture
    ends at the first terminator after the opening. *)
Theorem first_pattern_captures (html m : string) :
  Regex.match_group1 (hd [] Server.patterns) html = Some m ->
  exists pre post,
    html = pre +++ Text.opening +++ m +++ Text.closing +++ post /\
    Str.includes Text.closing m = false.
Proof.
  unfold Regex.match_group1.
  destruct (Regex.search _ html 0) as [[gs ge]|] eqn:Hs; [|discriminate].
  intros Hm0. apply PatternFacts.search_sound in Hs.
  destruct Hs as (pre & b & -> & Hr).
  rewrite PatternFacts.first_pattern_run in Hr.
  destruct (Str.strip_prefix Text.opening b) as [r|] eqn:Hp; [|discriminate].
  apply PatternFacts.strip_prefix_inv in Hp. subst b.
  apply PatternFacts.lazy_sound in Hr; [|reflexivity].
  destruct Hr as (m' & post & -> & Hres & Hm).
  injection Hres as -> ->.
  rewrite (PatternFacts.group_text pre m') in Hm0 by (simpl; lia).
  injection Hm0 as <-. eauto.
Qed.

(** X24.  A page that embeds its data as [var ytInitialData = ] followed
    by a blob and [;</script>] is read back: when the opening does not
    occur earlier in the page, the terminator does not occur earlier
    than at the end of the blob, and [JSON.parse] accepts the blob,
    [extractJSONFromHTML] returns the parsed blob. *)
Theorem embedded_data_is_found (pre blob post : string) (data : value) :
  Text.first_after Text.opening pre = true ->
  Text.first_after Text.closing blob = true ->
  Str.is_empty blob = false ->
  JSON_parse blob = Ok data ->
  Regex.match_group1 (hd [] Server.patterns)
    (pre +++ Text.opening +++ blob +++ Text.closing +++ post) = Some blob /\
  Server.extractJSONFromHTML
    (pre +++ Text.opening +++ blob +++ Text.closing +++ post) = data.
Proof.
  intros Hpre Hblob Hne Hp.
  pose proof (PatternFacts.first_pattern_finds pre blob post Hpre Hblob)
    as Hm.
  split; [exact Hm|].
  unfold Server.extractJSONFromHTML, Server.patterns.
  cbn [Server.extract_with]. cbn [hd Server.patterns] in Hm.
  unfold Text.opening, Text.closing in *. rewrite Hm, Hne, Hp. reflexivity.
Qed.


(** X26.  Total exhaustion in [part_001]: with nothing cached and no
    upstream answering, [/channels] and [/search] answer with status 502
    and [{ items: [], nextPage: null, error }], where the error text is
    that of the Piped failure. *)
Theorem part001_exhaustion_is_502 (ep : endpoint) (w : world) (url : string)
    (c : lru) :
  ep = Channels \/ ep = Search ->
  lookup_at (now w) c url = None ->
  Str.is_empty (query_q url) = false ->
  no_raw c -> upstream_down w ->
  exists e,
    respond
      (net w (match ep with
              | Search =>
                  Part001.search_pipUrl (query_q url) (query_page url)
              | _ =>
                  Part001.channels_pipUrl (query_q url) (query_page url)
              end)) = Throw e /\
    fst (Part001.serve ep w url c)
    = Sent 502
        (JSON_stringify (obj_items_error [] VNull (exn_toString e))).
Proof.
  unfold lookup_at. intros Hep Hg Hq Hc Hw.
  pose proof (no_raw_get (now w) url c Hc) as Hc'.
  destruct Hep as [-> | ->]; unfold Part001.serve, run, Part001.handler;
    [unfold Part001.channels|unfold Part001.search]; cbv zeta;
    unfold try_catch at 1; rewrite hit_or_miss; cbn [cache fetched];
    (destruct (Lru.get (now w) url c) as [[h|] c']; [discriminate|]);
    simpl in Hc'; rewrite Hq.
  - destruct (Hw (Part001.channels_invUrl (query_q url) (query_page url)))
      as [e1 He1].
    destruct (Hw (Part001.channels_pipUrl (query_q url) (query_page url)))
      as [e2 He2].
    exists e2. split; [exact He2|]. unfold try_catch, bind.
    rewrite (part001_getCachedJson_down w _ e1) by assumption.
    rewrite (part001_getCachedJson_down w _ e2) by assumption.
    reflexivity.
  - destruct (Hw (Part001.search_invUrl (query_q url) (query_page url)))
      as [e1 He1].
    destruct (Hw (Part001.search_pipUrl (query_q url) (query_page url)))
      as [e2 He2].
    exists e2. split; [exact He2|]. unfold try_catch, bind.
    rewrite (part001_getCachedJson_down w _ e1) by assumption.
    rewrite (part001_getCachedJson_down w _ e2) by assumption.
    reflexivity.
Qed.

(** X27.  The Piped branch of [/suggest] in [part_001] takes the payload
    for the list itself: when Invidious fails and Piped answers with a
    JSON value that is neither an array nor [null], the request ends
    with status 502 and an empty list, although Piped answered. *)
Theorem part001_piped_object_is_502 (w : world) (url txt : string)
    (c : lru) (e : exn) (raw : value) :
  lookup_at (now w) c url = None ->
  Str.is_empty (query_q url) = false ->
  no_raw c ->
  respond (net w (Part001.invUrl (query_q url))) = Throw e ->
  respond (net w (Part001.pipUrl (query_q url))) = Ok txt ->
  JSON_parse txt = Ok raw ->
  isArray raw = false -> nullish raw = false ->
  exists msg,
    fst (Part001.serve Suggest w url c)
    = Sent 502 (JSON_stringify (obj_suggestions_error [] msg)).
Proof.
  unfold lookup_at. intros Hg Hq Hc He Hr Hp Ha Hn.
  pose proof (no_raw_get (now w) url c Hc) as Hc'.
  unfold Part001.serve, run, Part001.handler, Part001.suggest. cbv zeta.
  unfold try_catch at 1. rewrite hit_or_miss. cbn [cache fetched].
  destruct (Lru.get (now w) url c) as [[h|] c']; [discriminate|].
  simpl in Hc'. rewrite Hq. unfold try_catch, bind.
  rewrite (part001_getCachedJson_down w _ e) by assumption.
  rewrite (part001_getCachedJson_answers w _ txt raw) by assumption.
  unfold lift, Part001.strings, coalesce. rewrite Hn.
  destruct raw; try discriminate; cbn; eauto.
Qed.


(** X29.  [part_001] caches its failures with its successes: whatever a
    handler answers on a miss, a 502 included, is replayed with the same
    status and body, and without any fetch, to the identical request
    that comes next within the time to live, whatever the upstreams do
    by then. *)
Theorem part001_answers_are_replayed (ep : endpoint) (w w' : world)
    (url : string) (c : lru) :
  lookup_at (now w) c url = None ->
  now w' - now w <= CACHE_TTL_S * 1000 ->
  let s1 := snd (Part001.serve ep w url c) in
  (exists status body, fst (Part001.serve ep w url c) = Sent status body) /\
  fst (Part001.serve ep w' url (cache s1)) = fst (Part001.serve ep w url c) /\
  fetched (snd (Part001.serve ep w' url (cache s1))) = [].
Proof.
  unfold lookup_at. intros Hg Httl. cbv zeta. unfold Part001.serve, run.
  destruct (part001_total ep w url {| cache := c; fetched := [] |})
    as [r Hr].
  destruct (Part001.handler ep w url {| cache := c; fetched := [] |})
    as [[r0|e] s1] eqn:Hs; simpl in Hr; [|discriminate].
  injection Hr as ->.
  destruct (part001_miss_stored ep w url {| cache := c; fetched := [] |}
              r s1 Hg Hs)
    as (status & body & c1 & -> & Hc1).
  cbn [fst snd]. split; [eauto|].
  destruct (part001_replays ep w' url {| cache := cache s1; fetched := [] |}
              status body) as [H1 H2].
  { cbn [cache]. rewrite Hc1.
    rewrite (get_live (now w') url _ _ (find_set _ _ _ _ _ _));
      [reflexivity|].
    unfold stale. cbn [sttl sstart]. apply andb_false_iff. right.
    apply Z.ltb_ge. exact Httl. }
  destruct (Part001.handler ep w' url {| cache := cache s1; fetched := [] |})
    as [[r1|e1] s2]; simpl in H1, H2; [|discriminate].
  injection H1 as ->. split; [reflexivity|exact H2].
Qed.

End Statements.

(** ** The statements at work on the finite platform *)

Ltac all_lost :=
  repeat (apply Forall_cons; [split; [reflexivity|eexists; reflexivity]|]);
  apply Forall_nil.

Lemma race_lost_iff_witness :
  fst (Server.race (B := Demo.builtins) (C := Demo.config) Demo.offline
         ["https://a.example"; "https://b.example"] Samples.empty_state)
  = Throw AggregateError.
Proof.
  apply (race_lost_iff (B := Demo.builtins) (C := Demo.config) Demo.offline
           ["https://a.example"; "https://b.example"] Samples.empty_state).
  all_lost.
Defined.

Lemma cached_candidate_wins_witness :
  fst (Server.race (B := Demo.builtins) (C := Demo.config) Demo.offline
         ["https://a.example"; "https://b.example"]
         {| cache := Samples.one_cached; fetched := [] |})
  = Ok (VArr []).
Proof.
  apply (cached_candidate_wins (B := Demo.builtins) (C := Demo.config)
           Demo.offline ["https://a.example"; "https://b.example"]
           {| cache := Samples.one_cached; fetched := [] |}
           "https://b.example" (VArr []));
    reflexivity.
Defined.

Lemma fastest_mirror_wins_witness :
  exists u,
    In u ["https://slow.example"; "https://fast.example"] /\
    Server.fetchJson_outcome (B := Demo.builtins) Samples.two_mirrors u
      (UPSTREAM_TIMEOUT_MS (Config := Demo.config)) = Ok (VArr []) /\
    (forall u' v',
       In u' ["https://slow.example"; "https://fast.example"] ->
       Server.fetchJson_outcome (B := Demo.builtins) Samples.two_mirrors u'
         (UPSTREAM_TIMEOUT_MS (Config := Demo.config)) = Ok v' ->
       latency Samples.two_mirrors u <= latency Samples.two_mirrors u') /\
    Lru.find ("UPSTREAM:" +++ u)
      (cache (snd (Server.race (B := Demo.builtins) (C := Demo.config)
                     Samples.two_mirrors
                     ["https://slow.example"; "https://fast.example"]
                     Samples.empty_state)))
    = Some {| skey := "UPSTREAM:" +++ u; sval := Raw (VArr []);
              sstart := 1000; sttl := 600000 |}.
Proof.
  apply (fastest_mirror_wins (B := Demo.builtins) (C := Demo.config)
           Samples.two_mirrors
           ["https://slow.example"; "https://fast.example"]
           Samples.empty_state (VArr []));
    [repeat constructor|reflexivity].
Defined.

Lemma getCached_round_trip_witness :
  fst (Server.getCached (B := Demo.builtins) (C := Demo.config)
         Samples.second_of_three "UPSTREAM:https://b.example"
         "https://b.example" 3500
         (snd (Server.getCached (B := Demo.builtins) (C := Demo.config)
                 Samples.second_of_three "UPSTREAM:https://b.example"
                 "https://b.example" 3500 Samples.empty_state)))
  = Ok (VArr []) /\
  fetched
    (snd (Server.getCached (B := Demo.builtins) (C := Demo.config)
            Samples.second_of_three "UPSTREAM:https://b.example"
            "https://b.example" 3500
            (snd (Server.getCached (B := Demo.builtins) (C := Demo.config)
                    Samples.second_of_three "UPSTREAM:https://b.example"
                    "https://b.example" 3500 Samples.empty_state))))
  = ["https://b.example"].
Proof.
  apply (getCached_round_trip (B := Demo.builtins) (C := Demo.config)
           Samples.second_of_three Samples.second_of_three
           "UPSTREAM:https://b.example" "https://b.example" 3500 3500
           Samples.empty_state (VArr []));
    [reflexivity|reflexivity|simpl; lia].
Defined.

Lemma failed_fetch_not_cached_witness :
  Server.fetchJson_outcome (B := Demo.builtins) Demo.offline
    "https://a.example" 3500 = Throw (TypeError "fetch failed") /\
  Lru.find "UPSTREAM:https://a.example"
    (cache (snd (Server.getCached (B := Demo.builtins) (C := Demo.config)
                   Demo.offline "UPSTREAM:https://a.example"
                   "https://a.example" 3500 Samples.empty_state)))
  = None /\
  fetched (snd (Server.getCached (B := Demo.builtins) (C := Demo.config)
                  Demo.offline "UPSTREAM:https://a.example"
                  "https://a.example" 3500 Samples.empty_state))
  = ["https://a.example"].
Proof.
  apply (failed_fetch_not_cached (B := Demo.builtins) (C := Demo.config)
           Demo.offline "UPSTREAM:https://a.example" "https://a.example"
           3500 Samples.empty_state (TypeError "fetch failed")).
  reflexivity.
Defined.

Lemma firstOk_stops_witness :
  Part000.firstOk (B := Demo.builtins) (C := Demo.config)
    Samples.second_of_three
    ["https://a.example"; "https://b.example"; "https://c.example"] 3500
    Samples.empty_state
  = (Ok (VArr []),
     {| cache :=
          [ {| skey := "UPSTREAM:https://b.example"; sval := Raw (VArr []);
               sstart := 1000; sttl := 600000 |} ];
        fetched := ["https://a.example"; "https://b.example"] |}) /\
  Server0.firstOk (B := Demo.builtins) (C := Demo.config)
    Samples.second_of_three
    ["https://a.example"; "https://b.example"; "https://c.example"]
    Samples.empty_state
  = (Ok (VArr []),
     {| cache :=
          [ {| skey := "UPSTREAM:https://b.example"; sval := Raw (VArr []);
               sstart := 1000; sttl := 600000 |} ];
        fetched := ["https://a.example"; "https://b.example"] |}).
Proof.
  destruct (firstOk_stops_at_first_success (B := Demo.builtins)
              (C := Demo.config) Samples.second_of_three
              ["https://a.example"] ["https://c.example"]
              "https://b.example" (VArr []) Samples.empty_state eq_refl)
    as [H1 H2].
  split.
  - apply (H1 3500); [|reflexivity].
    constructor; [|constructor]. eexists. split; reflexivity.
  - apply H2; [|reflexivity].
    constructor; [|constructor]. eexists. split; reflexivity.
Defined.

Lemma firstOk_reports_last_error_witness :
  Part000.firstOk (B := Demo.builtins) (C := Demo.config) Demo.offline
    ["https://a.example"; "https://b.example"] 3500 Samples.empty_state
  = (Throw (TypeError "fetch failed"),
     {| cache := []; fetched := ["https://a.example"; "https://b.example"] |}).
Proof.
  apply (firstOk_reports_last_error (B := Demo.builtins) (C := Demo.config)
           Demo.offline 3500 ["https://a.example"] "https://b.example"
           (TypeError "fetch failed") Samples.empty_state).
  - constructor; [|constructor]. eexists. split; reflexivity.
  - split; reflexivity.
Defined.

Lemma current_start :
  Server.reachable (B := Demo.builtins) (C := Demo.config)
    (E := Demo.express) [].
Proof. apply Server.start. Qed.

Lemma current_always_200_witness :
  exists body,
    fst (Demo.serve Channels Demo.offline "/channels?q=cats" [])
    = Sent 200 body.
Proof.
  apply (current_always_200 (B := Demo.builtins) (C := Demo.config)
           (E := Demo.express) Channels Demo.offline "/channels?q=cats" []);
    [exact current_start|reflexivity|reflexivity].
Defined.


Lemma part000_always_200_witness :
  exists body,
    fst (Part000.serve (B := Demo.builtins) (C := Demo.config)
           (E := Demo.express) Search Demo.offline "/search?q=cats" [])
    = Sent 200 body.
Proof.
  apply (part000_always_200 (B := Demo.builtins) (C := Demo.config)
           (E := Demo.express) Search Demo.offline "/search?q=cats" []);
    [apply Part000.start|reflexivity|reflexivity].
Defined.

Lemma server0_always_200_witness :
  exists body,
    fst (Server0.serve (B := Demo.builtins) (C := Demo.config)
           (E := Demo.express) Search Demo.offline "/search?q=cats" [])
    = Sent 200 body.
Proof.
  apply (server0_always_200 (B := Demo.builtins) (C := Demo.config)
           (E := Demo.express) Search Demo.offline "/search?q=cats" []);
    [apply Server0.start|reflexivity|reflexivity].
Defined.

Lemma part001_200_or_502_witness :
  exists status body,
    fst (Part001.serve (B := Demo.builtins) (C := Demo.config)
           (E := Demo.express) Search Demo.offline "/search?q=cats" [])
    = Sent status body /\
    (status = 200 \/
     (status = 502 /\
      exists p, failure_payload p /\ body = Demo.show p)).
Proof.
  apply (part001_200_or_502 (B := Demo.builtins) (C := Demo.config)
           (E := Demo.express) Search Demo.offline "/search?q=cats" []);
    [apply Part001.start|reflexivity|reflexivity].
Defined.


Lemma search_falls_back_to_html_witness :
  fst (Server.serve (B := Samples.builtins) (C := Demo.config)
         (E := Demo.express) Search Samples.only_youtube "/search?q=cats" [])
  = Sent 200
      (Demo.show
         (obj_items
            [item "video"
               (VObj [("id", VStr "v1"); ("title", VStr "t1");
                      ("channelName", VNull); ("channelId", VNull);
                      ("durationSeconds", VNull); ("viewCount", VNull);
                      ("publishedText", VNull); ("thumbnails", VArr [])]);
             item "channel"
               (VObj [("id", VStr "UC1"); ("title", VStr "c1");
                      ("avatar", VNull)])]
            (num 2))).
Proof.
  apply (search_falls_back_to_html (B := Samples.builtins)
           (C := Demo.config) (E := Demo.express) Samples.only_youtube
           "/search?q=cats" "<script>var ytInitialData = blob;</script>" []
           [item "video"
              (VObj [("id", VStr "v1"); ("title", VStr "t1");
                     ("channelName", VNull); ("channelId", VNull);
                     ("durationSeconds", VNull); ("viewCount", VNull);
                     ("publishedText", VNull); ("thumbnails", VArr [])])]
           [item "channel"
              (VObj [("id", VStr "UC1"); ("title", VStr "c1");
                     ("avatar", VNull)])]);
    [reflexivity|reflexivity|reflexivity|all_lost|all_lost
    |reflexivity|reflexivity|reflexivity|reflexivity].
Defined.

Lemma channels_fallback_is_marked_witness :
  fst (Server.serve (B := Samples.builtins) (C := Demo.config)
         (E := Demo.express) Channels Samples.only_youtube
         "/channels?q=cats" [])
  = Sent 200
      (Demo.show
         (obj_items_error
            [item "channel"
               (VObj [("id", VStr "UC1"); ("title", VStr "c1");
                      ("avatar", VNull)])]
            (num 2) "upstream_unavailable")).
Proof.
  apply (channels_fallback_is_marked (B := Samples.builtins)
           (C := Demo.config) (E := Demo.express) Samples.only_youtube
           "/channels?q=cats" "<script>var ytInitialData = blob;</script>" []
           [item "video"
              (VObj [("id", VStr "v1"); ("title", VStr "t1");
                     ("channelName", VNull); ("channelId", VNull);
                     ("durationSeconds", VNull); ("viewCount", VNull);
                     ("publishedText", VNull); ("thumbnails", VArr [])])]);
    [reflexivity|reflexivity|all_lost|all_lost
    |reflexivity|reflexivity|reflexivity|reflexivity].
Defined.



Lemma thumbnails_capped_witness :
  exists l,
    first_present
      (VObj [("thumbnails",
               VArr [VObj [("url", VStr "u1")]; VObj [("url", VStr "u2")];
                     VObj [("url", VStr "u3")]; VObj [("url", VStr "u4")]])])
      ["videoThumbnails"; "thumbnails"] (VArr []) = VArr l /\
    getq
      (VObj [("id", VNull); ("title", VStr EmptyString);
             ("channelName", VNull); ("channelId", VNull);
             ("durationSeconds", VNull); ("viewCount", num 0);
             ("publishedText", VNull);
             ("thumbnails", VArr [VStr "u1"; VStr "u2"; VStr "u3"])])
      "thumbnails"
    = VArr (firstn 3 (map (fun t => getq t "url") l)) /\
    (List.length (firstn 3 (map (fun t => getq t "url") l)) <= 3)%nat.
Proof.
  apply (thumbnails_capped
           (VObj [("thumbnails",
                    VArr [VObj [("url", VStr "u1")];
                          VObj [("url", VStr "u2")];
                          VObj [("url", VStr "u3")];
                          VObj [("url", VStr "u4")]])])).
  reflexivity.
Defined.

Lemma normalizeChannel_total_witness :
  exists id title avatar,
    normalizeChannel (VObj [("name", VStr "c1"); ("thumbnails", VStr "x")])
    = Ok (VObj [("id", id); ("title", title); ("avatar", avatar)]) /\
    id <> VUndefined /\ nullish title = false /\ avatar <> VUndefined.
Proof.
  apply (normalizeChannel_total
           (VObj [("name", VStr "c1"); ("thumbnails", VStr "x")])).
  reflexivity.
Defined.

Lemma parsePool_fallback_witness :
  Startup.parsePool (Samples.env " , ") "PIPED_POOL" ["https://p.example"]
  = VArr [VStr "https://p.example"] /\
  Startup.parsePool (Samples.env " , ") "INVIDIOUS_POOL"
    ["https://i.example"]
  = VArr [].
Proof.
  split.
  - apply (parsePool_fallback_only_when_unset (Samples.env " , ")
             "PIPED_POOL" ["https://p.example"]).
    reflexivity.
  - apply (proj2 (parsePool_fallback_only_when_unset (Samples.env " , ")
                    "INVIDIOUS_POOL" ["https://i.example"]) " , ");
      [reflexivity|repeat constructor].
Defined.

Lemma parsePool_round_trip_witness :
  Startup.parsePool (Samples.env "https://a.example,https://b.example")
    "INVIDIOUS_POOL" ["https://i.example"]
  = VArr [VStr "https://a.example"; VStr "https://b.example"].
Proof.
  apply (parsePool_round_trip
           (Samples.env "https://a.example,https://b.example")
           "INVIDIOUS_POOL" ["https://i.example"]
           ["https://a.example"; "https://b.example"]);
    [discriminate|repeat constructor|reflexivity].
Defined.

Lemma first_pattern_captures_witness :
  exists pre post,
    "<script>var ytInitialData = {a};</script>;</script>"
    = pre +++ Text.opening +++ "{a}" +++ Text.closing +++ post /\
    Str.includes Text.closing "{a}" = false.
Proof.
  apply (first_pattern_captures
           "<script>var ytInitialData = {a};</script>;</script>" "{a}").
  reflexivity.
Defined.

Lemma embedded_data_is_found_witness :
  Regex.match_group1 (hd [] Server.patterns)
    ("<script>" +++ Text.opening +++ "blob" +++ Text.closing +++ "</html>")
  = Some "blob" /\
  Server.extractJSONFromHTML (B := Samples.builtins)
    ("<script>" +++ Text.opening +++ "blob" +++ Text.closing +++ "</html>")
  = Samples.page_data.
Proof.
  apply (embedded_data_is_found (B := Samples.builtins) "<script>" "blob"
           "</html>" Samples.page_data);
    reflexivity.
Defined.


Lemma part001_exhaustion_is_502_witness :
  exists e,
    respond
      (net Demo.offline
         (Part001.search_pipUrl (B := Demo.builtins) (C := Demo.config)
            "cats" (Num.of_Z 1)))
    = Throw e /\
    fst (Part001.serve (B := Demo.builtins) (C := Demo.config)
           (E := Demo.express) Search Demo.offline "/search?q=cats" [])
    = Sent 502 (Demo.show (obj_items_error [] VNull (exn_toString e))).
Proof.
  apply (part001_exhaustion_is_502 (B := Demo.builtins) (C := Demo.config)
           (E := Demo.express) Search Demo.offline "/search?q=cats" []);
    [right; reflexivity|reflexivity|reflexivity|intros k _; reflexivity
    |intros u; eexists; reflexivity].
Defined.

Lemma part001_piped_object_is_502_witness :
  exists msg,
    fst (Part001.serve (B := Demo.builtins) (C := Demo.config)
           (E := Demo.express) Suggest Samples.piped_object
           "/suggest?q=cats" [])
    = Sent 502 (Demo.show (obj_suggestions_error [] msg)).
Proof.
  apply (part001_piped_object_is_502 (B := Demo.builtins) (C := Demo.config)
           (E := Demo.express) Samples.piped_object "/suggest?q=cats" "{}" []
           (TypeError "fetch failed") (VObj []));
    [reflexivity|reflexivity|intros k _; reflexivity|reflexivity|reflexivity
    |reflexivity|reflexivity|reflexivity].
Defined.


Lemma part001_answers_are_replayed_witness :
  (exists status body,
     fst (Part001.serve (B := Demo.builtins) (C := Demo.config)
            (E := Demo.express) Search Demo.offline "/search?q=cats" [])
     = Sent status body) /\
  fst (Part001.serve (B := Demo.builtins) (C := Demo.config)
         (E := Demo.express) Search Demo.empty_invidious "/search?q=cats"
         (cache (snd (Part001.serve (B := Demo.builtins) (C := Demo.config)
                        (E := Demo.express) Search Demo.offline
                        "/search?q=cats" []))))
  = fst (Part001.serve (B := Demo.builtins) (C := Demo.config)
           (E := Demo.express) Search Demo.offline "/search?q=cats" []) /\
  fetched
    (snd (Part001.serve (B := Demo.builtins) (C := Demo.config)
            (E := Demo.express) Search Demo.empty_invidious "/search?q=cats"
            (cache (snd (Part001.serve (B := Demo.builtins)
                           (C := Demo.config) (E := Demo.express) Search
                           Demo.offline "/search?q=cats" [])))))
  = [].
Proof.
  apply (part001_answers_are_replayed (B := Demo.builtins)
           (C := Demo.config) (E := Demo.express) Search Demo.offline
           Demo.empty_invidious "/search?q=cats" []);
    [reflexivity|simpl; lia].
Defined.

End Further.
